(** * lexicographicSortSchema: a sorted copy of a GraphQL schema

    A shallow embedding of [src/utilities/lexicographicSortSchema.js] and the
    properties its specification states about it.

    The type system ([GraphQLSchema], [GraphQLObjectType], ...), the property
    order of JavaScript objects, [Array.prototype.sort] and
    [String.prototype.localeCompare] belong to the library and to the
    platform; the part of their behaviour the sorter relies on is written out
    below, next to the function that uses it. *)

From Stdlib Require Import List String Ascii ZArith NArith Bool Arith Lia.
From Stdlib Require Import Permutation Sorted.
Import ListNotations.
Open Scope string_scope.
Open Scope list_scope.

Set Implicit Arguments.

(** ** Exceptions

    A call either returns or throws.  The sorter itself throws only through
    [invariant(false, ...)]; reading a property of [undefined] is the
    platform's [TypeError], a comparison with locales or options the
    platform rejects is its [RangeError], and [Error] is what the library
    throws when it is handed [undefined] for a type. *)

Inductive error : Type :=
| TypeError
| RangeError
| Error (message : string)
| InvariantViolation (message : string).

Inductive result (A : Type) : Type :=
| Ok (a : A)
| Throw (e : error).

Arguments Ok {A} a.
Arguments Throw {A} e.

Definition bind {A B : Type} (c : result A) (k : A -> result B) : result B :=
  match c with
  | Ok a => k a
  | Throw e => Throw e
  end.

Declare Scope js_scope.
Delimit Scope js_scope with js.
Notation "x <- c ;; k" := (bind c (fun x => k))
  (at level 61, c at next level, right associativity) : js_scope.
Notation "' p <- c ;; k" := (bind c (fun x => match x with p => k end))
  (at level 61, p pattern, c at next level, right associativity) : js_scope.
Open Scope js_scope.

(** [array.map(f)] with a callback that may throw: left to right, the first
    exception ends the loop. *)
Fixpoint Array_map {A B : Type} (f : A -> result B) (array : list A)
  : result (list B) :=
  match array with
  | [] => Ok []
  | x :: rest =>
      y <- f x ;;
      ys <- Array_map f rest ;;
      Ok (y :: ys)
  end.

(** ** JavaScript objects used as maps

    An [ObjMap] is an object created with [Object.create(null)]: own
    properties only.  The list holds the properties in the order in which
    [Object.keys] enumerates them: keys that are array indices first, in
    ascending numeric order, then every other key in the order of its first
    assignment. *)

Definition ObjMap (V : Type) : Type := list (string * V).

Definition is_digit (c : ascii) : bool :=
  let n := nat_of_ascii c in ((48 <=? n) && (n <=? 57))%nat.

Fixpoint digits_value (s : string) (acc : N) : option N :=
  match s with
  | EmptyString => Some acc
  | String c rest =>
      if is_digit c
      then digits_value rest (acc * 10 + N.of_nat (nat_of_ascii c - 48))%N
      else None
  end.

(** The array index a property key denotes, if any: the canonical decimal
    numeral of an integer below 2^32 - 1. *)
Definition array_index (key : string) : option N :=
  match key with
  | EmptyString => None
  | String c rest =>
      if Ascii.eqb c "0"%char
      then match rest with EmptyString => Some 0%N | _ => None end
      else match digits_value key 0 with
           | Some n => if (n <? 4294967295)%N then Some n else None
           | None => None
           end
  end.

Definition Object_create_null {V : Type} : ObjMap V := [].

Definition Object_keys {V : Type} (map : ObjMap V) : list string :=
  List.map fst map.

(** Modelled from the spec: [polyfills/objectValues] is not among the
    sources.  The values of the properties, in the order of the keys. *)
Definition objectValues {V : Type} (map : ObjMap V) : list V :=
  List.map snd map.

(** [map[key]]; [None] is [undefined]. *)
Fixpoint obj_get {V : Type} (map : ObjMap V) (key : string) : option V :=
  match map with
  | [] => None
  | (k, v) :: rest => if String.eqb k key then Some v else obj_get rest key
  end.

Definition obj_has {V : Type} (map : ObjMap V) (key : string) : bool :=
  existsb (String.eqb key) (Object_keys map).

(** Assignment to a property that exists keeps its place. *)
Fixpoint obj_overwrite {V : Type} (map : ObjMap V) (key : string) (value : V)
  : ObjMap V :=
  match map with
  | [] => []
  | (k, v) :: rest =>
      if String.eqb k key then (k, value) :: rest
      else (k, v) :: obj_overwrite rest key value
  end.

(** A new index key goes before the first key that is no index or a greater
    index. *)
Fixpoint obj_add_index {V : Type} (map : ObjMap V) (n : N) (key : string)
  (value : V) : ObjMap V :=
  match map with
  | [] => [(key, value)]
  | (k, v) :: rest =>
      match array_index k with
      | Some m =>
          if (m <? n)%N then (k, v) :: obj_add_index rest n key value
          else (key, value) :: map
      | None => (key, value) :: map
      end
  end.

(** [map[key] = value]. *)
Definition obj_set {V : Type} (map : ObjMap V) (key : string) (value : V)
  : ObjMap V :=
  if obj_has map key then obj_overwrite map key value
  else match array_index key with
       | Some n => obj_add_index map n key value
       | None => map ++ [(key, value)]
       end.

(** ** Arrays

    [array.slice()] is a new array with the same elements;
    [Array.prototype.sort] reorders the array it is called on.  On the
    contents of an array both are functions from lists to lists; the cells
    the arrays live in are the subject of the section on arrays as cells
    below.

    ECMAScript (since the 2019 edition) requires [sort] to be stable, and
    for a consistent comparison function the stable order is unique; it is
    written here as an insertion sort.  The comparison function is
    JavaScript code and may throw.

    [sort] puts the elements that are [undefined] last without comparing
    them; here they are compared like the others, and the comparison
    function of the sorter throws where it reads their name.  The sorter
    reads the name of every element of an array of types it has sorted, so
    that it throws in both cases. *)

Definition Array_slice {T : Type} (array : list T) : list T := array.

Fixpoint sort_insert {T : Type} (comparefn : T -> T -> result Z) (x : T)
  (sorted : list T) : result (list T) :=
  match sorted with
  | [] => Ok [x]
  | y :: rest =>
      c <- comparefn x y ;;
      if (c <=? 0)%Z then Ok (x :: y :: rest)
      else (r <- sort_insert comparefn x rest ;; Ok (y :: r))
  end.

Fixpoint Array_sort {T : Type} (comparefn : T -> T -> result Z)
  (array : list T) : result (list T) :=
  match array with
  | [] => Ok []
  | x :: rest =>
      sorted <- Array_sort comparefn rest ;;
      sort_insert comparefn x sorted
  end.

(** ** The type system, as the sorter reads and builds it

    Named types are objects with an identity: they live in a heap and are
    referred to by address.  Whatever a config carries besides the members
    the sorter looks at (description, extensions, resolvers, AST node, ...)
    is copied by [...config] and kept here as one opaque [Rest]. *)

Definition Rest : Type := string.

Definition addr : Type := nat.

(** A [?GraphQLNamedType]: a named type instance, or [undefined]. *)
Definition ref : Type := option addr.

Inductive GraphQLType : Type :=
| Named (type : ref)
| GraphQLList (ofType : GraphQLType)
| GraphQLNonNull (ofType : GraphQLType).

Record GraphQLArgumentConfig : Type := {
  arg_type : GraphQLType;
  arg_rest : Rest
}.

Record GraphQLFieldConfig : Type := {
  field_type : GraphQLType;
  field_args : ObjMap GraphQLArgumentConfig;
  field_rest : Rest
}.

Record GraphQLInputFieldConfig : Type := {
  input_field_type : GraphQLType;
  input_field_rest : Rest
}.

Definition GraphQLEnumValueConfig : Type := Rest.

Record GraphQLDirective : Type := {
  directive_name : string;
  locations : list string;
  directive_args : ObjMap GraphQLArgumentConfig;
  directive_rest : Rest
}.

(** An instance of one of the six classes of named types with the members
    [toConfig()] returns, or ([OtherType]) a value that is an instance of
    none of them. *)
Inductive GraphQLNamedType : Type :=
| GraphQLScalarType (name : string) (rest : Rest)
| GraphQLObjectType (name : string) (interfaces : list ref)
    (fields : ObjMap GraphQLFieldConfig) (rest : Rest)
| GraphQLInterfaceType (name : string) (interfaces : list ref)
    (fields : ObjMap GraphQLFieldConfig) (rest : Rest)
| GraphQLUnionType (name : string) (types : list ref) (rest : Rest)
| GraphQLEnumType (name : string) (values : ObjMap GraphQLEnumValueConfig)
    (rest : Rest)
| GraphQLInputObjectType (name : string)
    (fields : ObjMap GraphQLInputFieldConfig) (rest : Rest)
| OtherType (name : string) (rest : Rest).

Definition type_name (type : GraphQLNamedType) : string :=
  match type with
  | GraphQLScalarType name _ | GraphQLObjectType name _ _ _
  | GraphQLInterfaceType name _ _ _ | GraphQLUnionType name _ _
  | GraphQLEnumType name _ _ | GraphQLInputObjectType name _ _
  | OtherType name _ => name
  end.

(** Modelled from the spec: the predicates of [../type/definition] are not
    among the sources.  Each of them tells the instances of one class. *)
Definition isScalarType (type : GraphQLNamedType) : bool :=
  match type with GraphQLScalarType _ _ => true | _ => false end.

Definition isObjectType (type : GraphQLNamedType) : bool :=
  match type with GraphQLObjectType _ _ _ _ => true | _ => false end.

Definition isInterfaceType (type : GraphQLNamedType) : bool :=
  match type with GraphQLInterfaceType _ _ _ _ => true | _ => false end.

Definition isUnionType (type : GraphQLNamedType) : bool :=
  match type with GraphQLUnionType _ _ _ => true | _ => false end.

Definition isEnumType (type : GraphQLNamedType) : bool :=
  match type with GraphQLEnumType _ _ _ => true | _ => false end.

Definition isInputObjectType (type : GraphQLNamedType) : bool :=
  match type with GraphQLInputObjectType _ _ _ => true | _ => false end.

(** What [schema.toConfig()] returns and [new GraphQLSchema] takes. *)
Record GraphQLSchema : Type := {
  schema_types : list addr;
  schema_directives : list GraphQLDirective;
  query : ref;
  mutation : ref;
  subscription : ref;
  schema_rest : Rest
}.

(** The heap of named type instances; an address is a position in it. *)
Definition Heap : Type := list GraphQLNamedType.

(** Using an address as an object.  An address outside the heap denotes no
    object, and using it throws like using [undefined] does. *)
Definition instance_at (h : Heap) (type : addr) : result GraphQLNamedType :=
  match nth_error h type with
  | Some t => Ok t
  | None => Throw TypeError
  end.

(** [obj.name] for the three kinds of values [sortByName] is called on. *)
Class HasName (T : Type) : Type :=
  name_of : Heap -> T -> result string.

#[export] Instance addr_HasName : HasName addr :=
  fun h type => t <- instance_at h type ;; Ok (type_name t).

#[export] Instance ref_HasName : HasName ref :=
  fun h type =>
    match type with
    | Some a => name_of h a
    | None => Throw TypeError
    end.

#[export] Instance directive_HasName : HasName GraphQLDirective :=
  fun _ directive => Ok (directive_name directive).

(** ** Thunks

    [sortNamedType] hands the constructors closures [() => sortTypes(...)],
    [() => sortFields(...)] and [() => sortInputFields(...)].  A closure is
    kept as the value it captured; which function it calls is fixed by the
    member it is given for. *)

Record Thunk (A : Type) : Type := thunk { captured : A }.

Inductive TypeConfig : Type :=
| ObjectTypeConfig (name : string) (interfaces : Thunk (list ref))
    (fields : Thunk (ObjMap GraphQLFieldConfig)) (rest : Rest)
| InterfaceTypeConfig (name : string) (interfaces : Thunk (list ref))
    (fields : Thunk (ObjMap GraphQLFieldConfig)) (rest : Rest)
| UnionTypeConfig (name : string) (types : Thunk (list ref)) (rest : Rest)
| EnumTypeConfig (name : string) (values : ObjMap GraphQLEnumValueConfig)
    (rest : Rest)
| InputObjectTypeConfig (name : string)
    (fields : Thunk (ObjMap GraphQLInputFieldConfig)) (rest : Rest).

(** Instances whose constructor has run while their thunks have not: the
    [n]-th of them has address [length h + n]. *)
Definition Build (A : Type) : Type :=
  list TypeConfig -> result (A * list TypeConfig).

(** Modelled from the spec: [jsutils/keyValMap] is not among the sources.
    [list.reduce((map, item) => { map[keyFn(item)] = valFn(item); return map },
    Object.create(null))]. *)
Fixpoint keyValMap_reduce {T V S : Type} (list : list T)
  (keyFn : T -> result string) (valFn : T -> S -> result (V * S))
  (map : ObjMap V) (s : S) : result (ObjMap V * S) :=
  match list with
  | [] => Ok (map, s)
  | item :: rest =>
      key <- keyFn item ;;
      ' (value, s1) <- valFn item s ;;
      keyValMap_reduce rest keyFn valFn (obj_set map key value) s1
  end.

Definition keyValMap {T V S : Type} (list : list T)
  (keyFn : T -> result string) (valFn : T -> S -> result (V * S)) (s : S)
  : result (ObjMap V * S) :=
  keyValMap_reduce list keyFn valFn Object_create_null s.

(** Modelled from the spec: [jsutils/invariant] and [jsutils/inspect] are
    not among the sources; [invariant(false, message)] throws, and of
    [inspect] only the fact that it prints its argument matters. *)
Definition inspect (type : GraphQLNamedType) : string := type_name type.

Definition invariant_false {A : Type} (message : string) : result A :=
  Throw (InvariantViolation message).

(** ** The sorter *)

Record CollatorOptions : Type := {
  localeMatcher : option string;
  usage : option string;
  sensitivity : option string;
  ignorePunctuation : option bool;
  numeric : option bool;
  caseFirst : option string
}.

Record CompareOptions : Type := {
  locales : option (list string);
  options : option CollatorOptions
}.

(** [compareOptions?.locales] and [compareOptions?.options]. *)
Definition optional_locales (compareOptions : option CompareOptions)
  : option (list string) :=
  match compareOptions with Some o => locales o | None => None end.

Definition optional_options (compareOptions : option CompareOptions)
  : option CollatorOptions :=
  match compareOptions with Some o => options o | None => None end.

(** [String.prototype.localeCompare] of the platform.  A call
    [key1.localeCompare(key2, locales, options)] first builds a collator
    from the locales and the options, which throws a [RangeError] for a
    locale or an option the platform does not accept, and then compares
    the two strings with it, which gives a number, negative, zero or
    positive: the comparison of the collator for locales and options, or
    [None] where the platform does not accept them. *)
Definition LocaleCompare : Type :=
  option (list string) -> option CollatorOptions ->
  option (string -> string -> Z).

(** The errors of a wrapper built around [undefined]. *)
Definition undefined_type : error :=
  Error "Expected undefined to be a GraphQL type.".

Definition undefined_nullable_type : error :=
  Error "Expected undefined to be a GraphQL nullable type.".

Definition wrapper_error (e : error) : Prop :=
  e = undefined_type \/ e = undefined_nullable_type.

(** Modelled from the spec: the classes [GraphQLList] and [GraphQLNonNull]
    of [../type/definition] are not among the sources.  [new GraphQLList]
    asserts that what it is built around is a type, [new GraphQLNonNull]
    that it is a nullable type; built around [undefined] they throw.  A
    non-null type is built around a nullable type only, so that no type
    the library has built is a non-null type around a non-null type; for
    such a value, which the model has, [new_GraphQLNonNull] returns. *)
Definition assertType (type : GraphQLType) : result GraphQLType :=
  match type with
  | Named None => Throw undefined_type
  | _ => Ok type
  end.

Definition assertNullableType (type : GraphQLType) : result GraphQLType :=
  match type with
  | Named None => Throw undefined_nullable_type
  | _ => Ok type
  end.

Definition new_GraphQLList (ofType : GraphQLType) : result GraphQLType :=
  type <- assertType ofType ;; Ok (GraphQLList type).

Definition new_GraphQLNonNull (ofType : GraphQLType) : result GraphQLType :=
  type <- assertNullableType ofType ;; Ok (GraphQLNonNull type).

Section Sorter.

Variable localeCompare : LocaleCompare.

(** [isIntrospectionType] of [../type/introspection]. *)
Variable isIntrospectionType : GraphQLNamedType -> bool.

(** [key1.localeCompare(key2, locales, options)]. *)
Definition String_localeCompare (key1 key2 : string)
  (locales : option (list string)) (options : option CollatorOptions)
  : result Z :=
  match localeCompare locales options with
  | Some compare => Ok (compare key1 key2)
  | None => Throw RangeError
  end.

Definition sortBy {T : Type} (array : list T) (mapToKey : T -> result string)
  (compareOptions : option CompareOptions) : result (list T) :=
  Array_sort
    (fun obj1 obj2 =>
       key1 <- mapToKey obj1 ;;
       key2 <- mapToKey obj2 ;;
       String_localeCompare key1 key2 (optional_locales compareOptions)
         (optional_options compareOptions))
    (Array_slice array).

Definition sortByName {T : Type} `{HasName T} (h : Heap) (array : list T)
  (compareOptions : option CompareOptions) : result (list T) :=
  sortBy array (fun obj => name_of h obj) compareOptions.

(** The loop [for (const key of sortedKeys)] of [sortObjMap].  Every key
    comes from [Object.keys(map)], so [map[key]] is never [undefined]. *)
Fixpoint sortObjMap_loop {T R : Type} (map : ObjMap T)
  (sortValueFn : T -> result R) (sortedKeys : list string)
  (sortedMap : ObjMap R) : result (ObjMap R) :=
  match sortedKeys with
  | [] => Ok sortedMap
  | key :: rest =>
      match obj_get map key with
      | Some value =>
          v <- sortValueFn value ;;
          sortObjMap_loop map sortValueFn rest (obj_set sortedMap key v)
      | None => Throw TypeError
      end
  end.

Definition sortObjMap {T R : Type} (map : ObjMap T)
  (sortValueFn : T -> result R) (compareOptions : option CompareOptions)
  : result (ObjMap R) :=
  let sortedMap := Object_create_null in
  sortedKeys <- sortBy (Object_keys map) (fun x => Ok x) compareOptions ;;
  sortObjMap_loop map sortValueFn sortedKeys sortedMap.

(** [sortValueFn ? sortValueFn(value) : value] when [sortValueFn] is
    [undefined]. *)
Definition no_sortValueFn {T : Type} (value : T) : result T := Ok value.

Section Closure.

(** The scope of [lexicographicSortSchema] its inner functions close over:
    the heap the input lives in, [compareOptions], and [typeMap]. *)
Variable h : Heap.
Variable compareOptions : option CompareOptions.
Variable typeMap : ObjMap addr.

Definition replaceNamedType (type : ref) : result ref :=
  name <- name_of h type ;;
  Ok (obj_get typeMap name).

Fixpoint replaceType (type : GraphQLType) : result GraphQLType :=
  match type with
  | GraphQLList ofType =>
      t <- replaceType ofType ;; new_GraphQLList t
  | GraphQLNonNull ofType =>
      t <- replaceType ofType ;; new_GraphQLNonNull t
  | Named type => t <- replaceNamedType type ;; Ok (Named t)
  end.

Definition replaceMaybeType (maybeType : ref) : result ref :=
  match maybeType with
  | None => Ok None
  | Some _ => replaceNamedType maybeType
  end.

Definition sortArgs (args : ObjMap GraphQLArgumentConfig)
  : result (ObjMap GraphQLArgumentConfig) :=
  sortObjMap args
    (fun arg =>
       type <- replaceType (arg_type arg) ;;
       Ok {| arg_type := type; arg_rest := arg_rest arg |})
    compareOptions.

Definition sortDirective (directive : GraphQLDirective)
  : result GraphQLDirective :=
  let config := directive in
  locations <- sortBy (locations config) (fun x => Ok x) compareOptions ;;
  args <- sortArgs (directive_args config) ;;
  Ok {| directive_name := directive_name config;
        locations := locations;
        directive_args := args;
        directive_rest := directive_rest config |}.

Definition sortFields (fieldsMap : ObjMap GraphQLFieldConfig)
  : result (ObjMap GraphQLFieldConfig) :=
  sortObjMap fieldsMap
    (fun field =>
       type <- replaceType (field_type field) ;;
       args <- sortArgs (field_args field) ;;
       Ok {| field_type := type; field_args := args;
             field_rest := field_rest field |})
    compareOptions.

Definition sortInputFields (fieldsMap : ObjMap GraphQLInputFieldConfig)
  : result (ObjMap GraphQLInputFieldConfig) :=
  sortObjMap fieldsMap
    (fun field =>
       type <- replaceType (input_field_type field) ;;
       Ok {| input_field_type := type;
             input_field_rest := input_field_rest field |})
    compareOptions.

Definition sortTypes (arr : list ref) : result (list ref) :=
  sorted <- sortByName h arr compareOptions ;;
  Array_map replaceNamedType sorted.

(** Modelled from the spec: the classes of [../type/definition] are not
    among the sources.  A constructor stores its config and gives the new
    instance the next free address. *)
Definition new_type (config : TypeConfig) : Build addr :=
  fun pending =>
    Ok (List.length h + List.length pending, pending ++ [config]).

Definition sortNamedType (type : addr) : Build addr :=
  fun pending =>
    t <- instance_at h type ;;
    if isScalarType t || isIntrospectionType t then Ok (type, pending)
    else
      match t with
      | GraphQLObjectType name interfaces fields rest =>
          new_type
            (ObjectTypeConfig name (thunk interfaces) (thunk fields) rest)
            pending
      | GraphQLInterfaceType name interfaces fields rest =>
          new_type
            (InterfaceTypeConfig name (thunk interfaces) (thunk fields) rest)
            pending
      | GraphQLUnionType name types rest =>
          new_type (UnionTypeConfig name (thunk types) rest) pending
      | GraphQLEnumType name values rest =>
          values' <- sortObjMap values no_sortValueFn compareOptions ;;
          new_type (EnumTypeConfig name values' rest) pending
      | GraphQLInputObjectType name fields rest =>
          new_type (InputObjectTypeConfig name (thunk fields) rest) pending
      | GraphQLScalarType _ _ | OtherType _ _ =>
          invariant_false ("Unexpected type: " ++ inspect t)%string
      end.

(** Modelled from the spec: the classes of [../type/definition] are not
    among the sources.  An instance calls the thunks of its config when its
    members are first asked for; each then runs the function named in
    [sortNamedType], in the scope of this call. *)
Definition resolve_thunks (config : TypeConfig) : result GraphQLNamedType :=
  match config with
  | ObjectTypeConfig name interfaces fields rest =>
      interfaces' <- sortTypes (captured interfaces) ;;
      fields' <- sortFields (captured fields) ;;
      Ok (GraphQLObjectType name interfaces' fields' rest)
  | InterfaceTypeConfig name interfaces fields rest =>
      interfaces' <- sortTypes (captured interfaces) ;;
      fields' <- sortFields (captured fields) ;;
      Ok (GraphQLInterfaceType name interfaces' fields' rest)
  | UnionTypeConfig name types rest =>
      types' <- sortTypes (captured types) ;;
      Ok (GraphQLUnionType name types' rest)
  | EnumTypeConfig name values rest => Ok (GraphQLEnumType name values rest)
  | InputObjectTypeConfig name fields rest =>
      fields' <- sortInputFields (captured fields) ;;
      Ok (GraphQLInputObjectType name fields' rest)
  end.

(** Modelled from the spec: [../type/schema] is not among the sources.  The
    constructor walks the types it is given, which asks every instance for
    its members; from then on the instances are part of the heap. *)
Definition new_GraphQLSchema (config : GraphQLSchema)
  (pending : list TypeConfig) : result (GraphQLSchema * Heap) :=
  instances <- Array_map resolve_thunks pending ;;
  Ok (config, h ++ instances).

End Closure.

Definition lexicographicSortSchema (schema : GraphQLSchema)
  (compareOptions : option CompareOptions) (h : Heap)
  : result (GraphQLSchema * Heap) :=
  let schemaConfig := schema in
  sortedTypes <- sortByName h (schema_types schemaConfig) compareOptions ;;
  ' (typeMap, pending) <-
    keyValMap sortedTypes (fun type => name_of h type)
      (sortNamedType h compareOptions) [] ;;
  sortedDirectives <-
    sortByName h (schema_directives schemaConfig) compareOptions ;;
  directives <-
    Array_map (sortDirective h compareOptions typeMap) sortedDirectives ;;
  query' <- replaceMaybeType h typeMap (query schemaConfig) ;;
  mutation' <- replaceMaybeType h typeMap (mutation schemaConfig) ;;
  subscription' <- replaceMaybeType h typeMap (subscription schemaConfig) ;;
  new_GraphQLSchema h compareOptions typeMap
    {| schema_types := objectValues typeMap;
       schema_directives := directives;
       query := query';
       mutation := mutation';
       subscription := subscription';
       schema_rest := schema_rest schemaConfig |}
    pending.

(** ** Arrays as cells

    [sortBy] once more, on a store of array cells, where [slice] allocates
    the copy and [sort] writes to the cell it is called on.  A store is
    kept whether the call returns or throws; what a [sort] that throws
    leaves in its array is up to the platform, and the array is kept as it
    was. *)

Definition Store (T : Type) : Type := list (list T).

Fixpoint write_cell {T : Type} (store : Store T) (array : nat)
  (elements : list T) : Store T :=
  match store, array with
  | [], _ => []
  | _ :: rest, O => elements :: rest
  | cell :: rest, S n => cell :: write_cell rest n elements
  end.

Definition slice_cell {T : Type} (array : nat) (store : Store T)
  : result nat * Store T :=
  match nth_error store array with
  | Some elements => (Ok (List.length store), store ++ [Array_slice elements])
  | None => (Throw TypeError, store)
  end.

Definition sort_cell {T : Type} (comparefn : T -> T -> result Z)
  (array : nat) (store : Store T) : result nat * Store T :=
  match nth_error store array with
  | Some elements =>
      match Array_sort comparefn elements with
      | Ok sorted => (Ok array, write_cell store array sorted)
      | Throw e => (Throw e, store)
      end
  | None => (Throw TypeError, store)
  end.

Definition sortBy_cells {T : Type} (array : nat)
  (mapToKey : T -> result string) (compareOptions : option CompareOptions)
  (store : Store T) : result nat * Store T :=
  match slice_cell array store with
  | (Ok copy, store1) =>
      sort_cell
        (fun obj1 obj2 =>
           key1 <- mapToKey obj1 ;;
           key2 <- mapToKey obj2 ;;
           String_localeCompare key1 key2 (optional_locales compareOptions)
             (optional_options compareOptions))
        copy store1
  | (Throw e, store1) => (Throw e, store1)
  end.

(** ** Vocabulary of the specification *)

(** The platform accepts [compareOptions]: it builds a collator from the
    locales and the options, so that the comparator returns, whatever the
    two strings. *)
Definition accepts (compareOptions : option CompareOptions) : Prop :=
  exists compare,
    localeCompare (optional_locales compareOptions)
      (optional_options compareOptions)
    = Some compare.

(** The comparison [sortBy] makes, on keys: the number the comparator
    returns and, where it throws, a number that puts [a] after [b], so
    that [a] is not after [b] only if the comparator says so. *)
Definition compare_names (compareOptions : option CompareOptions)
  (a b : string) : Z :=
  match localeCompare (optional_locales compareOptions)
          (optional_options compareOptions) with
  | Some compare => compare
  | None => fun _ _ => 1%Z
  end a b.

(** The order of the comparator: [a] does not come after [b]. *)
Definition name_le (compareOptions : option CompareOptions) (a b : string)
  : Prop :=
  (compare_names compareOptions a b <= 0)%Z.

(** A comparator that never puts both [a] after [b] and [b] after [a]. *)
Definition total_comparator (compareOptions : option CompareOptions) : Prop :=
  forall a b, name_le compareOptions a b \/ name_le compareOptions b a.

Definition transitive_comparator (compareOptions : option CompareOptions)
  : Prop :=
  forall a b c,
    name_le compareOptions a b -> name_le compareOptions b c ->
    name_le compareOptions a c.

(** Names that compare equal: neither comes after the other. *)
Definition name_tie (compareOptions : option CompareOptions) (a b : string)
  : bool :=
  ((compare_names compareOptions a b <=? 0)%Z
   && (compare_names compareOptions b a <=? 0)%Z).

(** A sequence of names that is non-decreasing under the comparator. *)
Definition non_decreasing (compareOptions : option CompareOptions)
  (names : list string) : Prop :=
  Sorted (name_le compareOptions) names.

End Sorter.

(** The stable sort of a list under a comparison that does not throw. *)
Fixpoint stable_insert {T : Type} (compare : T -> T -> Z) (x : T)
  (sorted : list T) : list T :=
  match sorted with
  | [] => [x]
  | y :: rest =>
      if (compare x y <=? 0)%Z then x :: y :: rest
      else y :: stable_insert compare x rest
  end.

Fixpoint stable_sort {T : Type} (compare : T -> T -> Z) (array : list T)
  : list T :=
  match array with
  | [] => []
  | x :: rest => stable_insert compare x (stable_sort compare rest)
  end.

(** ** Well-formed schemas

    What the sorter expects of its input: every type of the schema is an
    instance in the heap, its name is no one else's, and every reference in
    a type the sorter rebuilds, in a directive or in a root, points at a
    type of the schema.  Names are not array indices (GraphQL names start
    with a letter or an underscore), and the keys of a map are distinct. *)

Definition not_index (key : string) : bool :=
  match array_index key with
  | None => true
  | Some _ => false
  end.

(** The first character of a GraphQL name: a letter or an underscore. *)
Definition is_name_start (c : ascii) : bool :=
  let n := nat_of_ascii c in
  (((65 <=? n) && (n <=? 90)) || ((97 <=? n) && (n <=? 122)) || (n =? 95))%nat.

Definition starts_as_name (name : string) : bool :=
  match name with
  | EmptyString => false
  | String c _ => is_name_start c
  end.

Fixpoint distinct (names : list string) : bool :=
  match names with
  | [] => true
  | name :: rest => negb (existsb (String.eqb name) rest) && distinct rest
  end.

Definition keys_ok {V : Type} (map : ObjMap V) : bool :=
  distinct (Object_keys map) && forallb not_index (Object_keys map).

(** A reference to one of the types [types]. *)
Definition ref_ok (types : list addr) (type : ref) : bool :=
  match type with
  | Some a => existsb (Nat.eqb a) types
  | None => false
  end.

(** A reference to an instance of the heap. *)
Definition ref_in_heap (h : Heap) (type : ref) : bool :=
  match type with
  | Some a => (a <? List.length h)%nat
  | None => false
  end.

(** The members of a type, given what is asked of a reference. *)
Fixpoint type_ok (ok : ref -> bool) (type : GraphQLType) : bool :=
  match type with
  | Named type => ok type
  | GraphQLList ofType | GraphQLNonNull ofType => type_ok ok ofType
  end.

Definition args_ok (ok : ref -> bool) (args : ObjMap GraphQLArgumentConfig)
  : bool :=
  keys_ok args && forallb (fun e => type_ok ok (arg_type (snd e))) args.

Definition fields_ok (ok : ref -> bool) (fields : ObjMap GraphQLFieldConfig)
  : bool :=
  keys_ok fields
  && forallb
       (fun e => type_ok ok (field_type (snd e))
                 && args_ok ok (field_args (snd e)))
       fields.

Definition input_fields_ok (ok : ref -> bool)
  (fields : ObjMap GraphQLInputFieldConfig) : bool :=
  keys_ok fields
  && forallb (fun e => type_ok ok (input_field_type (snd e))) fields.

Definition members_ok (ok : ref -> bool) (type : GraphQLNamedType) : bool :=
  match type with
  | GraphQLScalarType _ _ => true
  | GraphQLObjectType _ interfaces fields _
  | GraphQLInterfaceType _ interfaces fields _ =>
      forallb ok interfaces && fields_ok ok fields
  | GraphQLUnionType _ members _ => forallb ok members
  | GraphQLEnumType _ values _ => keys_ok values
  | GraphQLInputObjectType _ fields _ => input_fields_ok ok fields
  | OtherType _ _ => false
  end.

Definition directive_ok (ok : ref -> bool) (directive : GraphQLDirective)
  : bool :=
  args_ok ok (directive_args directive).

Definition root_ok (ok : ref -> bool) (root : ref) : bool :=
  match root with
  | Some _ => ok root
  | None => true
  end.

(** The instance at an address and its name, for addresses in the heap. *)
Definition type_at (h : Heap) (type : addr) : GraphQLNamedType :=
  nth type h (OtherType "" "").

Definition name_at (h : Heap) (type : addr) : string :=
  type_name (type_at h type).

Definition ref_name (h : Heap) (type : ref) : string :=
  match type with
  | Some a => name_at h a
  | None => ""
  end.

Definition passes_through (isIntrospectionType : GraphQLNamedType -> bool)
  (type : GraphQLNamedType) : bool :=
  isScalarType type || isIntrospectionType type.

Definition schema_ok (ok : ref -> bool)
  (isIntrospectionType : GraphQLNamedType -> bool) (h : Heap)
  (schema : GraphQLSchema) : bool :=
  let types := schema_types schema in
  forallb
    (fun a =>
       (a <? List.length h)%nat
       && not_index (name_at h a)
       && (isIntrospectionType (type_at h a) || members_ok ok (type_at h a)))
    types
  && distinct (List.map (name_at h) types)
  && forallb (directive_ok ok) (schema_directives schema)
  && root_ok ok (query schema)
  && root_ok ok (mutation schema)
  && root_ok ok (subscription schema).

Definition well_formed (isIntrospectionType : GraphQLNamedType -> bool)
  (h : Heap) (schema : GraphQLSchema) : bool :=
  schema_ok (ref_ok (schema_types schema)) isIntrospectionType h schema.

(** What the sorter needs of the references of a schema to run: that they
    are to instances of the heap. *)
Definition references_in_heap
  (isIntrospectionType : GraphQLNamedType -> bool) (h : Heap)
  (schema : GraphQLSchema) : bool :=
  schema_ok (ref_in_heap h) isIntrospectionType h schema.

(** ** The sorted copy, written as the specification describes it

    Section 4 of the specification: sort the types by name, give every
    type its replacement, and resolve every reference by looking its name
    up in the index. *)

Section Specification.

Variable localeCompare : LocaleCompare.
Variable isIntrospectionType : GraphQLNamedType -> bool.
Variable h : Heap.
Variable compareOptions : option CompareOptions.

Definition by_key {V : Type} (e1 e2 : string * V) : Z :=
  compare_names localeCompare compareOptions (fst e1) (fst e2).

Definition by_name (type1 type2 : addr) : Z :=
  compare_names localeCompare compareOptions (name_at h type1)
    (name_at h type2).

Definition by_ref_name (type1 type2 : ref) : Z :=
  compare_names localeCompare compareOptions (ref_name h type1)
    (ref_name h type2).

Definition by_directive_name (d1 d2 : GraphQLDirective) : Z :=
  compare_names localeCompare compareOptions (directive_name d1)
    (directive_name d2).

Definition map_values {V W : Type} (f : V -> W) (map : ObjMap V) : ObjMap W :=
  List.map (fun e => (fst e, f (snd e))) map.

Definition sorted_map {V W : Type} (f : V -> W) (map : ObjMap V) : ObjMap W :=
  stable_sort by_key (map_values f map).

Variable typeMap : ObjMap addr.

Definition replaced_ref (type : ref) : ref :=
  match type with
  | Some a => obj_get typeMap (name_at h a)
  | None => None
  end.

Fixpoint replaced_type (type : GraphQLType) : GraphQLType :=
  match type with
  | Named type => Named (replaced_ref type)
  | GraphQLList ofType => GraphQLList (replaced_type ofType)
  | GraphQLNonNull ofType => GraphQLNonNull (replaced_type ofType)
  end.

Definition sorted_arg (arg : GraphQLArgumentConfig) : GraphQLArgumentConfig :=
  {| arg_type := replaced_type (arg_type arg); arg_rest := arg_rest arg |}.

Definition sorted_args (args : ObjMap GraphQLArgumentConfig)
  : ObjMap GraphQLArgumentConfig :=
  sorted_map sorted_arg args.

Definition sorted_field (field : GraphQLFieldConfig) : GraphQLFieldConfig :=
  {| field_type := replaced_type (field_type field);
     field_args := sorted_args (field_args field);
     field_rest := field_rest field |}.

Definition sorted_fields (fields : ObjMap GraphQLFieldConfig)
  : ObjMap GraphQLFieldConfig :=
  sorted_map sorted_field fields.

Definition sorted_input_field (field : GraphQLInputFieldConfig)
  : GraphQLInputFieldConfig :=
  {| input_field_type := replaced_type (input_field_type field);
     input_field_rest := input_field_rest field |}.

Definition sorted_input_fields (fields : ObjMap GraphQLInputFieldConfig)
  : ObjMap GraphQLInputFieldConfig :=
  sorted_map sorted_input_field fields.

Definition sorted_types (arr : list ref) : list ref :=
  List.map replaced_ref (stable_sort by_ref_name arr).

Definition sorted_directive (directive : GraphQLDirective)
  : GraphQLDirective :=
  {| directive_name := directive_name directive;
     locations :=
       stable_sort (compare_names localeCompare compareOptions)
         (locations directive);
     directive_args := sorted_args (directive_args directive);
     directive_rest := directive_rest directive |}.

Definition sorted_copy (type : GraphQLNamedType) : GraphQLNamedType :=
  match type with
  | GraphQLObjectType name interfaces fields rest =>
      GraphQLObjectType name (sorted_types interfaces) (sorted_fields fields)
        rest
  | GraphQLInterfaceType name interfaces fields rest =>
      GraphQLInterfaceType name (sorted_types interfaces)
        (sorted_fields fields) rest
  | GraphQLUnionType name members rest =>
      GraphQLUnionType name (sorted_types members) rest
  | GraphQLEnumType name values rest =>
      GraphQLEnumType name (sorted_map (fun value => value) values) rest
  | GraphQLInputObjectType name fields rest =>
      GraphQLInputObjectType name (sorted_input_fields fields) rest
  | GraphQLScalarType _ _ | OtherType _ _ => type
  end.

(** The addresses of the replacements of a list of types: a type that
    passes through keeps its address, every other type gets the next free
    one. *)
Fixpoint replacements (next : nat) (types : list addr) : list addr :=
  match types with
  | [] => []
  | a :: rest =>
      if passes_through isIntrospectionType (type_at h a)
      then a :: replacements next rest
      else next :: replacements (S next) rest
  end.

Definition rebuilt (types : list addr) : list addr :=
  filter
    (fun a => negb (passes_through isIntrospectionType (type_at h a)))
    types.

End Specification.

Definition sorted_index
  (localeCompare : LocaleCompare)
  (isIntrospectionType : GraphQLNamedType -> bool) (h : Heap)
  (compareOptions : option CompareOptions) (schema : GraphQLSchema)
  : ObjMap addr :=
  let sortedTypes :=
    stable_sort (by_name localeCompare h compareOptions)
      (schema_types schema) in
  combine (List.map (name_at h) sortedTypes)
    (replacements isIntrospectionType h (List.length h) sortedTypes).

Definition sorted_schema
  (localeCompare : LocaleCompare)
  (isIntrospectionType : GraphQLNamedType -> bool) (h : Heap)
  (compareOptions : option CompareOptions) (schema : GraphQLSchema)
  : GraphQLSchema * Heap :=
  let sortedTypes :=
    stable_sort (by_name localeCompare h compareOptions)
      (schema_types schema) in
  let typeMap :=
    sorted_index localeCompare isIntrospectionType h compareOptions schema in
  ({| schema_types := objectValues typeMap;
      schema_directives :=
        List.map (sorted_directive localeCompare h compareOptions typeMap)
          (stable_sort (by_directive_name localeCompare compareOptions)
             (schema_directives schema));
      query := replaced_ref h typeMap (query schema);
      mutation := replaced_ref h typeMap (mutation schema);
      subscription := replaced_ref h typeMap (subscription schema);
      schema_rest := schema_rest schema |},
   h ++ List.map
          (fun a =>
             sorted_copy localeCompare h compareOptions typeMap (type_at h a))
          (rebuilt isIntrospectionType h sortedTypes)).

(** The config [sortNamedType] hands to the constructor for a type it
    rebuilds. *)
Definition constructor_config
  (localeCompare : LocaleCompare)
  (compareOptions : option CompareOptions) (type : GraphQLNamedType)
  : option TypeConfig :=
  match type with
  | GraphQLObjectType name interfaces fields rest =>
      Some (ObjectTypeConfig name (thunk interfaces) (thunk fields) rest)
  | GraphQLInterfaceType name interfaces fields rest =>
      Some (InterfaceTypeConfig name (thunk interfaces) (thunk fields) rest)
  | GraphQLUnionType name members rest =>
      Some (UnionTypeConfig name (thunk members) rest)
  | GraphQLEnumType name values rest =>
      Some (EnumTypeConfig name
              (sorted_map localeCompare compareOptions (fun value => value)
                 values)
              rest)
  | GraphQLInputObjectType name fields rest =>
      Some (InputObjectTypeConfig name (thunk fields) rest)
  | GraphQLScalarType _ _ | OtherType _ _ => None
  end.

(** The instance that stands for a type of the input in the output: the
    type itself when it passes through, its sorted copy otherwise. *)
Definition replacement_of
  (localeCompare : LocaleCompare)
  (isIntrospectionType : GraphQLNamedType -> bool) (h : Heap)
  (compareOptions : option CompareOptions) (typeMap : ObjMap addr)
  (type : addr) : GraphQLNamedType :=
  if passes_through isIntrospectionType (type_at h type)
  then type_at h type
  else sorted_copy localeCompare h compareOptions typeMap (type_at h type).

(** ** References

    [getNamedType]: the named type under the wrappers of a type reference,
    and the references a type makes to other types. *)

Fixpoint named_type_of (type : GraphQLType) : ref :=
  match type with
  | Named type => type
  | GraphQLList ofType | GraphQLNonNull ofType => named_type_of ofType
  end.

Definition args_references (args : ObjMap GraphQLArgumentConfig) : list ref :=
  List.map (fun e => named_type_of (arg_type (snd e))) args.

Definition references (type : GraphQLNamedType) : list ref :=
  match type with
  | GraphQLObjectType _ interfaces fields _
  | GraphQLInterfaceType _ interfaces fields _ =>
      interfaces
      ++ flat_map
           (fun e =>
              named_type_of (field_type (snd e))
              :: args_references (field_args (snd e)))
           fields
  | GraphQLUnionType _ members _ => members
  | GraphQLInputObjectType _ fields _ =>
      List.map (fun e => named_type_of (input_field_type (snd e))) fields
  | GraphQLScalarType _ _ | GraphQLEnumType _ _ _ | OtherType _ _ => []
  end.

(** A reference to a type whose name no type of the schema has. *)
Definition names_absent_type (h : Heap) (types : list addr) (type : ref)
  : bool :=
  match type with
  | Some a =>
      negb (existsb (String.eqb (name_at h a)) (List.map (name_at h) types))
  | None => false
  end.

Definition has_reference_to_absent_type (h : Heap) (schema : GraphQLSchema)
  : bool :=
  existsb
    (fun a =>
       existsb (names_absent_type h (schema_types schema))
         (references (type_at h a)))
    (schema_types schema).

(** The types of the fields and arguments of a type, of a directive and
    of a schema, all of them with a property: those of an introspection
    type apart, which the sorter does not read. *)
Definition args_all (p : GraphQLType -> bool)
  (args : ObjMap GraphQLArgumentConfig) : bool :=
  forallb (fun e => p (arg_type (snd e))) args.

Definition fields_all (p : GraphQLType -> bool)
  (fields : ObjMap GraphQLFieldConfig) : bool :=
  forallb
    (fun e => p (field_type (snd e)) && args_all p (field_args (snd e)))
    fields.

Definition input_fields_all (p : GraphQLType -> bool)
  (fields : ObjMap GraphQLInputFieldConfig) : bool :=
  forallb (fun e => p (input_field_type (snd e))) fields.

Definition members_all (p : GraphQLType -> bool) (type : GraphQLNamedType)
  : bool :=
  match type with
  | GraphQLObjectType _ _ fields _ | GraphQLInterfaceType _ _ fields _ =>
      fields_all p fields
  | GraphQLInputObjectType _ fields _ => input_fields_all p fields
  | GraphQLScalarType _ _ | GraphQLUnionType _ _ _ | GraphQLEnumType _ _ _
  | OtherType _ _ => true
  end.

Definition schema_all (p : GraphQLType -> bool)
  (isIntrospectionType : GraphQLNamedType -> bool) (h : Heap)
  (schema : GraphQLSchema) : bool :=
  forallb
    (fun a => isIntrospectionType (type_at h a) || members_all p (type_at h a))
    (schema_types schema)
  && forallb (fun directive => args_all p (directive_args directive))
       (schema_directives schema).

(** A type a wrapper can be built around again: under a wrapper, the
    index holds a type under the name of the named type. *)
Definition rewrappable (h : Heap) (typeMap : ObjMap addr)
  (type : GraphQLType) : bool :=
  match type with
  | Named _ => true
  | GraphQLList _ | GraphQLNonNull _ =>
      match replaced_ref h typeMap (named_type_of type) with
      | Some _ => true
      | None => false
      end
  end.

(** A reference to a type whose name a type of the schema has. *)
Definition names_type (h : Heap) (types : list addr) (type : ref) : bool :=
  match type with
  | Some a => existsb (String.eqb (name_at h a)) (List.map (name_at h) types)
  | None => false
  end.

(** A type that, if it is a list or a non-null type, names a type of the
    schema. *)
Definition wrapped_named (h : Heap) (types : list addr) (type : GraphQLType)
  : bool :=
  match type with
  | Named _ => true
  | GraphQLList _ | GraphQLNonNull _ => names_type h types (named_type_of type)
  end.

(** The comparator made to return where it throws. *)
Definition returning (localeCompare : LocaleCompare) : LocaleCompare :=
  fun locales options =>
    Some
      match localeCompare locales options with
      | Some compare => compare
      | None => fun _ _ => 1%Z
      end.

(** A comparator that returns what another returns, where that one
    returns. *)
Definition extends (localeCompare localeCompare' : LocaleCompare) : Prop :=
  forall locales options compare,
    localeCompare locales options = Some compare ->
    localeCompare' locales options = Some compare.

(** A call that returns a value under a condition and throws the error
    of a wrapper otherwise. *)
Definition returns_if {A : Type} (condition : bool) (x : A) (r : result A)
  : Prop :=
  if condition then r = Ok x
  else exists e, wrapper_error e /\ r = Throw e.

(** A call that returns what another returns, when that one returns. *)
Definition returns_as {A : Type} (r r' : result A) : Prop :=
  forall x, r = Ok x -> r' = Ok x.

(** ** Examples

    A comparator to run the sorter with: the order of the code units of
    the names, or of the names in lower case when [options.sensitivity] is
    ["base"]; it rejects a locale tag that is empty or has a space. *)

Definition compare_code_units (a b : string) : Z :=
  match String.compare a b with
  | Lt => (-1)%Z
  | Eq => 0%Z
  | Gt => 1%Z
  end.

Definition lower_case_char (c : ascii) : ascii :=
  let n := nat_of_ascii c in
  if ((65 <=? n) && (n <=? 90))%nat then ascii_of_nat (n + 32) else c.

Fixpoint lower_case (s : string) : string :=
  match s with
  | EmptyString => EmptyString
  | String c rest => String (lower_case_char c) (lower_case rest)
  end.

Definition base_sensitivity_asked (options : option CollatorOptions) : bool :=
  match options with
  | Some o =>
      match sensitivity o with
      | Some s => String.eqb s "base"
      | None => false
      end
  | None => false
  end.

(** The tags the example comparator rejects: the empty one and those with
    a space. *)
Fixpoint has_space (s : string) : bool :=
  match s with
  | EmptyString => false
  | String c rest => Ascii.eqb c " "%char || has_space rest
  end.

Definition rejected_locales (locales : option (list string)) : bool :=
  match locales with
  | Some tags => existsb (fun tag => String.eqb tag "" || has_space tag) tags
  | None => false
  end.

(** Options with a locale the example comparator rejects. *)
Definition not_a_locale : option CompareOptions :=
  Some {| locales := Some ["not a locale"]; options := None |}.

Definition example_localeCompare : LocaleCompare :=
  fun locales options =>
    if rejected_locales locales then None
    else if base_sensitivity_asked options
         then Some (fun a b =>
                      compare_code_units (lower_case a) (lower_case b))
         else Some compare_code_units.

Definition base_sensitivity : option CompareOptions :=
  Some {| locales := None;
          options :=
            Some {| localeMatcher := None; usage := None;
                    sensitivity := Some "base"; ignorePunctuation := None;
                    numeric := None; caseFirst := None |} |}.

(** Introspection types have the names of the types of
    [../type/introspection]. *)
Definition example_isIntrospectionType (type : GraphQLNamedType) : bool :=
  existsb (String.eqb (type_name type))
    ["__Schema"; "__Directive"; "__DirectiveLocation"; "__Type"; "__Field";
     "__InputValue"; "__EnumValue"; "__TypeKind"].

Definition field_of (type : GraphQLType) : GraphQLFieldConfig :=
  {| field_type := type; field_args := []; field_rest := "" |}.

Definition arg_of (type : GraphQLType) : GraphQLArgumentConfig :=
  {| arg_type := type; arg_rest := "" |}.

(** Two object types that refer to each other, a scalar, an enum, a
    union, an input object and an introspection type. *)
Definition cyclic_heap : Heap :=
  [ GraphQLObjectType "B" [Some 7]
      [("z", field_of (Named (Some 1)));
       ("a", {| field_type := GraphQLList (Named (Some 2));
                field_args :=
                  [("last", arg_of (Named (Some 2)));
                   ("first", arg_of (GraphQLNonNull (Named (Some 6))))];
                field_rest := "items" |})]
      "";
    GraphQLObjectType "A" [] [("b", field_of (GraphQLNonNull (Named (Some 0))))]
      "root";
    GraphQLScalarType "Int" "";
    GraphQLObjectType "__Schema" []
      [("types", field_of (Named (Some 2)));
       ("queryType", field_of (Named (Some 2)))]
      "";
    GraphQLEnumType "Color" [("RED", "r"); ("GREEN", "g"); ("BLUE", "b")] "";
    GraphQLUnionType "AorB" [Some 0; Some 1] "";
    GraphQLInputObjectType "Filter"
      [("min", {| input_field_type := Named (Some 2);
                  input_field_rest := "" |});
       ("max", {| input_field_type := Named (Some 2);
                  input_field_rest := "" |})]
      "";
    GraphQLInterfaceType "Node" [] [("id", field_of (Named (Some 2)))] "" ].

Definition cyclic_schema : GraphQLSchema :=
  {| schema_types := [0; 1; 2; 3; 4; 5; 6; 7];
     schema_directives :=
       [ {| directive_name := "skip";
            locations := ["INLINE_FRAGMENT"; "FIELD"];
            directive_args :=
              [("unless", arg_of (Named (Some 2)));
               ("if", arg_of (GraphQLNonNull (Named (Some 2))))];
            directive_rest := "" |};
         {| directive_name := "deprecated";
            locations := ["FIELD_DEFINITION"; "ENUM_VALUE"];
            directive_args := [];
            directive_rest := "" |} ];
     query := Some 1;
     mutation := Some 0;
     subscription := None;
     schema_rest := "" |}.

(** A schema whose only type has a field of a type that is not among the
    types of the schema. *)
Definition dangling_heap : Heap :=
  [ GraphQLObjectType "Query" [] [("ghost", field_of (Named (Some 1)))] "";
    GraphQLScalarType "Ghost" "" ].

Definition dangling_schema : GraphQLSchema :=
  {| schema_types := [0];
     schema_directives := [];
     query := Some 0;
     mutation := None;
     subscription := None;
     schema_rest := "" |}.

(** The same schema with the field a list of the type that is not among
    the types of the schema. *)
Definition dangling_list_heap : Heap :=
  [ GraphQLObjectType "Query" []
      [("ghosts", field_of (GraphQLList (Named (Some 1))))] "";
    GraphQLScalarType "Ghost" "" ].

(** [a'] stands for the type [a] of the input in an output with the types
    [types'] in the heap [h']: it is what the index holds under the name
    of [a], it is the one type of the output with that name, and it is [a]
    itself if [a] passes through and a new instance, the sorted copy of
    [a], if not. *)
Definition stands_for
  (localeCompare : LocaleCompare)
  (isIntrospectionType : GraphQLNamedType -> bool) (h : Heap)
  (compareOptions : option CompareOptions) (typeMap : ObjMap addr)
  (types' : list addr) (h' : Heap) (a a' : addr) : Prop :=
  obj_get typeMap (name_at h a) = Some a'
  /\ In a' types'
  /\ nth_error h' a'
     = Some (replacement_of localeCompare isIntrospectionType h
               compareOptions typeMap a)
  /\ name_at h' a' = name_at h a
  /\ (if passes_through isIntrospectionType (type_at h a)
      then a' = a else (List.length h <= a')%nat)
  /\ (forall c, In c types' -> name_at h' c = name_at h a -> c = a').

(** A root of the output against the root of the input: absent if that
    one is absent, and otherwise the type that stands for it. *)
Definition root_replaced (stands : addr -> addr -> Prop) (root root' : ref)
  : Prop :=
  match root with
  | None => root' = None
  | Some a => exists a', root' = Some a' /\ stands a a'
  end.

(** ** Sorted collections *)

Definition directive_sorted
  (localeCompare : LocaleCompare)
  (compareOptions : option CompareOptions) (directive : GraphQLDirective)
  : Prop :=
  non_decreasing localeCompare compareOptions (locations directive)
  /\ non_decreasing localeCompare compareOptions
       (Object_keys (directive_args directive)).

(** The collections of a type, with the names they are sorted by: the
    names of its interfaces or members, of its fields, of the arguments of
    each field, of its values. *)
Definition collections_sorted
  (localeCompare : LocaleCompare)
  (compareOptions : option CompareOptions) (h : Heap)
  (type : GraphQLNamedType) : Prop :=
  match type with
  | GraphQLObjectType _ interfaces fields _
  | GraphQLInterfaceType _ interfaces fields _ =>
      non_decreasing localeCompare compareOptions
        (List.map (ref_name h) interfaces)
      /\ non_decreasing localeCompare compareOptions (Object_keys fields)
      /\ forall name field,
           In (name, field) fields ->
           non_decreasing localeCompare compareOptions
             (Object_keys (field_args field))
  | GraphQLUnionType _ members _ =>
      non_decreasing localeCompare compareOptions
        (List.map (ref_name h) members)
  | GraphQLEnumType _ values _ =>
      non_decreasing localeCompare compareOptions (Object_keys values)
  | GraphQLInputObjectType _ fields _ =>
      non_decreasing localeCompare compareOptions (Object_keys fields)
  | GraphQLScalarType _ _ | OtherType _ _ => True
  end.

(** ** The same names *)

Definition same_keys {V W : Type} (map : ObjMap V) (map' : ObjMap W) : Prop :=
  Permutation (Object_keys map) (Object_keys map').

(** The same field names, and under each of them the same argument
    names. *)
Definition same_field_names (fields fields' : ObjMap GraphQLFieldConfig)
  : Prop :=
  same_keys fields fields'
  /\ forall name field,
       obj_get fields name = Some field ->
       exists field',
         obj_get fields' name = Some field'
         /\ same_keys (field_args field) (field_args field').

(** Two types of the same kind and name whose collections hold the same
    names, in whatever order. *)
Definition same_names (h h' : Heap) (type type' : GraphQLNamedType) : Prop :=
  match type, type' with
  | GraphQLScalarType name _, GraphQLScalarType name' _ => name' = name
  | GraphQLObjectType name interfaces fields _,
    GraphQLObjectType name' interfaces' fields' _
  | GraphQLInterfaceType name interfaces fields _,
    GraphQLInterfaceType name' interfaces' fields' _ =>
      name' = name
      /\ Permutation (List.map (ref_name h) interfaces)
           (List.map (ref_name h') interfaces')
      /\ same_field_names fields fields'
  | GraphQLUnionType name members _, GraphQLUnionType name' members' _ =>
      name' = name
      /\ Permutation (List.map (ref_name h) members)
           (List.map (ref_name h') members')
  | GraphQLEnumType name values _, GraphQLEnumType name' values' _ =>
      name' = name /\ same_keys values values'
  | GraphQLInputObjectType name fields _,
    GraphQLInputObjectType name' fields' _ =>
      name' = name /\ same_keys fields fields'
  | _, _ => False
  end.

Definition directive_same_names (directive directive' : GraphQLDirective)
  : Prop :=
  directive_name directive' = directive_name directive
  /\ Permutation (locations directive) (locations directive')
  /\ same_keys (directive_args directive) (directive_args directive').

(** ** The same order *)

(** The same field names in the same order, and under each of them the
    same argument names in the same order. *)
Definition same_field_order (fields fields' : ObjMap GraphQLFieldConfig)
  : Prop :=
  Forall2
    (fun e e' =>
       fst e' = fst e
       /\ Object_keys (field_args (snd e'))
          = Object_keys (field_args (snd e)))
    fields fields'.

(** Two types of the same kind and name whose collections hold the same
    names in the same order. *)
Definition same_order (h h' : Heap) (type type' : GraphQLNamedType) : Prop :=
  match type, type' with
  | GraphQLScalarType name _, GraphQLScalarType name' _ => name' = name
  | GraphQLObjectType name interfaces fields _,
    GraphQLObjectType name' interfaces' fields' _
  | GraphQLInterfaceType name interfaces fields _,
    GraphQLInterfaceType name' interfaces' fields' _ =>
      name' = name
      /\ List.map (ref_name h') interfaces' = List.map (ref_name h) interfaces
      /\ same_field_order fields fields'
  | GraphQLUnionType name members _, GraphQLUnionType name' members' _ =>
      name' = name
      /\ List.map (ref_name h') members' = List.map (ref_name h) members
  | GraphQLEnumType name values _, GraphQLEnumType name' values' _ =>
      name' = name /\ Object_keys values' = Object_keys values
  | GraphQLInputObjectType name fields _,
    GraphQLInputObjectType name' fields' _ =>
      name' = name /\ Object_keys fields' = Object_keys fields
  | _, _ => False
  end.

Definition directive_same_order (directive directive' : GraphQLDirective)
  : Prop :=
  directive_name directive' = directive_name directive
  /\ locations directive' = locations directive
  /\ Object_keys (directive_args directive')
     = Object_keys (directive_args directive).

(** A type of a schema against the type at the same place in the schema
    sorted again: the same name; the same instance if it passes through,
    and the same names in the same order if not. *)
Definition type_same_order (isIntrospectionType : GraphQLNamedType -> bool)
  (h h' : Heap) (a a' : addr) : Prop :=
  name_at h' a' = name_at h a
  /\ if passes_through isIntrospectionType (type_at h a)
     then a' = a /\ type_at h' a' = type_at h a
     else same_order h h' (type_at h a) (type_at h' a').

(** What the sorter returns on the example. *)
Definition returned {A : Type} (r : result A) (otherwise : A) : A :=
  match r with
  | Ok a => a
  | Throw _ => otherwise
  end.

Definition cyclic_sorted : GraphQLSchema * Heap :=
  Eval vm_compute in
    returned
      (lexicographicSortSchema example_localeCompare
         example_isIntrospectionType cyclic_schema None cyclic_heap)
      (cyclic_schema, cyclic_heap).

(** A value that is an instance of no class of named types. *)
Definition unknown_heap : Heap := [OtherType "Mystery" ""].

(** ** Vocabulary for the functions of the sorter, one by one *)

(** The keys of an object in the order of their enumeration: array
    indices first, in ascending order, then the other keys. *)
Definition enumerated_before (key key' : string) : bool :=
  match array_index key, array_index key' with
  | Some n, Some n' => (n <=? n')%N
  | Some _, None => true
  | None, Some _ => false
  | None, None => true
  end.

Fixpoint in_enumeration_order (keys : list string) : bool :=
  match keys with
  | [] => true
  | key :: rest =>
      match rest with
      | [] => true
      | key' :: _ => enumerated_before key key'
      end
      && in_enumeration_order rest
  end.

(** The wrappers of a type reference, from the outside in. *)
Inductive Wrapper : Type := ListOf | NonNullOf.

Fixpoint wrappers (type : GraphQLType) : list Wrapper :=
  match type with
  | Named _ => []
  | GraphQLList ofType => ListOf :: wrappers ofType
  | GraphQLNonNull ofType => NonNullOf :: wrappers ofType
  end.

(** A type reference whose named type is an instance of the heap. *)
Definition type_in_heap (h : Heap) (type : GraphQLType) : bool :=
  ref_in_heap h (named_type_of type).

(** What the sorter reads of a type when it rebuilds it: the interfaces
    and members, and the types of the fields and arguments a name gives
    access to. *)
Definition args_resolvable (h : Heap) (args : ObjMap GraphQLArgumentConfig)
  : Prop :=
  forall name arg,
    obj_get args name = Some arg -> type_in_heap h (arg_type arg) = true.

Definition fields_resolvable (h : Heap) (fields : ObjMap GraphQLFieldConfig)
  : Prop :=
  forall name field,
    obj_get fields name = Some field ->
    type_in_heap h (field_type field) = true
    /\ args_resolvable h (field_args field).

Definition input_fields_resolvable (h : Heap)
  (fields : ObjMap GraphQLInputFieldConfig) : Prop :=
  forall name field,
    obj_get fields name = Some field ->
    type_in_heap h (input_field_type field) = true.

Definition members_resolvable (h : Heap) (type : GraphQLNamedType) : Prop :=
  match type with
  | GraphQLObjectType _ interfaces fields _
  | GraphQLInterfaceType _ interfaces fields _ =>
      forallb (ref_in_heap h) interfaces = true /\ fields_resolvable h fields
  | GraphQLUnionType _ members _ => forallb (ref_in_heap h) members = true
  | GraphQLInputObjectType _ fields _ => input_fields_resolvable h fields
  | GraphQLScalarType _ _ | GraphQLEnumType _ _ _ | OtherType _ _ => True
  end.

(** An instance of one of the classes [sortNamedType] knows, or an
    introspection type. *)
Definition recognized (isIntrospectionType : GraphQLNamedType -> bool)
  (type : GraphQLNamedType) : bool :=
  isScalarType type || isIntrospectionType type || isObjectType type
  || isInterfaceType type || isUnionType type || isEnumType type
  || isInputObjectType type.

(** The config [sortNamedType] hands to the constructor of the class of a
    type, whatever the type holds; none for an enum whose values it
    cannot sort. *)
Definition handed_config
  (localeCompare : LocaleCompare)
  (compareOptions : option CompareOptions) (type : GraphQLNamedType)
  : option TypeConfig :=
  match type with
  | GraphQLObjectType name interfaces fields rest =>
      Some (ObjectTypeConfig name (thunk interfaces) (thunk fields) rest)
  | GraphQLInterfaceType name interfaces fields rest =>
      Some (InterfaceTypeConfig name (thunk interfaces) (thunk fields) rest)
  | GraphQLUnionType name members rest =>
      Some (UnionTypeConfig name (thunk members) rest)
  | GraphQLEnumType name values rest =>
      match sortObjMap localeCompare values no_sortValueFn compareOptions with
      | Ok values' => Some (EnumTypeConfig name values' rest)
      | Throw _ => None
      end
  | GraphQLInputObjectType name fields rest =>
      Some (InputObjectTypeConfig name (thunk fields) rest)
  | GraphQLScalarType _ _ | OtherType _ _ => None
  end.

(** What the sorter reads of a schema. *)
Definition schema_resolvable (isIntrospectionType : GraphQLNamedType -> bool)
  (h : Heap) (schema : GraphQLSchema) : Prop :=
  (forall a,
     In a (schema_types schema) ->
     (a < List.length h)%nat
     /\ recognized isIntrospectionType (type_at h a) = true
     /\ (passes_through isIntrospectionType (type_at h a) = false ->
         members_resolvable h (type_at h a)))
  /\ (forall directive,
        In directive (schema_directives schema) ->
        args_resolvable h (directive_args directive))
  /\ root_ok (ref_in_heap h) (query schema) = true
  /\ root_ok (ref_in_heap h) (mutation schema) = true
  /\ root_ok (ref_in_heap h) (subscription schema) = true.

(** What the sorter throws while it sorts the members of a type or the
    arguments of a directive: the [TypeError] of reading the name of
    [undefined], the error of a wrapper built around [undefined], or the
    [RangeError] of a comparator that does not accept the locales or the
    options. *)
Definition member_error (localeCompare : LocaleCompare)
  (compareOptions : option CompareOptions) (e : error) : Prop :=
  e = TypeError \/ wrapper_error e
  \/ (e = RangeError /\ ~ accepts localeCompare compareOptions).

(** What the sorter leaves of a member under its name: whatever the
    config holds besides types and arguments, and the wrappers of its
    type. *)
Definition args_kept (args args' : ObjMap GraphQLArgumentConfig) : Prop :=
  forall name,
    match obj_get args name with
    | Some arg =>
        exists arg',
          obj_get args' name = Some arg'
          /\ arg_rest arg' = arg_rest arg
          /\ wrappers (arg_type arg') = wrappers (arg_type arg)
    | None => obj_get args' name = None
    end.

Definition fields_kept (fields fields' : ObjMap GraphQLFieldConfig) : Prop :=
  forall name,
    match obj_get fields name with
    | Some field =>
        exists field',
          obj_get fields' name = Some field'
          /\ field_rest field' = field_rest field
          /\ wrappers (field_type field') = wrappers (field_type field)
          /\ args_kept (field_args field) (field_args field')
    | None => obj_get fields' name = None
    end.

Definition input_fields_kept (fields fields' : ObjMap GraphQLInputFieldConfig)
  : Prop :=
  forall name,
    match obj_get fields name with
    | Some field =>
        exists field',
          obj_get fields' name = Some field'
          /\ input_field_rest field' = input_field_rest field
          /\ wrappers (input_field_type field')
             = wrappers (input_field_type field)
    | None => obj_get fields' name = None
    end.

(** Two types of the same class and name of which the second holds what
    the first does, apart from the order of its collections and the
    instances it refers to. *)
Definition same_payload (type type' : GraphQLNamedType) : Prop :=
  match type, type' with
  | GraphQLObjectType name interfaces fields rest,
    GraphQLObjectType name' interfaces' fields' rest'
  | GraphQLInterfaceType name interfaces fields rest,
    GraphQLInterfaceType name' interfaces' fields' rest' =>
      name' = name /\ rest' = rest
      /\ List.length interfaces' = List.length interfaces
      /\ fields_kept fields fields'
  | GraphQLUnionType name members rest,
    GraphQLUnionType name' members' rest' =>
      name' = name /\ rest' = rest
      /\ List.length members' = List.length members
  | GraphQLEnumType name values rest, GraphQLEnumType name' values' rest' =>
      name' = name /\ rest' = rest
      /\ forall key, obj_get values' key = obj_get values key
  | GraphQLInputObjectType name fields rest,
    GraphQLInputObjectType name' fields' rest' =>
      name' = name /\ rest' = rest /\ input_fields_kept fields fields'
  | _, _ => False
  end.

(** The index of the sorter on the schema of the two object types, and
    members of its types to run the inner functions on. *)
Definition cyclic_index : ObjMap addr :=
  Eval vm_compute in
    sorted_index example_localeCompare example_isIntrospectionType
      cyclic_heap None cyclic_schema.

Definition fields_of_B : ObjMap GraphQLFieldConfig :=
  [("z", field_of (Named (Some 1)));
   ("a", {| field_type := GraphQLList (Named (Some 2));
            field_args :=
              [("last", arg_of (Named (Some 2)));
               ("first", arg_of (GraphQLNonNull (Named (Some 6))))];
            field_rest := "items" |})].

Definition sorted_fields_of_B : ObjMap GraphQLFieldConfig :=
  [("a", {| field_type := GraphQLList (Named (Some 2));
            field_args :=
              [("first", arg_of (GraphQLNonNull (Named (Some 12))));
               ("last", arg_of (Named (Some 2)))];
            field_rest := "items" |});
   ("z", field_of (Named (Some 8)))].

Definition args_of_a : ObjMap GraphQLArgumentConfig :=
  [("last", arg_of (Named (Some 2)));
   ("first", arg_of (GraphQLNonNull (Named (Some 6))))].

Definition sorted_args_of_a : ObjMap GraphQLArgumentConfig :=
  [("first", arg_of (GraphQLNonNull (Named (Some 12))));
   ("last", arg_of (Named (Some 2)))].

Definition fields_of_Filter : ObjMap GraphQLInputFieldConfig :=
  [("min", {| input_field_type := Named (Some 2); input_field_rest := "" |});
   ("max", {| input_field_type := Named (Some 2); input_field_rest := "" |})].

Definition sorted_fields_of_Filter : ObjMap GraphQLInputFieldConfig :=
  [("max", {| input_field_type := Named (Some 2); input_field_rest := "" |});
   ("min", {| input_field_type := Named (Some 2); input_field_rest := "" |})].

Definition skip_directive : GraphQLDirective :=
  {| directive_name := "skip";
     locations := ["INLINE_FRAGMENT"; "FIELD"];
     directive_args :=
       [("unless", arg_of (Named (Some 2)));
        ("if", arg_of (GraphQLNonNull (Named (Some 2))))];
     directive_rest := "" |}.

Definition sorted_skip_directive : GraphQLDirective :=
  {| directive_name := "skip";
     locations := ["FIELD"; "INLINE_FRAGMENT"];
     directive_args :=
       [("if", arg_of (GraphQLNonNull (Named (Some 2))));
        ("unless", arg_of (Named (Some 2)))];
     directive_rest := "" |}.

(** A schema with a type that is an instance of no class. *)
Definition unknown_schema : GraphQLSchema :=
  {| schema_types := [0];
     schema_directives := [];
     query := None;
     mutation := None;
     subscription := None;
     schema_rest := "" |}.

(** * Properties *)

Unset Implicit Arguments.

(** ** Sorting *)

Section SortFacts.

Variable T : Type.
Variable compare : T -> T -> Z.

Let le (x y : T) : Prop := (compare x y <= 0)%Z.

Lemma stable_insert_Permutation (x : T) (l : list T) :
  Permutation (x :: l) (stable_insert compare x l).
Proof.
  induction l as [|y l IH]; simpl; [reflexivity|].
  destruct (compare x y <=? 0)%Z; [reflexivity|].
  rewrite perm_swap. now apply perm_skip.
Qed.

Lemma stable_sort_Permutation (l : list T) :
  Permutation l (stable_sort compare l).
Proof.
  induction l as [|x l IH]; simpl; [constructor|].
  rewrite <- stable_insert_Permutation. now apply perm_skip.
Qed.

Lemma stable_sort_In (l : list T) (x : T) :
  In x (stable_sort compare l) <-> In x l.
Proof.
  split; apply Permutation_in;
    [symmetry|]; apply stable_sort_Permutation.
Qed.

Hypothesis total : forall x y, le x y \/ le y x.

Lemma stable_insert_Sorted (x : T) (l : list T) :
  Sorted le l -> Sorted le (stable_insert compare x l).
Proof.
  induction 1 as [|y l Hs IH Hd]; simpl.
  - repeat constructor.
  - destruct (Z.leb_spec (compare x y) 0) as [Hxy|Hxy].
    + repeat constructor; assumption.
    + assert (Hyx : le y x)
        by (destruct (total x y) as [H'|H']; [unfold le in H'; lia|exact H']).
      constructor; [exact IH|].
      destruct l as [|z l]; simpl; [constructor; exact Hyx|].
      destruct (compare x z <=? 0)%Z; constructor;
        [exact Hyx | now inversion Hd].
Qed.

Lemma stable_sort_Sorted (l : list T) : Sorted le (stable_sort compare l).
Proof.
  induction l as [|x l IH]; simpl; [constructor|].
  now apply stable_insert_Sorted.
Qed.

End SortFacts.

Section SortMore.

Variable T : Type.
Variable compare : T -> T -> Z.

Let le (x y : T) : Prop := (compare x y <= 0)%Z.

Lemma stable_sort_Sorted_id (l : list T) :
  Sorted le l -> stable_sort compare l = l.
Proof.
  induction 1 as [|x l Hs IH Hd]; simpl; [reflexivity|].
  rewrite IH. destruct Hd as [|y l Hxy]; simpl; [reflexivity|].
  unfold le in Hxy. apply Z.leb_le in Hxy. now rewrite Hxy.
Qed.

Variable p : T -> bool.
Hypothesis p_le : forall x y, p x = true -> p y = true -> le x y.

Lemma stable_insert_filter (x : T) (l : list T) :
  filter p (stable_insert compare x l) = filter p (x :: l).
Proof.
  induction l as [|y l IH]; [reflexivity|].
  cbn [stable_insert].
  destruct (Z.leb_spec (compare x y) 0) as [Hxy|Hxy]; [reflexivity|].
  cbn [filter] in *. rewrite IH.
  destruct (p x) eqn:Hx, (p y) eqn:Hy; try reflexivity.
  specialize (p_le x y Hx Hy). unfold le in p_le. lia.
Qed.

Lemma stable_sort_filter (l : list T) :
  filter p (stable_sort compare l) = filter p l.
Proof.
  induction l as [|x l IH]; [reflexivity|].
  cbn [stable_sort]. rewrite stable_insert_filter.
  cbn [filter]. now rewrite IH.
Qed.

End SortMore.

Lemma stable_insert_map {A B : Type} (f : A -> B) (compare : B -> B -> Z)
  (x : A) (l : list A) :
  List.map f (stable_insert (fun a b => compare (f a) (f b)) x l)
  = stable_insert compare (f x) (List.map f l).
Proof.
  induction l as [|y l IH]; [reflexivity|].
  simpl. destruct (compare (f x) (f y) <=? 0)%Z; [reflexivity|].
  simpl. now rewrite IH.
Qed.

Lemma stable_sort_map {A B : Type} (f : A -> B) (compare : B -> B -> Z)
  (l : list A) :
  List.map f (stable_sort (fun a b => compare (f a) (f b)) l)
  = stable_sort compare (List.map f l).
Proof.
  induction l as [|x l IH]; [reflexivity|].
  simpl. now rewrite stable_insert_map, IH.
Qed.

(** [Array.prototype.sort] with a comparison function that returns on the
    elements of the array is the stable sort. *)
Lemma sort_insert_stable {T : Type} (comparefn : T -> T -> result Z)
  (compare : T -> T -> Z) (x : T) (l : list T) :
  (forall y, In y l -> comparefn x y = Ok (compare x y)) ->
  sort_insert comparefn x l = Ok (stable_insert compare x l).
Proof.
  induction l as [|y l IH]; intros H; [reflexivity|].
  simpl. rewrite (H y) by now left. simpl.
  destruct (compare x y <=? 0)%Z; [reflexivity|].
  rewrite IH by (intros; apply H; now right). reflexivity.
Qed.

Lemma Array_sort_stable {T : Type} (comparefn : T -> T -> result Z)
  (compare : T -> T -> Z) (l : list T) :
  (forall x y, In x l -> In y l -> comparefn x y = Ok (compare x y)) ->
  Array_sort comparefn l = Ok (stable_sort compare l).
Proof.
  induction l as [|x l IH]; intros H; [reflexivity|].
  simpl. rewrite IH by (intros; apply H; now right). simpl.
  apply sort_insert_stable. intros y Hy. apply H; [now left|].
  right. now apply stable_sort_In in Hy.
Qed.

(** Whatever the comparison function does, a [sort] that returns has
    permuted the array. *)
Lemma sort_insert_Permutation {T : Type} (comparefn : T -> T -> result Z)
  (x : T) (l out : list T) :
  sort_insert comparefn x l = Ok out -> Permutation (x :: l) out.
Proof.
  revert out. induction l as [|y l IH]; intros out H; simpl in H.
  - injection H as <-. reflexivity.
  - destruct (comparefn x y) as [c|e]; simpl in H; [|discriminate].
    destruct (c <=? 0)%Z.
    + injection H as <-. reflexivity.
    + destruct (sort_insert comparefn x l) as [r|e]; simpl in H;
        [|discriminate].
      injection H as <-. rewrite perm_swap. apply perm_skip. now apply IH.
Qed.

Lemma Array_sort_Permutation {T : Type} (comparefn : T -> T -> result Z)
  (l out : list T) :
  Array_sort comparefn l = Ok out -> Permutation l out.
Proof.
  revert out. induction l as [|x l IH]; intros out H; simpl in H.
  - injection H as <-. constructor.
  - destruct (Array_sort comparefn l) as [s|e]; simpl in H; [|discriminate].
    rewrite <- (sort_insert_Permutation _ _ _ _ H). apply perm_skip.
    now apply IH.
Qed.

(** What a [sort] throws its comparison function has thrown. *)
Lemma sort_insert_throws {T : Type} (comparefn : T -> T -> result Z) (x : T)
  (sorted : list T) (e : error) :
  sort_insert comparefn x sorted = Throw e ->
  exists y, In y sorted /\ comparefn x y = Throw e.
Proof.
  induction sorted as [|y rest IH]; [discriminate|]. simpl.
  destruct (comparefn x y) as [c|e'] eqn:Hc.
  - simpl. destruct (c <=? 0)%Z; [discriminate|].
    destruct (sort_insert comparefn x rest) as [r|e''] eqn:Hr;
      [discriminate|].
    simpl. intros H. injection H as ->.
    destruct (IH eq_refl) as [z [Hz Hf]]. exists z. split; [now right|exact Hf].
  - simpl. intros H. injection H as ->. exists y. split; [now left|exact Hc].
Qed.

Lemma Array_sort_throws {T : Type} (comparefn : T -> T -> result Z)
  (array : list T) (e : error) :
  Array_sort comparefn array = Throw e ->
  exists x y, In x array /\ In y array /\ comparefn x y = Throw e.
Proof.
  induction array as [|x rest IH]; [discriminate|]. simpl.
  destruct (Array_sort comparefn rest) as [sorted|e'] eqn:Hrest.
  - simpl. intros H. apply sort_insert_throws in H.
    destruct H as [y [Hy Hc]]. exists x, y. split; [now left|].
    split; [|exact Hc]. right.
    pose proof (Array_sort_Permutation _ _ _ Hrest) as Hperm.
    apply Permutation_sym in Hperm. now apply (Permutation_in _ Hperm).
  - simpl. intros H. injection H as ->.
    destruct (IH eq_refl) as [y [z [Hy [Hz Hc]]]].
    exists y, z. split; [now right|]. split; [now right|exact Hc].
Qed.

(** ** Maps *)

Lemma Array_map_ok {A B : Type} (f : A -> result B) (g : A -> B)
  (l : list A) :
  (forall x, In x l -> f x = Ok (g x)) ->
  Array_map f l = Ok (List.map g l).
Proof.
  induction l as [|x l IH]; intros H; [reflexivity|].
  simpl. rewrite (H x) by now left. simpl.
  rewrite IH by (intros; apply H; now right). reflexivity.
Qed.

Lemma existsb_eqb_In (key : string) (keys : list string) :
  existsb (String.eqb key) keys = true <-> In key keys.
Proof.
  rewrite existsb_exists. split.
  - intros [k [Hin Heq]]. apply String.eqb_eq in Heq. now subst.
  - intros Hin. exists key. split; [exact Hin|apply String.eqb_refl].
Qed.

Lemma distinct_NoDup (names : list string) :
  distinct names = true <-> NoDup names.
Proof.
  induction names as [|name rest IH]; simpl.
  - split; [constructor|reflexivity].
  - rewrite andb_true_iff, negb_true_iff, IH. split.
    + intros [Hn Hd]. constructor; [|exact Hd].
      intros Hin. apply existsb_eqb_In in Hin. congruence.
    + intros Hnd. inversion Hnd as [|x l Hn Hd]; subst. split; [|exact Hd].
      destruct (existsb (String.eqb name) rest) eqn:E; [|reflexivity].
      apply existsb_eqb_In in E. contradiction.
Qed.

Lemma obj_has_In {V : Type} (map : ObjMap V) (key : string) :
  obj_has map key = true <-> In key (Object_keys map).
Proof. apply existsb_eqb_In. Qed.

Lemma obj_set_new {V : Type} (map : ObjMap V) (key : string) (value : V) :
  ~ In key (Object_keys map) -> not_index key = true ->
  obj_set map key value = map ++ [(key, value)].
Proof.
  intros Hnew Hidx. unfold obj_set.
  destruct (obj_has map key) eqn:E.
  - apply obj_has_In in E. contradiction.
  - unfold not_index in Hidx. now destruct (array_index key).
Qed.

Lemma obj_get_In {V : Type} (map : ObjMap V) (key : string) (value : V) :
  NoDup (Object_keys map) -> In (key, value) map ->
  obj_get map key = Some value.
Proof.
  induction map as [|[k v] map IH]; intros Hnd Hin; [destruct Hin|].
  simpl in *. inversion Hnd as [|x l Hn Hd]; subst.
  destruct Hin as [Heq|Hin].
  - injection Heq as -> ->. now rewrite String.eqb_refl.
  - destruct (String.eqb_spec k key) as [->|Hne].
    + exfalso. apply Hn. unfold Object_keys.
      change key with (fst (key, value)). now apply in_map.
    + now apply IH.
Qed.

Lemma obj_get_Some_In {V : Type} (map : ObjMap V) (key : string)
  (value : V) :
  obj_get map key = Some value -> In (key, value) map.
Proof.
  induction map as [|[k v] map IH]; intros H; [discriminate|].
  simpl in H. destruct (String.eqb_spec k key) as [->|Hne].
  - injection H as ->. now left.
  - right. now apply IH.
Qed.

Lemma obj_get_None {V : Type} (map : ObjMap V) (key : string) :
  obj_get map key = None <-> ~ In key (Object_keys map).
Proof.
  induction map as [|[k v] map IH]; simpl; [tauto|].
  destruct (String.eqb_spec k key) as [->|Hne].
  - split; [discriminate|]. intros H. exfalso. apply H. now left.
  - rewrite IH. tauto.
Qed.

(** A GraphQL name is no array index. *)
Lemma name_is_no_index (name : string) :
  starts_as_name name = true -> not_index name = true.
Proof.
  destruct name as [|c rest]; [discriminate|]. simpl.
  destruct c as [[] [] [] [] [] [] [] []]; try discriminate; reflexivity.
Qed.

Lemma keys_ok_spec {V : Type} (map : ObjMap V) :
  keys_ok map = true ->
  NoDup (Object_keys map)
  /\ forall key, In key (Object_keys map) -> not_index key = true.
Proof.
  unfold keys_ok. rewrite andb_true_iff, distinct_NoDup, forallb_forall.
  tauto.
Qed.

(** ** The sorter computes the sorted copy of the specification *)

Lemma ref_ok_In (types : list addr) (type : ref) :
  ref_ok types type = true -> exists a, type = Some a /\ In a types.
Proof.
  destruct type as [a|]; [|discriminate]. simpl. intros H.
  apply existsb_exists in H. destruct H as [b [Hin Heq]].
  apply Nat.eqb_eq in Heq. subst. now exists b.
Qed.

Lemma forallb_false_In {A : Type} (p : A -> bool) (l : list A) :
  forallb p l = false -> exists x, In x l /\ p x = false.
Proof.
  induction l as [|x l IH]; [discriminate|]. simpl.
  destruct (p x) eqn:Hx.
  - intros H. destruct (IH H) as [y [Hin Hy]]. exists y. now split; [right|].
  - intros _. exists x. now split; [left|].
Qed.

Lemma forallb_pointwise {A : Type} (p q : A -> bool) (l : list A) :
  (forall x, p x = q x) -> forallb p l = forallb q l.
Proof.
  intros H. induction l as [|x l IH]; [reflexivity|].
  simpl. now rewrite H, IH.
Qed.

Lemma forallb_Permutation {A : Type} (p : A -> bool) (l l' : list A) :
  Permutation l l' -> forallb p l = forallb p l'.
Proof.
  induction 1 as [|x l l' _ IH|x y l|l l' l'' _ IH1 _ IH2]; simpl.
  - reflexivity.
  - now rewrite IH.
  - destruct (p x), (p y); reflexivity.
  - now rewrite IH1.
Qed.

Lemma returns_if_true {A : Type} (x : A) (r : result A) :
  returns_if true x r -> r = Ok x.
Proof. trivial. Qed.

Lemma returns_if_Ok {A : Type} (condition : bool) (x y : A) :
  returns_if condition x (Ok y) -> condition = true /\ y = x.
Proof.
  destruct condition; simpl.
  - intros H. now injection H.
  - intros [e [_ H]]. discriminate.
Qed.

Lemma returns_if_bind {A B : Type} (b b' : bool) (x : A) (y : B)
  (r : result A) (k : A -> result B) :
  returns_if b x r -> returns_if b' y (k x) ->
  returns_if (b && b') y (bind r k).
Proof.
  destruct b; simpl.
  - intros ->. trivial.
  - intros [e [He ->]] _. now exists e.
Qed.

Lemma Array_map_cases {A B : Type} (f : A -> result B) (g : A -> B)
  (p : A -> bool) (l : list A) :
  (forall x, In x l -> returns_if (p x) (g x) (f x)) ->
  returns_if (forallb p l) (List.map g l) (Array_map f l).
Proof.
  induction l as [|x l IH]; intros H; [reflexivity|].
  cbn [Array_map forallb List.map].
  apply (returns_if_bind _ _ (g x)); [apply H; now left|].
  specialize (IH (fun y Hy => H y (or_intror Hy))).
  destruct (forallb p l); simpl in *.
  - now rewrite IH.
  - destruct IH as [e [He ->]]. now exists e.
Qed.

Section Refinement.

Variable localeCompare : LocaleCompare.
Variable isIntrospectionType : GraphQLNamedType -> bool.
Variable compareOptions : option CompareOptions.

(** The platform accepts the locales and the options the sorter is called
    with. *)
Hypothesis accepted : accepts localeCompare compareOptions.

Lemma String_localeCompare_accepted (key1 key2 : string) :
  String_localeCompare localeCompare key1 key2
    (optional_locales compareOptions) (optional_options compareOptions)
  = Ok (compare_names localeCompare compareOptions key1 key2).
Proof.
  unfold String_localeCompare, compare_names.
  now destruct accepted as [compare ->].
Qed.

Lemma sortBy_stable {T : Type} (array : list T)
  (mapToKey : T -> result string) (key : T -> string) :
  (forall x, In x array -> mapToKey x = Ok (key x)) ->
  sortBy localeCompare array mapToKey compareOptions
  = Ok (stable_sort
          (fun a b =>
             compare_names localeCompare compareOptions (key a) (key b))
          array).
Proof.
  intros H. unfold sortBy, Array_slice. apply Array_sort_stable.
  intros x y Hx Hy. rewrite (H x Hx), (H y Hy). cbn [bind].
  apply String_localeCompare_accepted.
Qed.

Lemma sortBy_keys (keys : list string) :
  sortBy localeCompare keys (fun x => Ok x) compareOptions
  = Ok (stable_sort (compare_names localeCompare compareOptions) keys).
Proof. now apply (sortBy_stable keys (fun x => Ok x) (fun x => x)). Qed.

Lemma sortObjMap_loop_append {T R : Type} (map : ObjMap T)
  (sortValueFn : T -> result R) (entries sortedMap : ObjMap R) :
  (forall e, In e entries ->
     exists value,
       obj_get map (fst e) = Some value /\ sortValueFn value = Ok (snd e)) ->
  NoDup (Object_keys sortedMap ++ Object_keys entries) ->
  (forall key, In key (Object_keys entries) -> not_index key = true) ->
  sortObjMap_loop map sortValueFn (Object_keys entries) sortedMap
  = Ok (sortedMap ++ entries).
Proof.
  revert sortedMap.
  induction entries as [|[k v] entries IH]; intros sortedMap Hval Hnd Hidx.
  - simpl. now rewrite app_nil_r.
  - simpl. destruct (Hval (k, v)) as [value [Hget Hfn]]; [now left|].
    simpl in Hget, Hfn. rewrite Hget, Hfn. simpl.
    rewrite obj_set_new.
    + rewrite IH.
      * now rewrite <- app_assoc.
      * intros e He. apply Hval. now right.
      * unfold Object_keys in *. rewrite map_app, <- app_assoc. exact Hnd.
      * intros key Hk. apply Hidx. now right.
    + apply NoDup_remove_2 in Hnd. intros Hin. apply Hnd.
      apply in_or_app. now left.
    + apply Hidx. now left.
Qed.

(** The loop of [sortObjMap] throws when [sortValueFn] throws for the
    value under one of the keys, and what it throws is what
    [sortValueFn] has thrown. *)
Lemma sortObjMap_loop_throws_one {T R : Type} (thrown : error -> Prop)
  (map : ObjMap T) (sortValueFn : T -> result R) (keys : list string)
  (sortedMap : ObjMap R) :
  (forall key,
      In key keys ->
      exists value,
        obj_get map key = Some value
        /\ ((exists e, thrown e /\ sortValueFn value = Throw e)
            \/ exists r, sortValueFn value = Ok r)) ->
  (exists key value e,
      In key keys /\ obj_get map key = Some value
      /\ sortValueFn value = Throw e) ->
  exists e,
    thrown e /\ sortObjMap_loop map sortValueFn keys sortedMap = Throw e.
Proof.
  revert sortedMap. induction keys as [|key keys IH]; intros sortedMap Hall Hex.
  - destruct Hex as [k [v [e [[] _]]]].
  - simpl. destruct (Hall key) as [value [Hget Hfn]]; [now left|].
    rewrite Hget. destruct Hfn as [[e [He Hfn]]|[r Hfn]]; rewrite Hfn;
      [now exists e|].
    simpl. apply IH; [intros k Hk; apply Hall; now right|].
    destruct Hex as [k [v [e [[<-|Hin] [Hk Hv]]]]].
    + rewrite Hget in Hk. injection Hk as <-. congruence.
    + now exists k, v, e.
Qed.

Lemma sortObjMap_sorted {T R : Type} (map : ObjMap T)
  (sortValueFn : T -> result R) (f : T -> R) :
  keys_ok map = true ->
  (forall e, In e map -> sortValueFn (snd e) = Ok (f (snd e))) ->
  sortObjMap localeCompare map sortValueFn compareOptions
  = Ok (sorted_map localeCompare compareOptions f map).
Proof.
  intros Hkeys Hfn. destruct (keys_ok_spec map Hkeys) as [Hnd Hidx].
  unfold sortObjMap. rewrite sortBy_keys. simpl.
  assert (Hk : Object_keys (map_values f map) = Object_keys map).
  { unfold Object_keys, map_values. rewrite map_map. reflexivity. }
  assert (Hs : stable_sort (compare_names localeCompare compareOptions)
                 (Object_keys map)
               = Object_keys (sorted_map localeCompare compareOptions f map)).
  { rewrite <- Hk. unfold Object_keys, sorted_map, by_key.
    now rewrite stable_sort_map. }
  rewrite Hs. unfold Object_create_null.
  rewrite sortObjMap_loop_append; [reflexivity| | |].
  - intros e He. apply stable_sort_In in He. unfold map_values in He.
    apply in_map_iff in He. destruct He as [[k v] [<- Hin]]. simpl.
    exists v. split; [now apply obj_get_In|]. now apply (Hfn (k, v)).
  - simpl. rewrite <- Hs.
    eapply Permutation_NoDup; [apply stable_sort_Permutation|exact Hnd].
  - intros key Hin. rewrite <- Hs in Hin. apply stable_sort_In in Hin.
    now apply Hidx.
Qed.

(** [sortObjMap] with a [sortValueFn] that returns for the values with a
    property and throws the error of a wrapper for the others. *)
Lemma sortObjMap_cases {T R : Type} (map : ObjMap T)
  (sortValueFn : T -> result R) (f : T -> R) (p : T -> bool) :
  keys_ok map = true ->
  (forall x,
      In x map ->
      returns_if (p (snd x)) (f (snd x)) (sortValueFn (snd x))) ->
  returns_if (forallb (fun x => p (snd x)) map)
    (sorted_map localeCompare compareOptions f map)
    (sortObjMap localeCompare map sortValueFn compareOptions).
Proof.
  intros Hkeys Hfn. destruct (forallb (fun x => p (snd x)) map) eqn:Hall.
  - rewrite forallb_forall in Hall. apply sortObjMap_sorted; [exact Hkeys|].
    intros x Hx. specialize (Hfn x Hx). now rewrite (Hall x Hx) in Hfn.
  - destruct (keys_ok_spec map Hkeys) as [Hnd _].
    apply forallb_false_In in Hall. destruct Hall as [[k v] [Hin Hp]].
    unfold sortObjMap. rewrite sortBy_keys. cbn [bind].
    apply sortObjMap_loop_throws_one.
    + intros key Hkey. apply stable_sort_In in Hkey.
      unfold Object_keys in Hkey. apply in_map_iff in Hkey.
      destruct Hkey as [[k' v'] [<- Hin']]. exists v'.
      split; [now apply obj_get_In|].
      specialize (Hfn _ Hin'). cbn [fst snd] in *.
      destruct (p v'); [right; now exists (f v')|now left].
    + specialize (Hfn _ Hin). cbn [snd] in Hfn, Hp. rewrite Hp in Hfn.
      destruct Hfn as [e [_ He]]. exists k, v, e. split; [|split].
      * apply stable_sort_In. unfold Object_keys.
        change k with (fst (k, v)). now apply in_map.
      * now apply obj_get_In.
      * exact He.
Qed.

Variable h : Heap.

Lemma instance_at_type_at (a : addr) :
  (a < List.length h)%nat -> instance_at h a = Ok (type_at h a).
Proof.
  intros Ha. unfold instance_at, type_at.
  now rewrite (nth_error_nth' h (OtherType "" "") Ha).
Qed.

Lemma name_of_addr (a : addr) :
  (a < List.length h)%nat -> name_of h a = Ok (name_at h a).
Proof.
  intros Ha. unfold name_of, addr_HasName.
  now rewrite instance_at_type_at.
Qed.

Lemma name_of_ref (type : ref) :
  ref_in_heap h type = true -> name_of h type = Ok (ref_name h type).
Proof.
  destruct type as [a|]; [|discriminate]. simpl. intros H.
  apply Nat.ltb_lt in H.
  unfold name_of, ref_HasName. simpl. now apply name_of_addr.
Qed.

Variable typeMap : ObjMap addr.

Lemma replaceNamedType_ok (type : ref) :
  ref_in_heap h type = true ->
  replaceNamedType h typeMap type = Ok (replaced_ref h typeMap type).
Proof.
  intros H. unfold replaceNamedType. rewrite (name_of_ref type H).
  destruct type as [a|]; [reflexivity|discriminate].
Qed.

(** [replaceType] on a type whose named type is an instance: the wrappers
    are built again around what the index holds, and the innermost of
    them throws when the index holds nothing. *)
Lemma replaceType_in_heap (type : GraphQLType) :
  type_ok (ref_in_heap h) type = true ->
  returns_if (rewrappable h typeMap type) (replaced_type h typeMap type)
    (replaceType h typeMap type).
Proof.
  assert (Hlist : forall t,
             returns_if (rewrappable h typeMap t) (replaced_type h typeMap t)
               (replaceType h typeMap t) ->
             returns_if (rewrappable h typeMap (GraphQLList t))
               (GraphQLList (replaced_type h typeMap t))
               (t' <- replaceType h typeMap t ;; new_GraphQLList t')).
  { intros [r|t'|t'] H.
    - apply returns_if_true in H. rewrite H. cbn.
      destruct (replaced_ref h typeMap r); [reflexivity|].
      exists undefined_type. split; [now left|reflexivity].
    - change (rewrappable h typeMap (GraphQLList (GraphQLList t')))
        with (rewrappable h typeMap (GraphQLList t')).
      destruct (rewrappable h typeMap (GraphQLList t')); simpl in *.
      + now rewrite H.
      + destruct H as [e [He ->]]. now exists e.
    - change (rewrappable h typeMap (GraphQLList (GraphQLNonNull t')))
        with (rewrappable h typeMap (GraphQLNonNull t')).
      destruct (rewrappable h typeMap (GraphQLNonNull t')); simpl in *.
      + now rewrite H.
      + destruct H as [e [He ->]]. now exists e. }
  assert (Hnonnull : forall t,
             returns_if (rewrappable h typeMap t) (replaced_type h typeMap t)
               (replaceType h typeMap t) ->
             returns_if (rewrappable h typeMap (GraphQLNonNull t))
               (GraphQLNonNull (replaced_type h typeMap t))
               (t' <- replaceType h typeMap t ;; new_GraphQLNonNull t')).
  { intros [r|t'|t'] H.
    - apply returns_if_true in H. rewrite H. cbn.
      destruct (replaced_ref h typeMap r); [reflexivity|].
      exists undefined_nullable_type. split; [now right|reflexivity].
    - change (rewrappable h typeMap (GraphQLNonNull (GraphQLList t')))
        with (rewrappable h typeMap (GraphQLList t')).
      destruct (rewrappable h typeMap (GraphQLList t')); simpl in *.
      + now rewrite H.
      + destruct H as [e [He ->]]. now exists e.
    - change (rewrappable h typeMap (GraphQLNonNull (GraphQLNonNull t')))
        with (rewrappable h typeMap (GraphQLNonNull t')).
      destruct (rewrappable h typeMap (GraphQLNonNull t')); simpl in *.
      + now rewrite H.
      + destruct H as [e [He ->]]. now exists e. }
  induction type as [r|t IH|t IH]; intros H.
  - cbn. now rewrite replaceNamedType_ok.
  - apply Hlist, IH, H.
  - apply Hnonnull, IH, H.
Qed.

Lemma replaceType_ok (type : GraphQLType) :
  type_ok (ref_in_heap h) type = true ->
  rewrappable h typeMap type = true ->
  replaceType h typeMap type = Ok (replaced_type h typeMap type).
Proof.
  intros H Hw. pose proof (replaceType_in_heap type H) as Hr.
  now rewrite Hw in Hr.
Qed.

Lemma replaceMaybeType_ok (root : ref) :
  root_ok (ref_in_heap h) root = true ->
  replaceMaybeType h typeMap root = Ok (replaced_ref h typeMap root).
Proof.
  destruct root as [a|]; [|reflexivity]. simpl.
  apply (replaceNamedType_ok (Some a)).
Qed.

Lemma returns_if_map {A B : Type} (condition : bool) (x : A) (r : result A)
  (f : A -> B) :
  returns_if condition x r ->
  returns_if condition (f x) (y <- r ;; Ok (f y)).
Proof.
  destruct condition; simpl.
  - now intros ->.
  - intros [e [He ->]]. now exists e.
Qed.

Lemma sortArgs_cases (args : ObjMap GraphQLArgumentConfig) :
  args_ok (ref_in_heap h) args = true ->
  returns_if (args_all (rewrappable h typeMap) args)
    (sorted_args localeCompare h compareOptions typeMap args)
    (sortArgs localeCompare h compareOptions typeMap args).
Proof.
  unfold args_ok. rewrite andb_true_iff, forallb_forall. intros [Hk Ht].
  unfold sortArgs, sorted_args, args_all.
  apply (sortObjMap_cases args _ (sorted_arg h typeMap)
           (fun arg => rewrappable h typeMap (arg_type arg)));
    [exact Hk|].
  intros e He.
  apply (returns_if_map _ _ _
           (fun type => {| arg_type := type; arg_rest := arg_rest (snd e) |})).
  now apply replaceType_in_heap, Ht.
Qed.

Lemma sortFields_cases (fields : ObjMap GraphQLFieldConfig) :
  fields_ok (ref_in_heap h) fields = true ->
  returns_if (fields_all (rewrappable h typeMap) fields)
    (sorted_fields localeCompare h compareOptions typeMap fields)
    (sortFields localeCompare h compareOptions typeMap fields).
Proof.
  unfold fields_ok. rewrite andb_true_iff, forallb_forall. intros [Hk Ht].
  unfold sortFields, sorted_fields, fields_all.
  apply (sortObjMap_cases fields _
           (sorted_field localeCompare h compareOptions typeMap)
           (fun field =>
              rewrappable h typeMap (field_type field)
              && args_all (rewrappable h typeMap) (field_args field)));
    [exact Hk|].
  intros e He. specialize (Ht e He). apply andb_true_iff in Ht.
  destruct Ht as [Ht Ha].
  apply (returns_if_bind _ _ (replaced_type h typeMap (field_type (snd e))));
    [now apply replaceType_in_heap|].
  apply (returns_if_map _ _ _
           (fun args =>
              {| field_type := replaced_type h typeMap (field_type (snd e));
                 field_args := args;
                 field_rest := field_rest (snd e) |})).
  now apply sortArgs_cases.
Qed.

Lemma sortInputFields_cases (fields : ObjMap GraphQLInputFieldConfig) :
  input_fields_ok (ref_in_heap h) fields = true ->
  returns_if (input_fields_all (rewrappable h typeMap) fields)
    (sorted_input_fields localeCompare h compareOptions typeMap fields)
    (sortInputFields localeCompare h compareOptions typeMap fields).
Proof.
  unfold input_fields_ok. rewrite andb_true_iff, forallb_forall.
  intros [Hk Ht].
  unfold sortInputFields, sorted_input_fields, input_fields_all.
  apply (sortObjMap_cases fields _ (sorted_input_field h typeMap)
           (fun field => rewrappable h typeMap (input_field_type field)));
    [exact Hk|].
  intros e He.
  apply (returns_if_map _ _ _
           (fun type =>
              {| input_field_type := type;
                 input_field_rest := input_field_rest (snd e) |})).
  now apply replaceType_in_heap, Ht.
Qed.

Lemma sortTypes_ok (arr : list ref) :
  forallb (ref_in_heap h) arr = true ->
  sortTypes localeCompare h compareOptions typeMap arr
  = Ok (sorted_types localeCompare h compareOptions typeMap arr).
Proof.
  rewrite forallb_forall. intros H. unfold sortTypes, sortByName.
  rewrite (sortBy_stable arr (fun obj => name_of h obj) (ref_name h))
    by (intros x Hx; now apply name_of_ref, H).
  simpl. unfold sorted_types. apply Array_map_ok.
  intros x Hx. apply replaceNamedType_ok, H.
  now apply stable_sort_In in Hx.
Qed.

Lemma sortDirective_cases (directive : GraphQLDirective) :
  directive_ok (ref_in_heap h) directive = true ->
  returns_if (args_all (rewrappable h typeMap) (directive_args directive))
    (sorted_directive localeCompare h compareOptions typeMap directive)
    (sortDirective localeCompare h compareOptions typeMap directive).
Proof.
  unfold directive_ok. intros H. unfold sortDirective.
  rewrite sortBy_keys. cbn [bind].
  apply (returns_if_map _ _ _
           (fun args =>
              {| directive_name := directive_name directive;
                 locations :=
                   stable_sort (compare_names localeCompare compareOptions)
                     (locations directive);
                 directive_args := args;
                 directive_rest := directive_rest directive |})).
  now apply sortArgs_cases.
Qed.

Lemma resolve_thunks_cases (type : GraphQLNamedType) (config : TypeConfig) :
  members_ok (ref_in_heap h) type = true ->
  constructor_config localeCompare compareOptions type = Some config ->
  returns_if (members_all (rewrappable h typeMap) type)
    (sorted_copy localeCompare h compareOptions typeMap type)
    (resolve_thunks localeCompare h compareOptions typeMap config).
Proof.
  destruct type; simpl; intros Hm Hc; try discriminate;
    injection Hc as <-; simpl.
  - apply andb_true_iff in Hm. destruct Hm as [Hi Hf].
    rewrite sortTypes_ok by assumption. cbn [bind].
    apply (returns_if_map _ _ _
             (fun fields' =>
                GraphQLObjectType name
                  (sorted_types localeCompare h compareOptions typeMap
                     interfaces)
                  fields' rest)).
    now apply sortFields_cases.
  - apply andb_true_iff in Hm. destruct Hm as [Hi Hf].
    rewrite sortTypes_ok by assumption. cbn [bind].
    apply (returns_if_map _ _ _
             (fun fields' =>
                GraphQLInterfaceType name
                  (sorted_types localeCompare h compareOptions typeMap
                     interfaces)
                  fields' rest)).
    now apply sortFields_cases.
  - now rewrite sortTypes_ok.
  - reflexivity.
  - apply (returns_if_map _ _ _
             (fun fields' => GraphQLInputObjectType name fields' rest)).
    now apply sortInputFields_cases.
Qed.

Lemma sortNamedType_passes (a : addr) (pending : list TypeConfig) :
  (a < List.length h)%nat ->
  passes_through isIntrospectionType (type_at h a) = true ->
  sortNamedType localeCompare isIntrospectionType h compareOptions a pending
  = Ok (a, pending).
Proof.
  intros Ha Hp. unfold sortNamedType. rewrite instance_at_type_at by exact Ha.
  simpl. unfold passes_through in Hp. now rewrite Hp.
Qed.

Lemma sortNamedType_rebuilds (a : addr) (pending : list TypeConfig) :
  (a < List.length h)%nat ->
  passes_through isIntrospectionType (type_at h a) = false ->
  members_ok (ref_in_heap h) (type_at h a) = true ->
  exists config,
    constructor_config localeCompare compareOptions (type_at h a)
    = Some config
    /\ sortNamedType localeCompare isIntrospectionType h compareOptions a
         pending
       = Ok ((List.length h + List.length pending)%nat, pending ++ [config]).
Proof.
  intros Ha Hp Hm. unfold sortNamedType.
  rewrite instance_at_type_at by exact Ha. simpl.
  unfold passes_through in Hp. rewrite Hp.
  destruct (type_at h a) eqn:E; simpl in *; try discriminate;
    try (eexists; split; [reflexivity|reflexivity]).
  rewrite (sortObjMap_sorted values no_sortValueFn (fun value => value))
    by (try exact Hm; reflexivity).
  simpl. eexists; split; reflexivity.
Qed.

End Refinement.

Section Index.

Variable localeCompare : LocaleCompare.
Variable isIntrospectionType : GraphQLNamedType -> bool.
Variable compareOptions : option CompareOptions.
Hypothesis accepted : accepts localeCompare compareOptions.
Variable h : Heap.

(** What the sorter needs of one type of the schema. *)
Let type_in_schema (a : addr) : Prop :=
  (a < List.length h)%nat
  /\ not_index (name_at h a) = true
  /\ (isIntrospectionType (type_at h a) = true
      \/ members_ok (ref_in_heap h) (type_at h a) = true).

Lemma rebuilt_members_ok (a : addr) :
  type_in_schema a ->
  passes_through isIntrospectionType (type_at h a) = false ->
  members_ok (ref_in_heap h) (type_at h a) = true.
Proof.
  intros [_ [_ [Hi|Hm]]] Hp; [|exact Hm].
  unfold passes_through in Hp. rewrite Hi, orb_true_r in Hp. discriminate.
Qed.

Lemma keyValMap_reduce_index (items : list addr) (map : ObjMap addr)
  (pending : list TypeConfig) :
  (forall a, In a items -> type_in_schema a) ->
  NoDup (Object_keys map ++ List.map (name_at h) items) ->
  exists configs,
    keyValMap_reduce items (fun type => name_of h type)
      (sortNamedType localeCompare isIntrospectionType h compareOptions)
      map pending
    = Ok (map ++ combine (List.map (name_at h) items)
                   (replacements isIntrospectionType h
                      (List.length h + List.length pending) items),
          pending ++ configs)
    /\ Forall2
         (fun a config =>
            constructor_config localeCompare compareOptions (type_at h a)
            = Some config)
         (rebuilt isIntrospectionType h items) configs.
Proof.
  revert map pending.
  induction items as [|a items IH]; intros map pending Hin Hnd.
  - exists []. simpl. rewrite !app_nil_r. split; [reflexivity|constructor].
  - assert (Ha : type_in_schema a) by (apply Hin; now left).
    assert (Hlt : (a < List.length h)%nat) by apply Ha.
    assert (Hnew : ~ In (name_at h a) (Object_keys map)).
    { simpl in Hnd. apply NoDup_remove_2 in Hnd. intros Hk. apply Hnd.
      apply in_or_app. now left. }
    assert (Hidx : not_index (name_at h a) = true) by apply Ha.
    assert (Hnd' : forall value,
               NoDup (Object_keys (map ++ [(name_at h a, value)])
                      ++ List.map (name_at h) items)).
    { intros value. unfold Object_keys. rewrite map_app. simpl.
      rewrite <- app_assoc. exact Hnd. }
    cbn [keyValMap_reduce]. rewrite (name_of_addr h a Hlt).
    cbn [bind List.map replacements rebuilt filter].
    fold (rebuilt isIntrospectionType h items).
    destruct (passes_through isIntrospectionType (type_at h a)) eqn:Hp.
    + rewrite (sortNamedType_passes localeCompare isIntrospectionType
                 compareOptions h a pending Hlt Hp).
      cbn [bind]. rewrite obj_set_new by assumption.
      destruct (IH (map ++ [(name_at h a, a)]) pending) as [configs [Hr Hc]];
        [intros; apply Hin; now right|apply Hnd'|].
      exists configs. cbn [negb]. split; [|exact Hc].
      etransitivity; [exact Hr|]. now rewrite <- app_assoc.
    + destruct (sortNamedType_rebuilds localeCompare isIntrospectionType
                  compareOptions accepted h a pending Hlt Hp)
        as [config [Hc Hs]];
        [now apply rebuilt_members_ok|].
      rewrite Hs. cbn [bind]. rewrite obj_set_new by assumption.
      destruct (IH (map ++ [(name_at h a, (List.length h
                                           + List.length pending)%nat)])
                  (pending ++ [config])) as [configs [Hr Hcs]];
        [intros; apply Hin; now right|apply Hnd'|].
      exists (config :: configs). cbn [negb]. split.
      * etransitivity; [exact Hr|].
        rewrite length_app. cbn [List.length].
        replace (List.length h + (List.length pending + 1))%nat
          with (S (List.length h + List.length pending)) by lia.
        now rewrite <- !app_assoc.
      * constructor; assumption.
Qed.

Variable typeMap : ObjMap addr.

Lemma resolve_all_thunks (addresses : list addr) (configs : list TypeConfig) :
  (forall a,
      In a addresses ->
      members_ok (ref_in_heap h) (type_at h a) = true) ->
  Forall2
    (fun a config =>
       constructor_config localeCompare compareOptions (type_at h a)
       = Some config)
    addresses configs ->
  returns_if
    (forallb (fun a => members_all (rewrappable h typeMap) (type_at h a))
       addresses)
    (List.map
       (fun a =>
          sorted_copy localeCompare h compareOptions typeMap (type_at h a))
       addresses)
    (Array_map (resolve_thunks localeCompare h compareOptions typeMap)
       configs).
Proof.
  intros Hm H. induction H as [|a config addresses configs Hc _ IH].
  - reflexivity.
  - cbn [Array_map forallb List.map].
    apply (returns_if_bind _ _
             (sorted_copy localeCompare h compareOptions typeMap
                (type_at h a))).
    + apply (resolve_thunks_cases localeCompare compareOptions accepted h
               typeMap (type_at h a) config);
        [apply Hm; now left|exact Hc].
    + specialize (IH (fun b Hb => Hm b (or_intror Hb))).
      destruct (forallb
                  (fun a =>
                     members_all (rewrappable h typeMap) (type_at h a))
                  addresses); simpl in *.
      * now rewrite IH.
      * destruct IH as [e [He ->]]. now exists e.
Qed.

(** The types the sorter rebuilds are those whose members it reads. *)
Lemma rebuilt_members_all (p : GraphQLType -> bool) (types : list addr) :
  forallb (fun a => members_all p (type_at h a))
    (rebuilt isIntrospectionType h types)
  = forallb
      (fun a =>
         isIntrospectionType (type_at h a) || members_all p (type_at h a))
      types.
Proof.
  induction types as [|a types IH]; [reflexivity|].
  cbn [rebuilt filter forallb]. fold (rebuilt isIntrospectionType h types).
  unfold passes_through.
  destruct (isIntrospectionType (type_at h a)) eqn:Hi.
  - rewrite orb_true_r. cbn [negb orb andb]. exact IH.
  - rewrite orb_false_r. cbn [orb].
    destruct (type_at h a) eqn:E; cbn [isScalarType negb forallb members_all];
      rewrite ?E; cbn [members_all andb]; now rewrite IH.
Qed.

End Index.

(** What is asked of the members of a type carries over from one
    condition on references to a weaker one. *)
Section Monotone.

Variables ok ok' : ref -> bool.
Hypothesis ok_impl : forall type, ok type = true -> ok' type = true.

Lemma type_ok_impl (type : GraphQLType) :
  type_ok ok type = true -> type_ok ok' type = true.
Proof. induction type; simpl; auto. Qed.

Lemma refs_ok_impl (arr : list ref) :
  forallb ok arr = true -> forallb ok' arr = true.
Proof.
  rewrite !forallb_forall. intros H type Hin. now apply ok_impl, H.
Qed.

Lemma args_ok_impl (args : ObjMap GraphQLArgumentConfig) :
  args_ok ok args = true -> args_ok ok' args = true.
Proof.
  unfold args_ok. rewrite !andb_true_iff, !forallb_forall.
  intros [Hk H]. split; [exact Hk|].
  intros e He. now apply type_ok_impl, H.
Qed.

Lemma fields_ok_impl (fields : ObjMap GraphQLFieldConfig) :
  fields_ok ok fields = true -> fields_ok ok' fields = true.
Proof.
  unfold fields_ok. rewrite !andb_true_iff, !forallb_forall.
  intros [Hk H]. split; [exact Hk|].
  intros e He. specialize (H e He). apply andb_true_iff in H.
  destruct H as [H1 H2]. apply andb_true_iff.
  split; [now apply type_ok_impl|now apply args_ok_impl].
Qed.

Lemma input_fields_ok_impl (fields : ObjMap GraphQLInputFieldConfig) :
  input_fields_ok ok fields = true -> input_fields_ok ok' fields = true.
Proof.
  unfold input_fields_ok. rewrite !andb_true_iff, !forallb_forall.
  intros [Hk H]. split; [exact Hk|].
  intros e He. now apply type_ok_impl, H.
Qed.

Lemma members_ok_impl (type : GraphQLNamedType) :
  members_ok ok type = true -> members_ok ok' type = true.
Proof.
  destruct type; simpl; try tauto.
  - rewrite !andb_true_iff. intros [H1 H2].
    split; [now apply refs_ok_impl|now apply fields_ok_impl].
  - rewrite !andb_true_iff. intros [H1 H2].
    split; [now apply refs_ok_impl|now apply fields_ok_impl].
  - apply refs_ok_impl.
  - apply input_fields_ok_impl.
Qed.

Lemma directive_ok_impl (directive : GraphQLDirective) :
  directive_ok ok directive = true -> directive_ok ok' directive = true.
Proof. apply args_ok_impl. Qed.

Lemma root_ok_impl (root : ref) :
  root_ok ok root = true -> root_ok ok' root = true.
Proof. destruct root; simpl; auto. Qed.

End Monotone.

Section Refines.

Variable localeCompare : LocaleCompare.
Variable isIntrospectionType : GraphQLNamedType -> bool.
Variable compareOptions : option CompareOptions.
Variable h : Heap.
Variable schema : GraphQLSchema.

Section SchemaOk.

Variable ok : ref -> bool.
Hypothesis sok : schema_ok ok isIntrospectionType h schema = true.

Lemma schema_ok_types (a : addr) :
  In a (schema_types schema) ->
  (a < List.length h)%nat
  /\ not_index (name_at h a) = true
  /\ (isIntrospectionType (type_at h a) = true
      \/ members_ok ok (type_at h a) = true).
Proof.
  intros Hin. unfold schema_ok in sok.
  repeat (apply andb_true_iff in sok; destruct sok as [sok ?]).
  rewrite forallb_forall in sok. specialize (sok a Hin).
  repeat (apply andb_true_iff in sok; destruct sok as [sok ?]).
  apply Nat.ltb_lt in sok. apply orb_true_iff in H4. tauto.
Qed.

Lemma schema_ok_names :
  NoDup (List.map (name_at h) (schema_types schema)).
Proof.
  unfold schema_ok in sok.
  repeat (apply andb_true_iff in sok; destruct sok as [sok ?]).
  now apply distinct_NoDup.
Qed.

Lemma schema_ok_directives (directive : GraphQLDirective) :
  In directive (schema_directives schema) ->
  directive_ok ok directive = true.
Proof.
  unfold schema_ok in sok.
  repeat (apply andb_true_iff in sok; destruct sok as [sok ?]).
  rewrite forallb_forall in H2. apply H2.
Qed.

Lemma schema_ok_roots :
  root_ok ok (query schema) = true
  /\ root_ok ok (mutation schema) = true
  /\ root_ok ok (subscription schema) = true.
Proof.
  unfold schema_ok in sok.
  repeat (apply andb_true_iff in sok; destruct sok as [sok ?]). tauto.
Qed.

End SchemaOk.

Section Accepted.

Hypothesis accepted : accepts localeCompare compareOptions.

(** On a schema whose references are to instances of the heap, and with
    locales and options the platform accepts, the sorter returns the
    sorted copy of the specification when every wrapper can be built
    again, and throws the error of a wrapper otherwise. *)
Lemma lexicographicSortSchema_in_heap :
  references_in_heap isIntrospectionType h schema = true ->
  returns_if
    (schema_all
       (rewrappable h
          (sorted_index localeCompare isIntrospectionType h compareOptions
             schema))
       isIntrospectionType h schema)
    (sorted_schema localeCompare isIntrospectionType h compareOptions schema)
    (lexicographicSortSchema localeCompare isIntrospectionType schema
       compareOptions h).
Proof.
  intros sok. unfold references_in_heap in sok.
  assert (Hheap : forall a, In a (schema_types schema) ->
                            (a < List.length h)%nat)
    by (intros a Ha; now apply (schema_ok_types _ sok)).
  destruct (schema_ok_roots _ sok) as [Hq [Hm Hs]].
  unfold lexicographicSortSchema, sortByName.
  rewrite (sortBy_stable localeCompare compareOptions accepted
             (schema_types schema) (fun obj => name_of h obj) (name_at h))
    by (intros a Ha; apply name_of_addr; now apply Hheap).
  cbn [bind]. unfold keyValMap, Object_create_null.
  destruct (keyValMap_reduce_index localeCompare isIntrospectionType
              compareOptions accepted h
              (stable_sort (by_name localeCompare h compareOptions)
                 (schema_types schema)) [] [])
    as [configs [Hr Hc]].
  { intros a Ha. apply stable_sort_In in Ha.
    now apply (schema_ok_types _ sok). }
  { simpl.
    eapply Permutation_NoDup;
      [apply Permutation_map, stable_sort_Permutation|].
    apply (schema_ok_names _ sok). }
  unfold by_name in Hr at 1. rewrite Hr. clear Hr.
  cbn [bind app List.length]. rewrite Nat.add_0_r.
  rewrite (sortBy_stable localeCompare compareOptions accepted
             (schema_directives schema) (fun obj => name_of h obj)
             directive_name) by reflexivity.
  cbn [bind].
  fold (sorted_index localeCompare isIntrospectionType h compareOptions
          schema).
  set (typeMap := sorted_index localeCompare isIntrospectionType h
                    compareOptions schema).
  pose proof (Array_map_cases
                (sortDirective localeCompare h compareOptions typeMap)
                (sorted_directive localeCompare h compareOptions typeMap)
                (fun directive =>
                   args_all (rewrappable h typeMap)
                     (directive_args directive))
                (stable_sort
                   (fun a b =>
                      compare_names localeCompare compareOptions
                        (directive_name a) (directive_name b))
                   (schema_directives schema)))
    as Hdirectives.
  rewrite <- (forallb_Permutation _ _ _
                (stable_sort_Permutation _ _ (schema_directives schema)))
    in Hdirectives.
  pose proof (resolve_all_thunks localeCompare compareOptions accepted h
                typeMap
                (rebuilt isIntrospectionType h
                   (stable_sort (by_name localeCompare h compareOptions)
                      (schema_types schema)))
                configs)
    as Htypes.
  rewrite rebuilt_members_all in Htypes.
  rewrite <- (forallb_Permutation _ _ _
                (stable_sort_Permutation _ _ (schema_types schema)))
    in Htypes.
  unfold schema_all.
  destruct (forallb
              (fun directive =>
                 args_all (rewrappable h typeMap) (directive_args directive))
              (schema_directives schema)).
  - rewrite andb_true_r. rewrite Hdirectives.
    2:{ intros d Hd. apply stable_sort_In in Hd.
        apply (sortDirective_cases localeCompare compareOptions accepted h).
        now apply (schema_ok_directives _ sok). }
    cbn [bind].
    rewrite !(replaceMaybeType_ok h) by assumption.
    cbn [bind]. unfold new_GraphQLSchema.
    assert (Hinstances :
              returns_if
                (forallb
                   (fun a =>
                      isIntrospectionType (type_at h a)
                      || members_all (rewrappable h typeMap) (type_at h a))
                   (schema_types schema))
                (List.map
                   (fun a =>
                      sorted_copy localeCompare h compareOptions typeMap
                        (type_at h a))
                   (rebuilt isIntrospectionType h
                      (stable_sort (by_name localeCompare h compareOptions)
                         (schema_types schema))))
                (Array_map
                   (resolve_thunks localeCompare h compareOptions typeMap)
                   configs)).
    { apply Htypes; [|exact Hc].
      intros a Ha. unfold rebuilt in Ha. apply filter_In in Ha.
      destruct Ha as [Ha Hp]. apply stable_sort_In in Ha.
      apply negb_true_iff in Hp.
      destruct (schema_ok_types _ sok a Ha) as [_ [_ [Hi|Hmem]]];
        [|exact Hmem].
      unfold passes_through in Hp. rewrite Hi, orb_true_r in Hp.
      discriminate. }
    destruct (forallb
                (fun a =>
                   isIntrospectionType (type_at h a)
                   || members_all (rewrappable h typeMap) (type_at h a))
                (schema_types schema)); simpl in *.
    + now rewrite Hinstances.
    + destruct Hinstances as [e [He ->]]. now exists e.
  - rewrite andb_false_r. simpl.
    destruct Hdirectives as [e [He ->]]; [|now exists e].
    intros d Hd. apply stable_sort_In in Hd.
    apply (sortDirective_cases localeCompare compareOptions accepted h).
    now apply (schema_ok_directives _ sok).
Qed.

End Accepted.

Hypothesis wf : well_formed isIntrospectionType h schema = true.

Lemma well_formed_types (a : addr) :
  In a (schema_types schema) ->
  (a < List.length h)%nat
  /\ not_index (name_at h a) = true
  /\ (isIntrospectionType (type_at h a) = true
      \/ members_ok (ref_ok (schema_types schema)) (type_at h a) = true).
Proof. exact (schema_ok_types _ wf a). Qed.

Lemma well_formed_in_heap (a : addr) :
  In a (schema_types schema) -> (a < List.length h)%nat.
Proof. intros Hin. now apply well_formed_types. Qed.

Lemma well_formed_names :
  NoDup (List.map (name_at h) (schema_types schema)).
Proof. exact (schema_ok_names _ wf). Qed.

Lemma well_formed_directives (directive : GraphQLDirective) :
  In directive (schema_directives schema) ->
  directive_ok (ref_ok (schema_types schema)) directive = true.
Proof. exact (schema_ok_directives _ wf directive). Qed.

Lemma well_formed_roots :
  root_ok (ref_ok (schema_types schema)) (query schema) = true
  /\ root_ok (ref_ok (schema_types schema)) (mutation schema) = true
  /\ root_ok (ref_ok (schema_types schema)) (subscription schema) = true.
Proof. exact (schema_ok_roots _ wf). Qed.

Lemma ref_ok_in_heap (type : ref) :
  ref_ok (schema_types schema) type = true -> ref_in_heap h type = true.
Proof.
  destruct type as [a|]; simpl; [|discriminate].
  intros H. apply Nat.ltb_lt, well_formed_in_heap.
  apply existsb_exists in H. destruct H as [b [Hin Heq]].
  apply Nat.eqb_eq in Heq. now subst.
Qed.

(** A well-formed schema is one the sorter takes. *)
Lemma well_formed_references :
  references_in_heap isIntrospectionType h schema = true.
Proof.
  pose proof wf as sok. unfold well_formed, schema_ok in sok.
  repeat (apply andb_true_iff in sok; destruct sok as [sok ?]).
  unfold references_in_heap, schema_ok. repeat (apply andb_true_iff; split);
    try assumption;
    try (eapply root_ok_impl; [apply ref_ok_in_heap|assumption]).
  - rewrite forallb_forall in *. intros a Ha. specialize (sok a Ha).
    repeat (apply andb_true_iff in sok; destruct sok as [sok ?]).
    repeat (apply andb_true_iff; split); try assumption.
    apply orb_true_iff in H4. apply orb_true_iff.
    destruct H4 as [H4|H4]; [now left|right].
    eapply members_ok_impl; [apply ref_ok_in_heap|exact H4].
  - rewrite forallb_forall in *. intros d Hd.
    eapply directive_ok_impl; [apply ref_ok_in_heap|now apply H2].
Qed.

End Refines.

(** ** The index of the sorted copy *)

Lemma replacements_length (isIntrospectionType : GraphQLNamedType -> bool)
  (h : Heap) (types : list addr) (next : nat) :
  List.length (replacements isIntrospectionType h next types)
  = List.length types.
Proof.
  revert next. induction types as [|a types IH]; intros next; [reflexivity|].
  simpl. destruct (passes_through isIntrospectionType (type_at h a)); simpl;
    now rewrite IH.
Qed.

Lemma combine_keys {A B : Type} (l1 : list A) (l2 : list B) :
  List.length l1 = List.length l2 ->
  List.map fst (combine l1 l2) = l1 /\ List.map snd (combine l1 l2) = l2.
Proof.
  revert l2. induction l1 as [|x l1 IH]; intros [|y l2] H; try discriminate.
  - now split.
  - simpl in *. injection H as H. destruct (IH l2 H) as [-> ->]. now split.
Qed.

Lemma type_name_sorted_copy
  (localeCompare : LocaleCompare)
  (h : Heap) (compareOptions : option CompareOptions)
  (typeMap : ObjMap addr) (type : GraphQLNamedType) :
  type_name (sorted_copy localeCompare h compareOptions typeMap type)
  = type_name type.
Proof. now destruct type. Qed.

Lemma replacements_heap (isIntrospectionType : GraphQLNamedType -> bool)
  (h : Heap) (f : addr -> GraphQLNamedType) (types : list addr) :
  (forall a, In a types -> (a < List.length h)%nat) ->
  forall (built : list GraphQLNamedType),
    Forall2
      (fun a a' =>
         nth_error
           (h ++ built ++ List.map f (rebuilt isIntrospectionType h types))
           a'
         = Some (if passes_through isIntrospectionType (type_at h a)
                 then type_at h a else f a)
         /\ (if passes_through isIntrospectionType (type_at h a)
             then a' = a else (List.length h <= a')%nat))
      types
      (replacements isIntrospectionType h
         (List.length h + List.length built) types).
Proof.
  induction types as [|a types IH]; intros Hin built; [constructor|].
  cbn [replacements rebuilt filter].
  fold (rebuilt isIntrospectionType h types).
  assert (Ha : (a < List.length h)%nat) by (apply Hin; now left).
  destruct (passes_through isIntrospectionType (type_at h a)) eqn:Hp;
    cbn [negb]; cbv beta iota.
  - constructor; [|apply IH; intros; apply Hin; now right].
    rewrite Hp. split; [|reflexivity].
    rewrite nth_error_app1 by exact Ha. unfold type_at.
    now apply nth_error_nth'.
  - constructor.
    + rewrite Hp. split; [|lia].
      rewrite nth_error_app2 by lia.
      replace (List.length h + List.length built - List.length h)%nat
        with (List.length built) by lia.
      rewrite nth_error_app2 by lia. rewrite Nat.sub_diag. reflexivity.
    + specialize (IH (fun b Hb => Hin b (or_intror Hb)) (built ++ [f a])).
      rewrite length_app in IH. cbn [List.length] in IH.
      replace (List.length h + (List.length built + 1))%nat
        with (S (List.length h + List.length built)) in IH by lia.
      rewrite <- app_assoc in IH. exact IH.
Qed.

Section IndexFacts.

Variable localeCompare : LocaleCompare.
Variable isIntrospectionType : GraphQLNamedType -> bool.
Variable compareOptions : option CompareOptions.
Variable h : Heap.
Variable schema : GraphQLSchema.
Hypothesis wf : references_in_heap isIntrospectionType h schema = true.

Let typeMap : ObjMap addr :=
  sorted_index localeCompare isIntrospectionType h compareOptions schema.
Let sorted : GraphQLSchema * Heap :=
  sorted_schema localeCompare isIntrospectionType h compareOptions schema.
Let sortedTypes : list addr :=
  stable_sort (by_name localeCompare h compareOptions) (schema_types schema).

Lemma sorted_index_keys :
  Object_keys typeMap = List.map (name_at h) sortedTypes
  /\ objectValues typeMap
     = replacements isIntrospectionType h (List.length h) sortedTypes.
Proof.
  unfold typeMap, sorted_index, Object_keys, objectValues.
  apply combine_keys. now rewrite length_map, replacements_length.
Qed.

Lemma sorted_index_NoDup : NoDup (Object_keys typeMap).
Proof.
  rewrite (proj1 sorted_index_keys).
  eapply Permutation_NoDup;
    [apply Permutation_map, stable_sort_Permutation|].
  now apply (schema_ok_names isIntrospectionType h schema _ wf).
Qed.

(** Every type of the input has its replacement in the index, under its own
    name, and the replacement is a type of the output. *)
Lemma sorted_index_types :
  Forall2
    (fun a e =>
       fst e = name_at h a
       /\ nth_error (snd sorted) (snd e)
          = Some (replacement_of localeCompare isIntrospectionType h
                    compareOptions typeMap a)
       /\ (if passes_through isIntrospectionType (type_at h a)
           then snd e = a else (List.length h <= snd e)%nat))
    sortedTypes typeMap.
Proof.
  assert (Hr := replacements_heap isIntrospectionType h
                  (fun a =>
                     sorted_copy localeCompare h compareOptions typeMap
                       (type_at h a))
                  sortedTypes).
  specialize (Hr (fun a Ha =>
                    proj1 (schema_ok_types isIntrospectionType h schema _ wf
                             a (proj1 (stable_sort_In _ _ _ a) Ha))) []).
  cbv beta in Hr.
  cbn [app List.length] in Hr. rewrite Nat.add_0_r in Hr.
  unfold typeMap at 2, sorted_index. fold sortedTypes.
  unfold sorted, sorted_schema. cbn [snd]. fold sortedTypes. fold typeMap.
  unfold replacement_of.
  revert Hr.
  generalize (replacements isIntrospectionType h (List.length h) sortedTypes).
  generalize (h ++ List.map
                     (fun a =>
                        sorted_copy localeCompare h compareOptions typeMap
                          (type_at h a))
                     (rebuilt isIntrospectionType h sortedTypes)).
  intros h' l Hr. induction Hr as [|a a' types' l' [H1 H2] _ IH];
    [constructor|].
  cbn [List.map combine]. constructor; [|exact IH]. cbn [fst snd].
  split; [reflexivity|]. split; [|exact H2].
  rewrite H1. now destruct (passes_through isIntrospectionType (type_at h a)).
Qed.

End IndexFacts.

(** ** Wrappers on a well-formed schema *)

Lemma type_ok_named (ok : ref -> bool) (type : GraphQLType) :
  type_ok ok type = true -> ok (named_type_of type) = true.
Proof. induction type; simpl; auto. Qed.

Section All.

Variables p q : GraphQLType -> bool.
Hypothesis p_q : forall type, p type = true -> q type = true.

Lemma args_all_impl (args : ObjMap GraphQLArgumentConfig) :
  args_all p args = true -> args_all q args = true.
Proof.
  unfold args_all. rewrite !forallb_forall. intros H e He.
  now apply p_q, H.
Qed.

Lemma fields_all_impl (fields : ObjMap GraphQLFieldConfig) :
  fields_all p fields = true -> fields_all q fields = true.
Proof.
  unfold fields_all. rewrite !forallb_forall. intros H e He.
  specialize (H e He). apply andb_true_iff in H. destruct H as [H1 H2].
  apply andb_true_iff. split; [now apply p_q|now apply args_all_impl].
Qed.

Lemma input_fields_all_impl (fields : ObjMap GraphQLInputFieldConfig) :
  input_fields_all p fields = true -> input_fields_all q fields = true.
Proof.
  unfold input_fields_all. rewrite !forallb_forall. intros H e He.
  now apply p_q, H.
Qed.

Lemma members_all_impl (type : GraphQLNamedType) :
  members_all p type = true -> members_all q type = true.
Proof.
  destruct type; simpl; try tauto;
    [apply fields_all_impl|apply fields_all_impl|apply input_fields_all_impl].
Qed.

End All.

Section OkAll.

Variable ok : ref -> bool.

Lemma args_ok_all (args : ObjMap GraphQLArgumentConfig) :
  args_ok ok args = true -> args_all (type_ok ok) args = true.
Proof. unfold args_ok. rewrite andb_true_iff. now intros [_ H]. Qed.

Lemma fields_ok_all (fields : ObjMap GraphQLFieldConfig) :
  fields_ok ok fields = true -> fields_all (type_ok ok) fields = true.
Proof.
  unfold fields_ok, fields_all. rewrite andb_true_iff, !forallb_forall.
  intros [_ H] e He. specialize (H e He). apply andb_true_iff in H.
  destruct H as [H1 H2]. rewrite H1. now apply args_ok_all.
Qed.

Lemma input_fields_ok_all (fields : ObjMap GraphQLInputFieldConfig) :
  input_fields_ok ok fields = true ->
  input_fields_all (type_ok ok) fields = true.
Proof. unfold input_fields_ok. rewrite andb_true_iff. now intros [_ H]. Qed.

Lemma members_ok_all (type : GraphQLNamedType) :
  members_ok ok type = true -> members_all (type_ok ok) type = true.
Proof.
  destruct type; simpl; try tauto.
  - rewrite andb_true_iff. intros [_ H]. now apply fields_ok_all.
  - rewrite andb_true_iff. intros [_ H]. now apply fields_ok_all.
  - apply input_fields_ok_all.
Qed.

End OkAll.

Section WellFormedRuns.

Variable localeCompare : LocaleCompare.
Variable isIntrospectionType : GraphQLNamedType -> bool.
Variable compareOptions : option CompareOptions.
Variable h : Heap.
Variable schema : GraphQLSchema.

Let typeMap : ObjMap addr :=
  sorted_index localeCompare isIntrospectionType h compareOptions schema.

(** The index has an entry for every type of the schema. *)
Lemma sorted_index_has (a : addr) :
  In a (schema_types schema) ->
  exists a', obj_get typeMap (name_at h a) = Some a'.
Proof.
  intros Hin. destruct (obj_get typeMap (name_at h a)) as [a'|] eqn:E;
    [now exists a'|].
  apply obj_get_None in E. exfalso. apply E.
  unfold typeMap.
  rewrite (proj1 (sorted_index_keys localeCompare isIntrospectionType
                    compareOptions h schema)).
  apply in_map. now apply stable_sort_In.
Qed.

Lemma ref_ok_rewrappable (type : GraphQLType) :
  type_ok (ref_ok (schema_types schema)) type = true ->
  rewrappable h typeMap type = true.
Proof.
  intros H. apply type_ok_named in H.
  destruct (ref_ok_In _ _ H) as [a [Ha Hin]].
  destruct (sorted_index_has a Hin) as [a' Ha'].
  destruct type as [r|t|t]; [reflexivity| |];
    unfold rewrappable; rewrite Ha; cbn [replaced_ref]; now rewrite Ha'.
Qed.

Hypothesis wf : well_formed isIntrospectionType h schema = true.

(** On a well-formed schema every wrapper can be built again. *)
Lemma well_formed_rewrappable :
  schema_all (rewrappable h typeMap) isIntrospectionType h schema = true.
Proof.
  unfold schema_all. apply andb_true_iff. split; apply forallb_forall.
  - intros a Ha.
    destruct (well_formed_types isIntrospectionType h schema wf a Ha)
      as [_ [_ [Hi|Hm]]]; [now rewrite Hi|].
    apply orb_true_iff. right.
    apply (members_all_impl _ _ ref_ok_rewrappable).
    now apply members_ok_all.
  - intros d Hd.
    apply (args_all_impl _ _ ref_ok_rewrappable).
    apply args_ok_all.
    exact (well_formed_directives isIntrospectionType h schema wf d Hd).
Qed.

(** On a well-formed schema, with locales and options the platform
    accepts, the sorter returns, and what it returns is the sorted copy of
    the specification. *)
Lemma lexicographicSortSchema_sorted_schema :
  accepts localeCompare compareOptions ->
  lexicographicSortSchema localeCompare isIntrospectionType schema
    compareOptions h
  = Ok (sorted_schema localeCompare isIntrospectionType h compareOptions
          schema).
Proof.
  intros accepted.
  pose proof (lexicographicSortSchema_in_heap localeCompare
                isIntrospectionType compareOptions h schema accepted
                (well_formed_references isIntrospectionType h schema wf))
    as H.
  fold typeMap in H. now rewrite well_formed_rewrappable in H.
Qed.

End WellFormedRuns.

(** ** A comparator that throws

    What the sorter returns with a comparator it returns with any
    comparator that returns the same numbers where the first returns. *)

Lemma bind_as {A B : Type} (r r' : result A) (k k' : A -> result B) :
  returns_as r r' -> (forall x, returns_as (k x) (k' x)) ->
  returns_as (bind r k) (bind r' k').
Proof.
  intros Hr Hk y H. destruct r as [x|e]; [|discriminate].
  rewrite (Hr x eq_refl). now apply Hk.
Qed.

Lemma returns_as_refl {A : Type} (r : result A) : returns_as r r.
Proof. now intros x. Qed.

Lemma sort_insert_as {T : Type} (comparefn comparefn' : T -> T -> result Z)
  (x : T) (l : list T) :
  (forall x y, returns_as (comparefn x y) (comparefn' x y)) ->
  returns_as (sort_insert comparefn x l) (sort_insert comparefn' x l).
Proof.
  intros H. induction l as [|y l IH]; [apply returns_as_refl|].
  cbn [sort_insert]. apply bind_as; [apply H|].
  intros c. destruct (c <=? 0)%Z; [apply returns_as_refl|].
  apply bind_as; [exact IH|]. intros r. apply returns_as_refl.
Qed.

Lemma Array_sort_as {T : Type} (comparefn comparefn' : T -> T -> result Z)
  (l : list T) :
  (forall x y, returns_as (comparefn x y) (comparefn' x y)) ->
  returns_as (Array_sort comparefn l) (Array_sort comparefn' l).
Proof.
  intros H. induction l as [|x l IH]; [apply returns_as_refl|].
  cbn [Array_sort]. apply bind_as; [exact IH|].
  intros s. now apply sort_insert_as.
Qed.

Lemma Array_map_as {A B : Type} (f f' : A -> result B) (l : list A) :
  (forall x, returns_as (f x) (f' x)) ->
  returns_as (Array_map f l) (Array_map f' l).
Proof.
  intros H. induction l as [|x l IH]; [apply returns_as_refl|].
  cbn [Array_map]. apply bind_as; [apply H|].
  intros y. apply bind_as; [exact IH|]. intros r. apply returns_as_refl.
Qed.

Lemma keyValMap_reduce_as {T V S : Type} (list : list T)
  (keyFn : T -> result string) (valFn valFn' : T -> S -> result (V * S))
  (map : ObjMap V) (s : S) :
  (forall item s, returns_as (valFn item s) (valFn' item s)) ->
  returns_as (keyValMap_reduce list keyFn valFn map s)
    (keyValMap_reduce list keyFn valFn' map s).
Proof.
  intros H. revert map s.
  induction list as [|item rest IH]; intros map s; [apply returns_as_refl|].
  cbn [keyValMap_reduce]. apply bind_as; [apply returns_as_refl|].
  intros key. apply bind_as; [apply H|]. intros [value s1]. apply IH.
Qed.

Lemma returning_extends (localeCompare : LocaleCompare) :
  extends localeCompare (returning localeCompare).
Proof. intros locales options compare H. unfold returning. now rewrite H. Qed.

Lemma returning_accepts (localeCompare : LocaleCompare)
  (compareOptions : option CompareOptions) :
  accepts (returning localeCompare) compareOptions.
Proof. unfold accepts, returning. now eexists. Qed.

Section Extends.

Variables localeCompare localeCompare' : LocaleCompare.
Hypothesis extended : extends localeCompare localeCompare'.
Variable isIntrospectionType : GraphQLNamedType -> bool.
Variable compareOptions : option CompareOptions.

Lemma String_localeCompare_as (key1 key2 : string)
  (locales : option (list string)) (options : option CollatorOptions) :
  returns_as (String_localeCompare localeCompare key1 key2 locales options)
    (String_localeCompare localeCompare' key1 key2 locales options).
Proof.
  intros c. unfold String_localeCompare.
  destruct (localeCompare locales options) as [compare|] eqn:E;
    [|discriminate].
  now rewrite (extended _ _ _ E).
Qed.

Lemma sortBy_as {T : Type} (array : list T) (mapToKey : T -> result string) :
  returns_as (sortBy localeCompare array mapToKey compareOptions)
    (sortBy localeCompare' array mapToKey compareOptions).
Proof.
  unfold sortBy. apply Array_sort_as. intros x y.
  apply bind_as; [apply returns_as_refl|]. intros key1.
  apply bind_as; [apply returns_as_refl|]. intros key2.
  apply String_localeCompare_as.
Qed.

Lemma sortObjMap_loop_as {T R : Type} (map : ObjMap T)
  (sortValueFn sortValueFn' : T -> result R) (sortedKeys : list string)
  (sortedMap : ObjMap R) :
  (forall value, returns_as (sortValueFn value) (sortValueFn' value)) ->
  returns_as (sortObjMap_loop map sortValueFn sortedKeys sortedMap)
    (sortObjMap_loop map sortValueFn' sortedKeys sortedMap).
Proof.
  intros H. revert sortedMap.
  induction sortedKeys as [|key rest IH]; intros sortedMap;
    [apply returns_as_refl|].
  cbn [sortObjMap_loop]. destruct (obj_get map key) as [value|];
    [|apply returns_as_refl].
  apply bind_as; [apply H|]. intros v. apply IH.
Qed.

Lemma sortObjMap_as {T R : Type} (map : ObjMap T)
  (sortValueFn sortValueFn' : T -> result R) :
  (forall value, returns_as (sortValueFn value) (sortValueFn' value)) ->
  returns_as (sortObjMap localeCompare map sortValueFn compareOptions)
    (sortObjMap localeCompare' map sortValueFn' compareOptions).
Proof.
  intros H. unfold sortObjMap. apply bind_as; [apply sortBy_as|].
  intros sortedKeys. now apply sortObjMap_loop_as.
Qed.

Variable h : Heap.

Section ExtendsClosure.

Variable typeMap : ObjMap addr.

Lemma sortArgs_as (args : ObjMap GraphQLArgumentConfig) :
  returns_as (sortArgs localeCompare h compareOptions typeMap args)
    (sortArgs localeCompare' h compareOptions typeMap args).
Proof.
  unfold sortArgs. apply sortObjMap_as. intros arg. apply returns_as_refl.
Qed.

Lemma sortFields_as (fields : ObjMap GraphQLFieldConfig) :
  returns_as (sortFields localeCompare h compareOptions typeMap fields)
    (sortFields localeCompare' h compareOptions typeMap fields).
Proof.
  unfold sortFields. apply sortObjMap_as. intros field.
  apply bind_as; [apply returns_as_refl|]. intros type.
  apply bind_as; [apply sortArgs_as|]. intros args. apply returns_as_refl.
Qed.

Lemma sortInputFields_as (fields : ObjMap GraphQLInputFieldConfig) :
  returns_as (sortInputFields localeCompare h compareOptions typeMap fields)
    (sortInputFields localeCompare' h compareOptions typeMap fields).
Proof.
  unfold sortInputFields. apply sortObjMap_as. intros field.
  apply returns_as_refl.
Qed.

Lemma sortTypes_as (arr : list ref) :
  returns_as (sortTypes localeCompare h compareOptions typeMap arr)
    (sortTypes localeCompare' h compareOptions typeMap arr).
Proof.
  unfold sortTypes, sortByName. apply bind_as; [apply sortBy_as|].
  intros sorted. apply returns_as_refl.
Qed.

Lemma sortDirective_as (directive : GraphQLDirective) :
  returns_as (sortDirective localeCompare h compareOptions typeMap directive)
    (sortDirective localeCompare' h compareOptions typeMap directive).
Proof.
  unfold sortDirective. apply bind_as; [apply sortBy_as|].
  intros locations. apply bind_as; [apply sortArgs_as|].
  intros args. apply returns_as_refl.
Qed.

Lemma resolve_thunks_as (config : TypeConfig) :
  returns_as (resolve_thunks localeCompare h compareOptions typeMap config)
    (resolve_thunks localeCompare' h compareOptions typeMap config).
Proof.
  destruct config; cbn [resolve_thunks]; try apply returns_as_refl;
    repeat (apply bind_as;
            [first [apply sortTypes_as | apply sortFields_as
                   | apply sortInputFields_as]
            |intros ?]);
    apply returns_as_refl.
Qed.

End ExtendsClosure.

Lemma sortNamedType_as (type : addr) (pending : list TypeConfig) :
  returns_as
    (sortNamedType localeCompare isIntrospectionType h compareOptions type
       pending)
    (sortNamedType localeCompare' isIntrospectionType h compareOptions type
       pending).
Proof.
  unfold sortNamedType. apply bind_as; [apply returns_as_refl|]. intros t.
  destruct (isScalarType t || isIntrospectionType t);
    [apply returns_as_refl|].
  destruct t; try apply returns_as_refl.
  apply bind_as; [|intros values'; apply returns_as_refl].
  apply sortObjMap_as. intros value. apply returns_as_refl.
Qed.

Lemma lexicographicSortSchema_as (schema : GraphQLSchema) :
  returns_as
    (lexicographicSortSchema localeCompare isIntrospectionType schema
       compareOptions h)
    (lexicographicSortSchema localeCompare' isIntrospectionType schema
       compareOptions h).
Proof.
  unfold lexicographicSortSchema, sortByName, keyValMap.
  apply bind_as; [apply sortBy_as|]. intros sortedTypes.
  apply bind_as;
    [apply keyValMap_reduce_as; intros; apply sortNamedType_as|].
  intros [map pending].
  apply bind_as; [apply sortBy_as|]. intros sortedDirectives.
  apply bind_as; [apply Array_map_as; intros; apply sortDirective_as|].
  intros directives.
  apply bind_as; [apply returns_as_refl|]. intros query'.
  apply bind_as; [apply returns_as_refl|]. intros mutation'.
  apply bind_as; [apply returns_as_refl|]. intros subscription'.
  unfold new_GraphQLSchema.
  apply bind_as; [apply Array_map_as; intros; apply resolve_thunks_as|].
  intros instances. apply returns_as_refl.
Qed.

End Extends.

(** What a [sort] that returns has returned: the stable sort under the
    numbers the comparison function returned. *)
Lemma sort_insert_returned {T : Type} (comparefn : T -> T -> result Z)
  (compare : T -> T -> Z) (x : T) (l out : list T) :
  (forall y c, In y l -> comparefn x y = Ok c -> compare x y = c) ->
  sort_insert comparefn x l = Ok out -> out = stable_insert compare x l.
Proof.
  revert out. induction l as [|y l IH]; intros out Hc H.
  - now injection H as <-.
  - cbn [sort_insert] in H. destruct (comparefn x y) as [c|e] eqn:E;
      [|discriminate].
    cbn [bind] in H. cbn [stable_insert].
    rewrite (Hc y c (or_introl eq_refl) E).
    destruct (c <=? 0)%Z; [now injection H as <-|].
    destruct (sort_insert comparefn x l) as [r|e] eqn:Er; [|discriminate].
    cbn [bind] in H. injection H as <-. f_equal.
    apply IH; [|reflexivity]. intros z c' Hz. apply Hc. now right.
Qed.

Lemma Array_sort_returned {T : Type} (comparefn : T -> T -> result Z)
  (compare : T -> T -> Z) (l out : list T) :
  (forall x y c,
      In x l -> In y l -> comparefn x y = Ok c -> compare x y = c) ->
  Array_sort comparefn l = Ok out -> out = stable_sort compare l.
Proof.
  revert out. induction l as [|x l IH]; intros out Hc H.
  - now injection H as <-.
  - cbn [Array_sort] in H.
    destruct (Array_sort comparefn l) as [s|e] eqn:Es; [|discriminate].
    cbn [bind] in H. cbn [stable_sort].
    assert (Hs : s = stable_sort compare l).
    { apply IH; [|reflexivity]. intros y z c Hy Hz.
      apply Hc; now right. }
    subst s. apply (sort_insert_returned comparefn); [|exact H].
    intros y c Hy. apply Hc; [now left|right].
    now apply stable_sort_In in Hy.
Qed.

Lemma sortBy_returned (localeCompare : LocaleCompare)
  (compareOptions : option CompareOptions) {T : Type} (array out : list T)
  (mapToKey : T -> result string) (key : T -> string) :
  (forall x k, In x array -> mapToKey x = Ok k -> key x = k) ->
  sortBy localeCompare array mapToKey compareOptions = Ok out ->
  out
  = stable_sort
      (fun a b => compare_names localeCompare compareOptions (key a) (key b))
      array.
Proof.
  intros Hkey. unfold sortBy, Array_slice. apply Array_sort_returned.
  intros x y c Hx Hy H.
  destruct (mapToKey x) as [k1|e] eqn:E1; [|discriminate].
  destruct (mapToKey y) as [k2|e] eqn:E2; [|discriminate].
  cbn [bind] in H. rewrite (Hkey x k1 Hx E1), (Hkey y k2 Hy E2).
  unfold String_localeCompare in H. unfold compare_names.
  destruct (localeCompare (optional_locales compareOptions)
              (optional_options compareOptions)); [|discriminate].
  now injection H as <-.
Qed.

Lemma sortBy_keys_returned (localeCompare : LocaleCompare)
  (compareOptions : option CompareOptions) (keys out : list string) :
  sortBy localeCompare keys (fun x => Ok x) compareOptions = Ok out ->
  out = stable_sort (compare_names localeCompare compareOptions) keys.
Proof.
  apply (sortBy_returned localeCompare compareOptions keys out
           (fun x => Ok x) (fun x => x)).
  intros x k _ H. now injection H.
Qed.

(** ** Exceptions of the sorter *)

Lemma bind_Ok {A B : Type} (c : result A) (k : A -> result B) (b : B) :
  bind c k = Ok b -> exists a, c = Ok a /\ k a = Ok b.
Proof. destruct c as [a|e]; simpl; [now exists a|discriminate]. Qed.

Lemma sortObjMap_loop_returns {T R : Type} (map : ObjMap T) (f : T -> R)
  (keys : list string) (sortedMap : ObjMap R) :
  (forall key, In key keys -> In key (Object_keys map)) ->
  exists out,
    sortObjMap_loop map (fun value => Ok (f value)) keys sortedMap = Ok out.
Proof.
  revert sortedMap. induction keys as [|key keys IH]; intros sortedMap Hin.
  - now exists sortedMap.
  - simpl. destruct (obj_get map key) as [value|] eqn:Hget.
    + simpl. apply IH. intros k Hk. apply Hin. now right.
    + apply obj_get_None in Hget. exfalso. apply Hget, Hin. now left.
Qed.

Lemma sortBy_throws
  (localeCompare : LocaleCompare)
  (compareOptions : option CompareOptions) {T : Type} (array : list T)
  (mapToKey : T -> result string) (e : error) :
  sortBy localeCompare array mapToKey compareOptions = Throw e ->
  (exists x, In x array /\ mapToKey x = Throw e)
  \/ (e = RangeError /\ ~ accepts localeCompare compareOptions).
Proof.
  unfold sortBy, Array_slice. intros H. apply Array_sort_throws in H.
  destruct H as [x [y [Hx [Hy Hc]]]].
  destruct (mapToKey x) as [k1|e1] eqn:H1.
  - destruct (mapToKey y) as [k2|e2] eqn:H2.
    + right. cbn [bind] in Hc. unfold String_localeCompare in Hc.
      destruct (localeCompare (optional_locales compareOptions)
                  (optional_options compareOptions)) eqn:E; [discriminate|].
      injection Hc as <-. split; [reflexivity|].
      intros [compare Hcompare]. unfold accepts in *. congruence.
    + left. simpl in Hc. injection Hc as ->. now exists y.
  - left. simpl in Hc. injection Hc as ->. now exists x.
Qed.

(** Sorting keys throws only what the comparator throws. *)
Lemma sortBy_keys_throws
  (localeCompare : LocaleCompare)
  (compareOptions : option CompareOptions) (keys : list string) (e : error) :
  sortBy localeCompare keys (fun x => Ok x) compareOptions = Throw e ->
  e = RangeError /\ ~ accepts localeCompare compareOptions.
Proof.
  intros H. apply sortBy_throws in H.
  destruct H as [[x [_ Hx]]|H]; [discriminate|exact H].
Qed.

(** A comparator either accepts the locales and the options or does
    not. *)
Lemma accepts_dec
  (localeCompare : LocaleCompare)
  (compareOptions : option CompareOptions) :
  accepts localeCompare compareOptions
  \/ ~ accepts localeCompare compareOptions.
Proof.
  unfold accepts.
  destruct (localeCompare (optional_locales compareOptions)
              (optional_options compareOptions)) as [compare|];
    [left; now exists compare|right; now intros [compare H]].
Qed.

(** Names are in order under a comparator only if it accepts the locales
    and the options. *)
Lemma name_le_accepts
  (localeCompare : LocaleCompare)
  (compareOptions : option CompareOptions) (a b : string) :
  name_le localeCompare compareOptions a b ->
  accepts localeCompare compareOptions.
Proof.
  unfold name_le, compare_names, accepts.
  destruct (localeCompare (optional_locales compareOptions)
              (optional_options compareOptions)) as [compare|];
    [now exists compare|lia].
Qed.

Lemma total_comparator_accepts
  (localeCompare : LocaleCompare)
  (compareOptions : option CompareOptions) :
  total_comparator localeCompare compareOptions ->
  accepts localeCompare compareOptions.
Proof.
  intros total. destruct (total EmptyString EmptyString) as [H|H];
    exact (name_le_accepts _ _ _ _ H).
Qed.

Lemma sortObjMap_no_sortValueFn_returns
  (localeCompare : LocaleCompare)
  (compareOptions : option CompareOptions) {T : Type} (map : ObjMap T) :
  accepts localeCompare compareOptions ->
  exists out,
    sortObjMap localeCompare map no_sortValueFn compareOptions = Ok out.
Proof.
  intros accepted. unfold sortObjMap.
  rewrite (sortBy_keys localeCompare compareOptions accepted). simpl.
  apply (sortObjMap_loop_returns map (fun value => value)).
  intros key Hin. now apply stable_sort_In in Hin.
Qed.

(** Without a [sortValueFn], [sortObjMap] throws only what the comparator
    throws. *)
Lemma sortObjMap_no_sortValueFn_throws
  (localeCompare : LocaleCompare)
  (compareOptions : option CompareOptions) {T : Type} (map : ObjMap T)
  (e : error) :
  sortObjMap localeCompare map no_sortValueFn compareOptions = Throw e ->
  e = RangeError /\ ~ accepts localeCompare compareOptions.
Proof.
  unfold sortObjMap.
  destruct (sortBy localeCompare (Object_keys map) (fun x => Ok x)
              compareOptions) as [keys|e'] eqn:E; cbn [bind].
  - apply sortBy_keys_returned in E. subst keys. intros H.
    destruct (sortObjMap_loop_returns map (fun value => value)
                (stable_sort (compare_names localeCompare compareOptions)
                   (Object_keys map)) Object_create_null)
      as [out Hout].
    + intros key Hin. now apply stable_sort_In in Hin.
    + unfold no_sortValueFn in H. congruence.
  - intros H. injection H as ->. now apply sortBy_keys_throws in E.
Qed.

(** With a locale the platform rejects the comparator throws at the first
    comparison, and the sorter with it; an array of one element is not
    compared. *)
Example rejected_locale_throws :
  sortBy example_localeCompare ["b"; "a"] (fun x => Ok x) not_a_locale
  = Throw RangeError
  /\ sortBy example_localeCompare ["b"] (fun x => Ok x) not_a_locale
     = Ok ["b"]
  /\ lexicographicSortSchema example_localeCompare
       example_isIntrospectionType cyclic_schema not_a_locale cyclic_heap
     = Throw RangeError.
Proof. repeat split. Qed.

(** Keys that are array indices are enumerated first and in numeric
    order, whatever the order they were assigned in: for such keys the map
    [sortObjMap] returns is not in the order of the comparator.  GraphQL
    names are no such keys. *)
Example index_keys_are_enumerated_first :
  sortObjMap example_localeCompare [("b", 1); ("10", 2); ("9", 3)]%nat
    no_sortValueFn None
  = Ok [("9", 3); ("10", 2); ("b", 1)]%nat.
Proof. reflexivity. Qed.

(** C9. [sortNamedType] is a total dispatch over the kinds of named types:
    for a scalar, an introspection type, an object, an interface, a union,
    an enum or an input object the invariant violation is not thrown, the
    call throws nothing but the [RangeError] of a comparator that does
    not accept the locales or the options, and it returns when the
    comparator accepts them; for a value of no such kind it throws the
    invariant violation. *)
Theorem sortNamedType_total_dispatch
  (localeCompare : LocaleCompare)
  (isIntrospectionType : GraphQLNamedType -> bool) (h : Heap)
  (compareOptions : option CompareOptions) (type : addr)
  (t : GraphQLNamedType) (pending : list TypeConfig) :
  instance_at h type = Ok t ->
  (isScalarType t || isIntrospectionType t || isObjectType t
   || isInterfaceType t || isUnionType t || isEnumType t
   || isInputObjectType t = true ->
   (forall message,
       sortNamedType localeCompare isIntrospectionType h compareOptions type
         pending
       <> Throw (InvariantViolation message))
   /\ (forall e,
         sortNamedType localeCompare isIntrospectionType h compareOptions
           type pending
         = Throw e ->
         e = RangeError /\ ~ accepts localeCompare compareOptions)
   /\ (accepts localeCompare compareOptions ->
       exists replacement pending',
         sortNamedType localeCompare isIntrospectionType h compareOptions
           type pending
         = Ok (replacement, pending')))
  /\ (isScalarType t || isIntrospectionType t || isObjectType t
      || isInterfaceType t || isUnionType t || isEnumType t
      || isInputObjectType t = false ->
      sortNamedType localeCompare isIntrospectionType h compareOptions type
        pending
      = Throw (InvariantViolation ("Unexpected type: " ++ inspect t))).
Proof.
  intros Hat. split.
  - intros Hkind.
    assert (Hthrows :
              forall e,
                sortNamedType localeCompare isIntrospectionType h
                  compareOptions type pending
                = Throw e ->
                e = RangeError /\ ~ accepts localeCompare compareOptions).
    { intros e. unfold sortNamedType. rewrite Hat. cbn [bind].
      destruct (isScalarType t || isIntrospectionType t) eqn:Hp;
        [discriminate|].
      apply orb_false_iff in Hp. destruct Hp as [Hs Hi].
      destruct t; simpl in *; try discriminate;
        try (rewrite Hi in Hkind; discriminate).
      destruct (sortObjMap localeCompare values no_sortValueFn
                  compareOptions) as [out|e'] eqn:E; [discriminate|].
      cbn [bind]. intros H. injection H as ->.
      now apply (sortObjMap_no_sortValueFn_throws _ _ values). }
    split; [|split; [exact Hthrows|]].
    + intros message H. now destruct (Hthrows _ H).
    + intros accepted.
      destruct (sortNamedType localeCompare isIntrospectionType h
                  compareOptions type pending)
        as [[replacement pending']|e] eqn:E;
        [now exists replacement, pending'|].
      now destruct (Hthrows e eq_refl).
  - intros Hkind. unfold sortNamedType. rewrite Hat. cbn [bind].
    destruct (isScalarType t || isIntrospectionType t) eqn:Hp.
    + simpl in Hkind. discriminate.
    + destruct t; simpl in *; try discriminate; reflexivity.
Qed.

(** C1 (counterexample). A schema whose type [Query] has a field of a type
    that is not among the types of the schema: the sorter returns, and the
    field of the sorted copy has no type. *)
Lemma absent_type_is_not_reported :
  has_reference_to_absent_type dangling_heap dangling_schema = true
  /\ lexicographicSortSchema example_localeCompare
       example_isIntrospectionType dangling_schema None dangling_heap
     = Ok ({| schema_types := [2];
              schema_directives := [];
              query := Some 2;
              mutation := None;
              subscription := None;
              schema_rest := "" |},
           dangling_heap
           ++ [GraphQLObjectType "Query" []
                 [("ghost", field_of (Named None))] ""]).
Proof. split; reflexivity. Qed.

(** A list or a non-null type cannot be built around [undefined]: for a
    field that is a list of a type that is not among the types of the
    schema, and for one that is such a type and non-null, [replaceType]
    throws the error of the wrapper, and so does the sorter. *)
Example absent_type_under_a_wrapper_is_reported :
  replaceType dangling_list_heap [("Query", 2%nat)]
    (GraphQLList (Named (Some 1%nat)))
  = Throw (Error "Expected undefined to be a GraphQL type.")
  /\ replaceType dangling_list_heap [("Query", 2%nat)]
       (GraphQLNonNull (Named (Some 1%nat)))
     = Throw (Error "Expected undefined to be a GraphQL nullable type.")
  /\ lexicographicSortSchema example_localeCompare
       example_isIntrospectionType dangling_schema None dangling_list_heap
     = Throw (Error "Expected undefined to be a GraphQL type.").
Proof. repeat split. Qed.

(** [replaceNamedType] checks nothing: it returns what the index holds
    under the name of the type, which for a name that is absent from the
    index is [undefined], and it does not throw. *)
Lemma replaceNamedType_returns_index_entry (h : Heap)
  (typeMap : ObjMap addr) (type : addr) (t : GraphQLNamedType) :
  nth_error h type = Some t ->
  replaceNamedType h typeMap (Some type) = Ok (obj_get typeMap (type_name t))
  /\ (obj_get typeMap (type_name t) = None ->
      replaceNamedType h typeMap (Some type) = Ok None).
Proof.
  intros Hat.
  assert (H : replaceNamedType h typeMap (Some type)
              = Ok (obj_get typeMap (type_name t))).
  { unfold replaceNamedType, name_of, ref_HasName, name_of, addr_HasName,
      instance_at. now rewrite Hat. }
  split; [exact H|]. intros Habsent. now rewrite H, Habsent.
Qed.

(** ** The input is left as it was *)

Lemma write_cell_other {T : Type} (store : Store T) (array a : nat)
  (elements : list T) :
  a <> array ->
  nth_error (write_cell store array elements) a = nth_error store a.
Proof.
  revert array a. induction store as [|cell store IH]; intros array a Hne.
  - now destruct array.
  - destruct array as [|n], a as [|m]; simpl; try reflexivity;
      [congruence|]. apply IH. congruence.
Qed.

Lemma write_cell_same {T : Type} (store : Store T) (array : nat)
  (elements : list T) :
  (array < List.length store)%nat ->
  nth_error (write_cell store array elements) array = Some elements.
Proof.
  revert array. induction store as [|cell store IH]; intros array Hlt.
  - simpl in Hlt. lia.
  - destruct array as [|n]; simpl; [reflexivity|]. apply IH.
    simpl in Hlt. lia.
Qed.

Lemma sortBy_cells_frame
  (localeCompare : LocaleCompare)
  (compareOptions : option CompareOptions) {T : Type} (array : nat)
  (mapToKey : T -> result string) (store : Store T) (a : nat)
  (cell : list T) :
  nth_error store a = Some cell ->
  nth_error (snd (sortBy_cells localeCompare array mapToKey compareOptions
                    store)) a
  = Some cell.
Proof.
  intros Ha.
  assert (Hlt : (a < List.length store)%nat)
    by (apply nth_error_Some; congruence).
  unfold sortBy_cells, slice_cell.
  destruct (nth_error store array) as [elements|]; [|exact Ha].
  unfold sort_cell. rewrite nth_error_app2 by lia.
  rewrite Nat.sub_diag. cbn [nth_error].
  destruct (Array_sort _ (Array_slice elements)) as [sorted|e]; cbn [snd].
  - rewrite write_cell_other by lia. now rewrite nth_error_app1.
  - now rewrite nth_error_app1.
Qed.

(** On cells [sortBy] returns a new cell, holding what [sortBy] returns on
    the elements of the array. *)
Lemma sortBy_cells_sortBy
  (localeCompare : LocaleCompare)
  (compareOptions : option CompareOptions) {T : Type} (array : nat)
  (mapToKey : T -> result string) (store : Store T) (copy : nat) :
  fst (sortBy_cells localeCompare array mapToKey compareOptions store)
  = Ok copy ->
  copy = List.length store
  /\ exists elements sorted,
       nth_error store array = Some elements
       /\ sortBy localeCompare elements mapToKey compareOptions = Ok sorted
       /\ nth_error
            (snd (sortBy_cells localeCompare array mapToKey compareOptions
                    store)) copy
          = Some sorted.
Proof.
  unfold sortBy_cells, slice_cell, sortBy.
  destruct (nth_error store array) as [elements|]; [|discriminate].
  unfold sort_cell. rewrite nth_error_app2 by lia.
  rewrite Nat.sub_diag. cbn [nth_error].
  destruct (Array_sort _ (Array_slice elements)) as [sorted|e] eqn:Hs;
    cbn [fst snd]; [|discriminate].
  intros H. injection H as <-. split; [reflexivity|].
  exists elements, sorted.
  split; [reflexivity|]. split; [exact Hs|].
  apply write_cell_same. rewrite length_app. simpl. lia.
Qed.

Lemma lexicographicSortSchema_extends_heap
  (localeCompare : LocaleCompare)
  (isIntrospectionType : GraphQLNamedType -> bool) (schema : GraphQLSchema)
  (compareOptions : option CompareOptions) (h : Heap)
  (schema' : GraphQLSchema) (h' : Heap) :
  lexicographicSortSchema localeCompare isIntrospectionType schema
    compareOptions h
  = Ok (schema', h') ->
  exists instances, h' = h ++ instances.
Proof.
  unfold lexicographicSortSchema. intros H.
  apply bind_Ok in H. destruct H as [sortedTypes [_ H]].
  apply bind_Ok in H. destruct H as [[typeMap pending] [_ H]].
  apply bind_Ok in H. destruct H as [sortedDirectives [_ H]].
  apply bind_Ok in H. destruct H as [directives [_ H]].
  apply bind_Ok in H. destruct H as [query' [_ H]].
  apply bind_Ok in H. destruct H as [mutation' [_ H]].
  apply bind_Ok in H. destruct H as [subscription' [_ H]].
  unfold new_GraphQLSchema in H.
  apply bind_Ok in H. destruct H as [instances [_ H]].
  injection H as _ <-. now exists instances.
Qed.

(** C6. The sorter does not change its input.  The heap after a call is
    the heap before it followed by the instances the call has built, so
    every type of the input is still the instance it was, with its fields,
    arguments, interfaces, members and values; and [sortBy] leaves every
    array cell that existed as it was, the array it is given included:
    what it returns is a new cell, holding what [sortBy] returns on the
    elements of the array. *)
Theorem lexicographicSortSchema_leaves_input
  (localeCompare : LocaleCompare)
  (isIntrospectionType : GraphQLNamedType -> bool) (schema : GraphQLSchema)
  (compareOptions : option CompareOptions) (h : Heap) :
  (forall schema' h',
     lexicographicSortSchema localeCompare isIntrospectionType schema
       compareOptions h
     = Ok (schema', h') ->
     (exists instances, h' = h ++ instances)
     /\ forall a t, nth_error h a = Some t -> nth_error h' a = Some t)
  /\ (forall (T : Type) (array : nat) (mapToKey : T -> result string)
        (store : Store T) (a : nat) (cell : list T),
        nth_error store a = Some cell ->
        nth_error
          (snd (sortBy_cells localeCompare array mapToKey compareOptions
                  store)) a
        = Some cell)
  /\ (forall (T : Type) (array : nat) (mapToKey : T -> result string)
        (store : Store T) (copy : nat),
        fst (sortBy_cells localeCompare array mapToKey compareOptions store)
        = Ok copy ->
        copy = List.length store
        /\ exists elements sorted,
             nth_error store array = Some elements
             /\ sortBy localeCompare elements mapToKey compareOptions
                = Ok sorted
             /\ nth_error
                  (snd (sortBy_cells localeCompare array mapToKey
                          compareOptions store)) copy
                = Some sorted).
Proof.
  split; [|split].
  - intros schema' h' H.
    destruct (lexicographicSortSchema_extends_heap _ _ _ _ _ _ _ H)
      as [instances ->].
    split; [now exists instances|].
    intros a t Ha. rewrite nth_error_app1; [exact Ha|].
    apply nth_error_Some. congruence.
  - intros T array mapToKey store a cell.
    apply sortBy_cells_frame.
  - intros T array mapToKey store copy.
    apply sortBy_cells_sortBy.
Qed.

(** ** The types of the output *)

Lemma Forall2_In_l {A B : Type} (R : A -> B -> Prop) (l : list A)
  (l' : list B) (x : A) :
  Forall2 R l l' -> In x l -> exists y, In y l' /\ R x y.
Proof.
  induction 1 as [|a b l l' Hab _ IH]; intros Hin; [destruct Hin|].
  destruct Hin as [->|Hin].
  - exists b. split; [now left|exact Hab].
  - destruct (IH Hin) as [y [Hy Hxy]]. exists y. split; [now right|exact Hxy].
Qed.

Lemma Forall2_In_r {A B : Type} (R : A -> B -> Prop) (l : list A)
  (l' : list B) (y : B) :
  Forall2 R l l' -> In y l' -> exists x, In x l /\ R x y.
Proof.
  induction 1 as [|a b l l' Hab _ IH]; intros Hin; [destruct Hin|].
  destruct Hin as [->|Hin].
  - exists a. split; [now left|exact Hab].
  - destruct (IH Hin) as [x [Hx Hxy]]. exists x. split; [now right|exact Hxy].
Qed.

Lemma nth_error_name_at (h : Heap) (a : addr) (t : GraphQLNamedType) :
  nth_error h a = Some t -> type_at h a = t /\ name_at h a = type_name t.
Proof.
  intros H. unfold name_at, type_at.
  now rewrite (nth_error_nth h a (OtherType "" "") H).
Qed.

Section Output.

Variable localeCompare : LocaleCompare.
Variable isIntrospectionType : GraphQLNamedType -> bool.
Variable compareOptions : option CompareOptions.
Variable h : Heap.
Variable schema : GraphQLSchema.
Hypothesis wf : references_in_heap isIntrospectionType h schema = true.

Let typeMap : ObjMap addr :=
  sorted_index localeCompare isIntrospectionType h compareOptions schema.
Let schema' : GraphQLSchema :=
  fst (sorted_schema localeCompare isIntrospectionType h compareOptions
         schema).
Let h' : Heap :=
  snd (sorted_schema localeCompare isIntrospectionType h compareOptions
         schema).

Let stands : addr -> addr -> Prop :=
  stands_for localeCompare isIntrospectionType h compareOptions typeMap
    (schema_types schema') h'.

Lemma replacement_of_name (a : addr) :
  type_name (replacement_of localeCompare isIntrospectionType h
               compareOptions typeMap a)
  = name_at h a.
Proof.
  unfold replacement_of.
  destruct (passes_through isIntrospectionType (type_at h a));
    [reflexivity|apply type_name_sorted_copy].
Qed.

Lemma output_type_names :
  List.map (name_at h') (schema_types schema')
  = List.map (name_at h)
      (stable_sort (by_name localeCompare h compareOptions)
         (schema_types schema)).
Proof.
  assert (H := sorted_index_types localeCompare isIntrospectionType
                 compareOptions h schema wf).
  unfold schema', sorted_schema. cbn [fst schema_types].
  fold typeMap. unfold objectValues.
  cbv zeta in H. fold typeMap in H. fold h' in H.
  induction H as [|a e l l' [_ [Hat _]] _ IH]; [reflexivity|].
  cbn [List.map]. f_equal; [|exact IH].
  etransitivity; [exact (proj2 (nth_error_name_at h' (snd e) _ Hat))|].
  apply replacement_of_name.
Qed.

Lemma output_names_NoDup :
  NoDup (List.map (name_at h') (schema_types schema')).
Proof.
  rewrite output_type_names.
  eapply Permutation_NoDup;
    [apply Permutation_map, stable_sort_Permutation|].
  now apply (schema_ok_names isIntrospectionType h schema _ wf).
Qed.

Lemma NoDup_map_eq {A B : Type} (f : A -> B) (l : list A) (x y : A) :
  NoDup (List.map f l) -> In x l -> In y l -> f x = f y -> x = y.
Proof.
  induction l as [|a l IH]; intros Hnd Hx Hy Heq; [destruct Hx|].
  simpl in Hnd. inversion Hnd as [|b l' Hn Hd]; subst.
  destruct Hx as [->|Hx], Hy as [->|Hy]; try reflexivity.
  - exfalso. apply Hn. rewrite Heq. now apply in_map.
  - exfalso. apply Hn. rewrite <- Heq. now apply in_map.
  - now apply IH.
Qed.

Lemma index_entry_stands_for (a : addr) (e : string * addr) :
  In e typeMap ->
  fst e = name_at h a
  /\ nth_error h' (snd e)
     = Some (replacement_of localeCompare isIntrospectionType h
               compareOptions typeMap a)
  /\ (if passes_through isIntrospectionType (type_at h a)
      then snd e = a else (List.length h <= snd e)%nat) ->
  stands a (snd e).
Proof.
  intros Hin [Hk [Hat Hp]].
  assert (Hout : In (snd e) (schema_types schema')).
  { unfold schema', sorted_schema. cbn [fst schema_types].
    unfold objectValues. now apply in_map. }
  assert (Hname : name_at h' (snd e) = name_at h a).
  { etransitivity; [exact (proj2 (nth_error_name_at h' (snd e) _ Hat))|].
    apply replacement_of_name. }
  unfold stands, stands_for.
  split; [|split; [exact Hout|split; [exact Hat|split; [exact Hname|
    split; [exact Hp|]]]]].
  - rewrite <- Hk. apply obj_get_In.
    + now apply (sorted_index_NoDup localeCompare isIntrospectionType
                   compareOptions h schema).
    + now destruct e.
  - intros c Hc Heq.
    apply (NoDup_map_eq (name_at h') (schema_types schema'));
      [apply output_names_NoDup|exact Hc|exact Hout|congruence].
Qed.

Lemma input_type_stands (a : addr) :
  In a (schema_types schema) -> exists a', stands a a'.
Proof.
  intros Hin.
  destruct (Forall2_In_l _ _ _ a
              (sorted_index_types localeCompare isIntrospectionType
                 compareOptions h schema wf))
    as [e [He Hr]].
  { now apply stable_sort_In. }
  exists (snd e). now apply index_entry_stands_for.
Qed.

Lemma output_type_stands (a' : addr) :
  In a' (schema_types schema') ->
  exists a, In a (schema_types schema) /\ stands a a'.
Proof.
  unfold schema' at 1, sorted_schema. cbn [fst schema_types].
  unfold objectValues.
  intros Hin. apply in_map_iff in Hin. destruct Hin as [e [<- He]].
  destruct (Forall2_In_r _ _ _ e
              (sorted_index_types localeCompare isIntrospectionType
                 compareOptions h schema wf) He)
    as [a [Ha Hr]].
  exists a. split; [now apply stable_sort_In in Ha|].
  now apply index_entry_stands_for.
Qed.

Lemma replaced_ref_stands (type : ref) :
  ref_ok (schema_types schema) type = true ->
  exists a a',
    type = Some a /\ In a (schema_types schema)
    /\ replaced_ref h typeMap type = Some a' /\ stands a a'.
Proof.
  intros Hok. destruct (ref_ok_In (schema_types schema) type Hok)
    as [a [-> Hin]].
  destruct (input_type_stands a Hin) as [a' Ha'].
  exists a, a'. split; [reflexivity|]. split; [exact Hin|].
  split; [apply Ha'|exact Ha'].
Qed.

End Output.

(** ** Roots *)

(** The sorted copy is the same under the comparator made to return:
    where the comparator returns, the numbers are the same. *)
Lemma sorted_schema_returning
  (localeCompare : LocaleCompare)
  (isIntrospectionType : GraphQLNamedType -> bool)
  (compareOptions : option CompareOptions) (h : Heap)
  (schema : GraphQLSchema) :
  sorted_schema (returning localeCompare) isIntrospectionType h
    compareOptions schema
  = sorted_schema localeCompare isIntrospectionType h compareOptions schema.
Proof. reflexivity. Qed.

Lemma sorted_index_returning
  (localeCompare : LocaleCompare)
  (isIntrospectionType : GraphQLNamedType -> bool)
  (compareOptions : option CompareOptions) (h : Heap)
  (schema : GraphQLSchema) :
  sorted_index (returning localeCompare) isIntrospectionType h
    compareOptions schema
  = sorted_index localeCompare isIntrospectionType h compareOptions schema.
Proof. reflexivity. Qed.

(** What the sorter returns on a schema whose references are to
    instances of the heap is the sorted copy, whatever the comparator
    does for other names. *)
Lemma sorted_schema_returned
  (localeCompare : LocaleCompare)
  (isIntrospectionType : GraphQLNamedType -> bool)
  (compareOptions : option CompareOptions) (h : Heap)
  (schema schema' : GraphQLSchema) (h' : Heap) :
  references_in_heap isIntrospectionType h schema = true ->
  lexicographicSortSchema localeCompare isIntrospectionType schema
    compareOptions h
  = Ok (schema', h') ->
  (schema', h')
  = sorted_schema localeCompare isIntrospectionType h compareOptions schema
  /\ schema_all
       (rewrappable h
          (sorted_index localeCompare isIntrospectionType h compareOptions
             schema))
       isIntrospectionType h schema
     = true.
Proof.
  intros sok Hrun.
  apply (lexicographicSortSchema_as localeCompare (returning localeCompare)
           (returning_extends localeCompare)) in Hrun.
  pose proof (lexicographicSortSchema_in_heap (returning localeCompare)
                isIntrospectionType compareOptions h schema
                (returning_accepts localeCompare compareOptions) sok)
    as H.
  rewrite sorted_index_returning, sorted_schema_returning, Hrun in H.
  apply returns_if_Ok in H. tauto.
Qed.

Lemma sorted_schema_eq
  (localeCompare : LocaleCompare)
  (isIntrospectionType : GraphQLNamedType -> bool)
  (compareOptions : option CompareOptions) (h : Heap)
  (schema schema' : GraphQLSchema) (h' : Heap) :
  well_formed isIntrospectionType h schema = true ->
  lexicographicSortSchema localeCompare isIntrospectionType schema
    compareOptions h
  = Ok (schema', h') ->
  schema' = fst (sorted_schema localeCompare isIntrospectionType h
                   compareOptions schema)
  /\ h' = snd (sorted_schema localeCompare isIntrospectionType h
                 compareOptions schema).
Proof.
  intros wf Hrun.
  destruct (sorted_schema_returned _ _ _ _ _ _ _
              (well_formed_references isIntrospectionType h schema wf) Hrun)
    as [<- _].
  now split.
Qed.

Lemma root_replaced_sorted
  (localeCompare : LocaleCompare)
  (isIntrospectionType : GraphQLNamedType -> bool)
  (compareOptions : option CompareOptions) (h : Heap)
  (schema : GraphQLSchema) (root : ref) :
  well_formed isIntrospectionType h schema = true ->
  root_ok (ref_ok (schema_types schema)) root = true ->
  root_replaced
    (stands_for localeCompare isIntrospectionType h compareOptions
       (sorted_index localeCompare isIntrospectionType h compareOptions
          schema)
       (schema_types
          (fst (sorted_schema localeCompare isIntrospectionType h
                  compareOptions schema)))
       (snd (sorted_schema localeCompare isIntrospectionType h
               compareOptions schema)))
    root
    (replaced_ref h
       (sorted_index localeCompare isIntrospectionType h compareOptions
          schema)
       root).
Proof.
  intros wf Hroot. destruct root as [a|]; [|reflexivity].
  destruct (replaced_ref_stands localeCompare isIntrospectionType
              compareOptions h schema
              (well_formed_references isIntrospectionType h schema wf)
              (Some a) Hroot)
    as [b [a' [Hb [_ [Hr Hs]]]]].
  injection Hb as <-. exists a'. split; [exact Hr|exact Hs].
Qed.

(** C8. On a well-formed schema, a root type of the input that is present
    has as its counterpart in the output the type that stands for it: the
    instance the output's type collection holds under the same name, which
    is its sorted replacement; a root that is absent stays absent. *)
Theorem roots_are_replaced
  (localeCompare : LocaleCompare)
  (isIntrospectionType : GraphQLNamedType -> bool)
  (compareOptions : option CompareOptions) (h : Heap)
  (schema schema' : GraphQLSchema) (h' : Heap) :
  well_formed isIntrospectionType h schema = true ->
  lexicographicSortSchema localeCompare isIntrospectionType schema
    compareOptions h
  = Ok (schema', h') ->
  let stands :=
    stands_for localeCompare isIntrospectionType h compareOptions
      (sorted_index localeCompare isIntrospectionType h compareOptions
         schema)
      (schema_types schema') h' in
  root_replaced stands (query schema) (query schema')
  /\ root_replaced stands (mutation schema) (mutation schema')
  /\ root_replaced stands (subscription schema) (subscription schema').
Proof.
  intros wf Hrun.
  destruct (sorted_schema_eq _ _ _ _ _ _ _ wf Hrun) as [-> ->].
  destruct (well_formed_roots isIntrospectionType h schema wf)
    as [Hq [Hm Hsub]].
  cbv zeta. repeat split; now apply root_replaced_sorted.
Qed.

(** ** Cross-references *)

Lemma named_type_of_replaced (h : Heap) (typeMap : ObjMap addr)
  (type : GraphQLType) :
  named_type_of (replaced_type h typeMap type)
  = replaced_ref h typeMap (named_type_of type).
Proof. induction type; simpl; congruence. Qed.




Section References.

Variable localeCompare : LocaleCompare.
Variable compareOptions : option CompareOptions.
Variable h : Heap.
Variable typeMap : ObjMap addr.

Lemma sorted_map_Permutation {V W : Type} (f : V -> W) (map : ObjMap V) :
  Permutation (sorted_map localeCompare compareOptions f map)
    (map_values f map).
Proof. symmetry. apply stable_sort_Permutation. Qed.



End References.


Lemma schema_all_ext (p q : GraphQLType -> bool)
  (isIntrospectionType : GraphQLNamedType -> bool) (h : Heap)
  (schema : GraphQLSchema) :
  (forall type, p type = q type) ->
  schema_all p isIntrospectionType h schema
  = schema_all q isIntrospectionType h schema.
Proof.
  intros H.
  assert (Hargs : forall args, args_all p args = args_all q args).
  { intros args. unfold args_all. apply forallb_pointwise. intros e. apply H. }
  assert (Hmem : forall type, members_all p type = members_all q type).
  { intros type. destruct type; simpl; try reflexivity;
      unfold fields_all, input_fields_all; apply forallb_pointwise; intros e;
      now rewrite ?H, ?Hargs. }
  unfold schema_all. f_equal; apply forallb_pointwise; intros x.
  - now rewrite Hmem.
  - apply Hargs.
Qed.

(** The index holds a type under a name exactly when a type of the
    schema has the name. *)
Lemma sorted_index_names_type
  (localeCompare : LocaleCompare)
  (isIntrospectionType : GraphQLNamedType -> bool)
  (compareOptions : option CompareOptions) (h : Heap)
  (schema : GraphQLSchema) (type : ref) :
  match
    replaced_ref h
      (sorted_index localeCompare isIntrospectionType h compareOptions schema)
      type
  with
  | Some _ => true
  | None => false
  end
  = names_type h (schema_types schema) type.
Proof.
  destruct type as [b|]; [|reflexivity]. cbn [replaced_ref names_type].
  assert (Hkeys :
            In (name_at h b)
              (Object_keys
                 (sorted_index localeCompare isIntrospectionType h
                    compareOptions schema))
            <-> In (name_at h b) (List.map (name_at h) (schema_types schema))).
  { rewrite (proj1 (sorted_index_keys localeCompare isIntrospectionType
                      compareOptions h schema)).
    split; apply Permutation_in; [symmetry|]; apply Permutation_map;
      apply stable_sort_Permutation. }
  destruct (obj_get _ (name_at h b)) as [b'|] eqn:E.
  - symmetry. apply existsb_eqb_In, Hkeys. apply obj_get_Some_In in E.
    apply in_map_iff. now exists (name_at h b, b').
  - apply obj_get_None in E.
    destruct (existsb (String.eqb (name_at h b))
                (List.map (name_at h) (schema_types schema))) eqn:Ex;
      [|reflexivity].
    apply existsb_eqb_In in Ex. exfalso. now apply E, Hkeys.
Qed.

Lemma rewrappable_wrapped_named
  (localeCompare : LocaleCompare)
  (isIntrospectionType : GraphQLNamedType -> bool)
  (compareOptions : option CompareOptions) (h : Heap)
  (schema : GraphQLSchema) (type : GraphQLType) :
  rewrappable h
    (sorted_index localeCompare isIntrospectionType h compareOptions schema)
    type
  = wrapped_named h (schema_types schema) type.
Proof.
  destruct type as [r|t|t]; [reflexivity| |];
    apply sorted_index_names_type.
Qed.

(** C1 (amended). On a schema whose references are to instances, some of
    them to types that are not among its types, and with locales and
    options the platform accepts: the index holds nothing under the name
    of a type that is absent from the schema.  If every reference under
    a list or non-null wrapper names a type of the schema, the sorter
    reports nothing: it returns the sorted copy, in which what stands for
    a rebuilt type is a new instance, its copy with every reference
    replaced by what the index holds, [undefined] for a name that is
    absent; so are the arguments of the directives and the roots.  If a
    list or non-null type in a rebuilt type or in a directive names a type
    that is absent, the sorter throws the error of the wrapper: that of
    the list or that of the non-null type. *)
Theorem absent_type_reference_becomes_undefined
  (localeCompare : LocaleCompare)
  (isIntrospectionType : GraphQLNamedType -> bool)
  (compareOptions : option CompareOptions) (h : Heap)
  (schema : GraphQLSchema) :
  references_in_heap isIntrospectionType h schema = true ->
  accepts localeCompare compareOptions ->
  let typeMap :=
    sorted_index localeCompare isIntrospectionType h compareOptions schema in
  (forall b,
      names_absent_type h (schema_types schema) (Some b) = true ->
      replaced_ref h typeMap (Some b) = None
      /\ replaced_type h typeMap (Named (Some b)) = Named None)
  /\ (schema_all (wrapped_named h (schema_types schema)) isIntrospectionType
        h schema
      = true ->
      exists schema' h',
        lexicographicSortSchema localeCompare isIntrospectionType schema
          compareOptions h
        = Ok (schema', h')
        /\ schema_directives schema'
           = List.map (sorted_directive localeCompare h compareOptions typeMap)
               (stable_sort (by_directive_name localeCompare compareOptions)
                  (schema_directives schema))
        /\ query schema' = replaced_ref h typeMap (query schema)
        /\ mutation schema' = replaced_ref h typeMap (mutation schema)
        /\ subscription schema'
           = replaced_ref h typeMap (subscription schema)
        /\ forall a,
             In a (schema_types schema) ->
             passes_through isIntrospectionType (type_at h a) = false ->
             exists a',
               obj_get typeMap (name_at h a) = Some a'
               /\ In a' (schema_types schema')
               /\ (List.length h <= a')%nat
               /\ type_at h' a'
                  = sorted_copy localeCompare h compareOptions typeMap
                      (type_at h a))
  /\ (schema_all (wrapped_named h (schema_types schema)) isIntrospectionType
        h schema
      = false ->
      lexicographicSortSchema localeCompare isIntrospectionType schema
        compareOptions h
      = Throw (Error "Expected undefined to be a GraphQL type.")
      \/ lexicographicSortSchema localeCompare isIntrospectionType schema
           compareOptions h
         = Throw (Error "Expected undefined to be a GraphQL nullable type.")).
Proof.
  intros sok accepted typeMap.
  pose proof (lexicographicSortSchema_in_heap localeCompare
                isIntrospectionType compareOptions h schema accepted sok)
    as Hrun.
  fold typeMap in Hrun.
  rewrite (schema_all_ext _ (wrapped_named h (schema_types schema)) _ _ _
             (rewrappable_wrapped_named localeCompare isIntrospectionType
                compareOptions h schema))
    in Hrun.
  split; [|split].
  - intros b Habsent.
    assert (Hnone : replaced_ref h typeMap (Some b) = None).
    { pose proof (sorted_index_names_type localeCompare isIntrospectionType
                    compareOptions h schema (Some b)) as H.
      fold typeMap in H. cbn [names_absent_type] in Habsent.
      apply negb_true_iff in Habsent. cbn [names_type] in H.
      rewrite Habsent in H.
      now destruct (replaced_ref h typeMap (Some b)). }
    split; [exact Hnone|]. cbn [replaced_type]. now rewrite Hnone.
  - intros Hall. rewrite Hall in Hrun. apply returns_if_true in Hrun.
    exists (fst (sorted_schema localeCompare isIntrospectionType h
                   compareOptions schema)),
           (snd (sorted_schema localeCompare isIntrospectionType h
                   compareOptions schema)).
    split; [now rewrite <- surjective_pairing|].
    do 4 (split; [reflexivity|]).
    intros a Ha Hp.
    destruct (input_type_stands localeCompare isIntrospectionType
                compareOptions h schema sok a Ha)
      as [a' [Hget [Hin' [Hat [_ [Hnew _]]]]]].
    exists a'. split; [exact Hget|]. split; [exact Hin'|].
    rewrite Hp in Hnew. split; [exact Hnew|].
    apply nth_error_name_at in Hat. destruct Hat as [Hat _]. rewrite Hat.
    unfold replacement_of. now rewrite Hp.
  - intros Hall. rewrite Hall in Hrun.
    destruct Hrun as [e [[->| ->] Hrun]]; [now left|now right].
Qed.


(** ** The example comparator *)

Lemma string_compare_trans (a b c : string) :
  String.compare a b <> Gt -> String.compare b c <> Gt ->
  String.compare a c <> Gt.
Proof.
  revert b c.
  induction a as [|x a IH]; intros [|y b] [|z c]; simpl; try congruence.
  unfold Ascii.compare.
  destruct (N.compare_spec (N_of_ascii x) (N_of_ascii y)) as [Hxy|Hxy|Hxy],
    (N.compare_spec (N_of_ascii y) (N_of_ascii z)) as [Hyz|Hyz|Hyz],
    (N.compare_spec (N_of_ascii x) (N_of_ascii z)) as [Hxz|Hxz|Hxz];
    try congruence; try lia; try apply IH.
Qed.

Lemma compare_code_units_le (a b : string) :
  (compare_code_units a b <= 0)%Z <-> String.compare a b <> Gt.
Proof.
  unfold compare_code_units.
  destruct (String.compare a b); split; intros H; try lia; congruence.
Qed.

Lemma compare_code_units_total (a b : string) :
  (compare_code_units a b <= 0)%Z \/ (compare_code_units b a <= 0)%Z.
Proof.
  rewrite !compare_code_units_le, (String.compare_antisym a b).
  destruct (String.compare b a); simpl; [left|right|left]; congruence.
Qed.

Lemma compare_code_units_trans (a b c : string) :
  (compare_code_units a b <= 0)%Z -> (compare_code_units b c <= 0)%Z ->
  (compare_code_units a c <= 0)%Z.
Proof. rewrite !compare_code_units_le. apply string_compare_trans. Qed.

(** The example comparator accepts the locales it does not reject, and
    is then total and transitive. *)
Lemma example_localeCompare_accepts (compareOptions : option CompareOptions) :
  rejected_locales (optional_locales compareOptions) = false ->
  accepts example_localeCompare compareOptions.
Proof.
  intros H. unfold accepts, example_localeCompare. rewrite H.
  destruct (base_sensitivity_asked (optional_options compareOptions));
    now eexists.
Qed.

Lemma example_localeCompare_rejects (compareOptions : option CompareOptions) :
  rejected_locales (optional_locales compareOptions) = true ->
  ~ accepts example_localeCompare compareOptions.
Proof.
  intros H [compare Hcompare]. unfold example_localeCompare in Hcompare.
  rewrite H in Hcompare. discriminate.
Qed.

Lemma example_localeCompare_total (compareOptions : option CompareOptions) :
  rejected_locales (optional_locales compareOptions) = false ->
  total_comparator example_localeCompare compareOptions.
Proof.
  intros H a b. unfold name_le, compare_names, example_localeCompare.
  rewrite H.
  destruct (base_sensitivity_asked (optional_options compareOptions));
    apply compare_code_units_total.
Qed.

Lemma example_localeCompare_transitive
  (compareOptions : option CompareOptions) :
  rejected_locales (optional_locales compareOptions) = false ->
  transitive_comparator example_localeCompare compareOptions.
Proof.
  intros H a b c. unfold name_le, compare_names, example_localeCompare.
  rewrite H.
  destruct (base_sensitivity_asked (optional_options compareOptions));
    apply compare_code_units_trans.
Qed.

(** ** The order of the output *)

Section Order.

Variable localeCompare : LocaleCompare.
Variable isIntrospectionType : GraphQLNamedType -> bool.
Variable compareOptions : option CompareOptions.

Lemma sorted_map_keys {V W : Type} (f : V -> W) (map : ObjMap V) :
  Object_keys (sorted_map localeCompare compareOptions f map)
  = stable_sort (compare_names localeCompare compareOptions)
      (Object_keys map).
Proof.
  unfold Object_keys, sorted_map, by_key. rewrite stable_sort_map.
  unfold map_values. now rewrite map_map.
Qed.

Hypothesis total : total_comparator localeCompare compareOptions.

Lemma stable_sort_non_decreasing (names : list string) :
  non_decreasing localeCompare compareOptions
    (stable_sort (compare_names localeCompare compareOptions) names).
Proof. apply stable_sort_Sorted. exact total. Qed.

Lemma sorted_map_non_decreasing {V W : Type} (f : V -> W) (map : ObjMap V) :
  non_decreasing localeCompare compareOptions
    (Object_keys (sorted_map localeCompare compareOptions f map)).
Proof. rewrite sorted_map_keys. apply stable_sort_non_decreasing. Qed.

Variable h : Heap.
Variable schema : GraphQLSchema.
Hypothesis wf : well_formed isIntrospectionType h schema = true.

Let typeMap : ObjMap addr :=
  sorted_index localeCompare isIntrospectionType h compareOptions schema.
Let schema' : GraphQLSchema :=
  fst (sorted_schema localeCompare isIntrospectionType h compareOptions
         schema).
Let h' : Heap :=
  snd (sorted_schema localeCompare isIntrospectionType h compareOptions
         schema).

Lemma replaced_ref_name (type : ref) :
  ref_ok (schema_types schema) type = true ->
  ref_name h' (replaced_ref h typeMap type) = ref_name h type.
Proof.
  intros Hok.
  destruct (replaced_ref_stands localeCompare isIntrospectionType
              compareOptions h schema
              (well_formed_references isIntrospectionType h schema wf) type Hok)
    as [a [a' [-> [_ [Hr Hs]]]]].
  fold typeMap in Hr. rewrite Hr. simpl. apply Hs.
Qed.

Lemma sorted_types_names (arr : list ref) :
  forallb (ref_ok (schema_types schema)) arr = true ->
  List.map (ref_name h')
    (sorted_types localeCompare h compareOptions typeMap arr)
  = stable_sort (compare_names localeCompare compareOptions)
      (List.map (ref_name h) arr).
Proof.
  intros Hok. rewrite forallb_forall in Hok.
  unfold sorted_types. rewrite map_map.
  rewrite <- (stable_sort_map (ref_name h)
                (compare_names localeCompare compareOptions) arr).
  apply map_ext_in. intros r Hr. apply replaced_ref_name, Hok.
  now apply stable_sort_In in Hr.
Qed.

Lemma sorted_copy_collections (type : GraphQLNamedType) :
  members_ok (ref_ok (schema_types schema)) type = true ->
  collections_sorted localeCompare compareOptions h'
    (sorted_copy localeCompare h compareOptions typeMap type).
Proof.
  assert (Hfields : forall fields name field,
             In (name, field)
               (sorted_fields localeCompare h compareOptions typeMap fields) ->
             non_decreasing localeCompare compareOptions
               (Object_keys (field_args field))).
  { intros fields name field Hin. unfold sorted_fields in Hin.
    apply (Permutation_in _ (sorted_map_Permutation localeCompare
                               compareOptions _ fields)) in Hin.
    unfold map_values in Hin. apply in_map_iff in Hin.
    destruct Hin as [e [Heq _]]. injection Heq as _ <-.
    apply sorted_map_non_decreasing. }
  destruct type; simpl; intros Hok; try exact I.
  - apply andb_true_iff in Hok. destruct Hok as [Hi _].
    rewrite sorted_types_names by exact Hi.
    split; [apply stable_sort_non_decreasing|].
    split; [apply sorted_map_non_decreasing|apply Hfields].
  - apply andb_true_iff in Hok. destruct Hok as [Hi _].
    rewrite sorted_types_names by exact Hi.
    split; [apply stable_sort_non_decreasing|].
    split; [apply sorted_map_non_decreasing|apply Hfields].
  - rewrite sorted_types_names by exact Hok.
    apply stable_sort_non_decreasing.
  - apply sorted_map_non_decreasing.
  - apply sorted_map_non_decreasing.
Qed.

Lemma output_types_non_decreasing :
  non_decreasing localeCompare compareOptions
    (List.map (name_at h') (schema_types schema')).
Proof.
  unfold h', schema'.
  rewrite (output_type_names localeCompare isIntrospectionType
             compareOptions h schema
             (well_formed_references isIntrospectionType h schema wf)).
  unfold by_name.
  rewrite (stable_sort_map (name_at h)
             (compare_names localeCompare compareOptions)).
  apply stable_sort_non_decreasing.
Qed.

Lemma output_directives_non_decreasing :
  non_decreasing localeCompare compareOptions
    (List.map directive_name (schema_directives schema'))
  /\ forall directive,
       In directive (schema_directives schema') ->
       directive_sorted localeCompare compareOptions directive.
Proof.
  unfold schema', sorted_schema. cbn [fst schema_directives]. split.
  - rewrite map_map. cbn [sorted_directive directive_name].
    unfold by_directive_name.
    rewrite (stable_sort_map directive_name
               (compare_names localeCompare compareOptions)).
    apply stable_sort_non_decreasing.
  - intros directive Hin. apply in_map_iff in Hin.
    destruct Hin as [d [<- _]]. split; cbn [sorted_directive locations
                                             directive_args].
    + apply stable_sort_non_decreasing.
    + apply sorted_map_non_decreasing.
Qed.

Lemma output_type_collections (a' : addr) :
  In a' (schema_types schema') ->
  isIntrospectionType (type_at h' a') = false ->
  collections_sorted localeCompare compareOptions h' (type_at h' a').
Proof.
  intros Hin Hintro.
  destruct (output_type_stands localeCompare isIntrospectionType
              compareOptions h schema
              (well_formed_references isIntrospectionType h schema wf) a' Hin)
    as [a [Ha [_ [_ [Hat [_ [Hp _]]]]]]].
  apply nth_error_name_at in Hat. destruct Hat as [Hat _].
  fold h' in Hat. rewrite Hat in *. unfold replacement_of in *.
  destruct (passes_through isIntrospectionType (type_at h a)) eqn:Hpass.
  - unfold passes_through in Hpass. rewrite Hintro, orb_false_r in Hpass.
    now destruct (type_at h a).
  - apply sorted_copy_collections.
    destruct (well_formed_types isIntrospectionType h schema wf a Ha)
      as [_ [_ [Hi|Hm]]]; [|exact Hm].
    unfold passes_through in Hpass. rewrite Hi, orb_true_r in Hpass.
    discriminate.
Qed.

End Order.

(** C3 (counterexample). The introspection type [__Schema] of the example
    keeps its fields in the order the input has them, [types] before
    [queryType], in a well-formed schema sorted with a total comparator. *)
Lemma introspection_type_keeps_its_order :
  well_formed example_isIntrospectionType cyclic_heap cyclic_schema = true
  /\ total_comparator example_localeCompare None
  /\ exists schema' h',
       lexicographicSortSchema example_localeCompare
         example_isIntrospectionType cyclic_schema None cyclic_heap
       = Ok (schema', h')
       /\ In 3 (schema_types schema')
       /\ ~ collections_sorted example_localeCompare None h'
            (type_at h' 3).
Proof.
  split; [reflexivity|]. split; [now apply example_localeCompare_total|].
  eexists. eexists. split; [vm_compute; reflexivity|].
  split; [simpl; tauto|].
  cbn. intros [_ [H _]].
  inversion H as [|x l _ Hd]; subst. inversion Hd as [|y l' Hle]; subst.
  vm_compute in Hle. now apply Hle.
Qed.

(** C3 (amended). On a well-formed schema and with a total comparator,
    the names of the types of the output, of its directives, of the
    locations and arguments of every directive, and of every collection
    of every type of the output that is not an introspection type are
    non-decreasing under the comparator. *)
Theorem output_is_sorted_by_name
  (localeCompare : LocaleCompare)
  (isIntrospectionType : GraphQLNamedType -> bool)
  (compareOptions : option CompareOptions) (h : Heap)
  (schema schema' : GraphQLSchema) (h' : Heap) :
  well_formed isIntrospectionType h schema = true ->
  total_comparator localeCompare compareOptions ->
  lexicographicSortSchema localeCompare isIntrospectionType schema
    compareOptions h
  = Ok (schema', h') ->
  non_decreasing localeCompare compareOptions
    (List.map (name_at h') (schema_types schema'))
  /\ non_decreasing localeCompare compareOptions
       (List.map directive_name (schema_directives schema'))
  /\ (forall directive,
        In directive (schema_directives schema') ->
        directive_sorted localeCompare compareOptions directive)
  /\ (forall a',
        In a' (schema_types schema') ->
        isIntrospectionType (type_at h' a') = false ->
        collections_sorted localeCompare compareOptions h' (type_at h' a')).
Proof.
  intros wf total Hrun.
  destruct (sorted_schema_eq _ _ _ _ _ _ _ wf Hrun) as [-> ->].
  split; [now apply output_types_non_decreasing|].
  split; [now apply output_directives_non_decreasing|].
  split; [now apply output_directives_non_decreasing|].
  intros a'. now apply output_type_collections.
Qed.

(** C7. On a well-formed schema, a scalar type and an introspection type
    are in the output the instances they are in the input, unchanged,
    while an object, interface, union, enum or input object type that is
    not an introspection type is replaced by a new instance of the same
    name: its sorted copy, whose collections are sorted. *)
Theorem scalars_and_introspection_types_pass_through
  (localeCompare : LocaleCompare)
  (isIntrospectionType : GraphQLNamedType -> bool)
  (compareOptions : option CompareOptions) (h : Heap)
  (schema schema' : GraphQLSchema) (h' : Heap) (a : addr) :
  well_formed isIntrospectionType h schema = true ->
  total_comparator localeCompare compareOptions ->
  lexicographicSortSchema localeCompare isIntrospectionType schema
    compareOptions h
  = Ok (schema', h') ->
  In a (schema_types schema) ->
  (isScalarType (type_at h a) || isIntrospectionType (type_at h a) = true ->
   In a (schema_types schema')
   /\ nth_error h a = Some (type_at h a)
   /\ nth_error h' a = Some (type_at h a))
  /\ (isScalarType (type_at h a) || isIntrospectionType (type_at h a)
      = false ->
      isObjectType (type_at h a) || isInterfaceType (type_at h a)
      || isUnionType (type_at h a) || isEnumType (type_at h a)
      || isInputObjectType (type_at h a) = true
      /\ exists a',
           In a' (schema_types schema')
           /\ (List.length h <= a')%nat
           /\ name_at h' a' = name_at h a
           /\ nth_error h' a'
              = Some (sorted_copy localeCompare h compareOptions
                        (sorted_index localeCompare isIntrospectionType h
                           compareOptions schema)
                        (type_at h a))
           /\ collections_sorted localeCompare compareOptions h'
                (type_at h' a')).
Proof.
  intros wf total Hrun Ha.
  destruct (sorted_schema_eq _ _ _ _ _ _ _ wf Hrun) as [-> ->].
  destruct (input_type_stands localeCompare isIntrospectionType
              compareOptions h schema
              (well_formed_references isIntrospectionType h schema wf) a Ha)
    as [a' [_ [Hin [Hat [Hname [Hp _]]]]]].
  destruct (well_formed_types isIntrospectionType h schema wf a Ha)
    as [Hlt [_ Hmem]].
  unfold replacement_of, passes_through in *. split; intros Hpass.
  - rewrite Hpass in *. subst a'. split; [exact Hin|].
    split; [|exact Hat]. unfold type_at. now apply nth_error_nth'.
  - rewrite Hpass in *.
    assert (Hm : members_ok (ref_ok (schema_types schema)) (type_at h a)
              = true).
    { destruct Hmem as [Hi|Hm]; [|exact Hm].
      rewrite Hi, orb_true_r in Hpass. discriminate. }
    split.
    { apply orb_false_iff in Hpass. destruct Hpass as [Hs _].
      now destruct (type_at h a). }
    exists a'. split; [exact Hin|]. split; [exact Hp|].
    split; [exact Hname|]. split; [exact Hat|].
    rewrite (proj1 (nth_error_name_at _ _ _ Hat)).
    now apply sorted_copy_collections.
Qed.

(** ** The names of the output *)

Section Names.

Variable localeCompare : LocaleCompare.
Variable isIntrospectionType : GraphQLNamedType -> bool.
Variable compareOptions : option CompareOptions.

Lemma sorted_map_same_keys {V W : Type} (f : V -> W) (map : ObjMap V) :
  same_keys map (sorted_map localeCompare compareOptions f map).
Proof.
  unfold same_keys. rewrite sorted_map_keys. apply stable_sort_Permutation.
Qed.

Lemma sorted_map_get {V W : Type} (f : V -> W) (map : ObjMap V)
  (key : string) (value : V) :
  NoDup (Object_keys map) ->
  obj_get map key = Some value ->
  obj_get (sorted_map localeCompare compareOptions f map) key
  = Some (f value).
Proof.
  intros Hnd Hget. apply obj_get_In.
  - eapply Permutation_NoDup; [apply sorted_map_same_keys|exact Hnd].
  - apply (Permutation_in _
             (Permutation_sym
                (sorted_map_Permutation localeCompare compareOptions f map))).
    unfold map_values. apply in_map_iff. exists (key, value).
    split; [reflexivity|]. now apply obj_get_Some_In.
Qed.

Variable h : Heap.
Variable schema : GraphQLSchema.
Hypothesis wf : well_formed isIntrospectionType h schema = true.

Let typeMap : ObjMap addr :=
  sorted_index localeCompare isIntrospectionType h compareOptions schema.
Let schema' : GraphQLSchema :=
  fst (sorted_schema localeCompare isIntrospectionType h compareOptions
         schema).
Let h' : Heap :=
  snd (sorted_schema localeCompare isIntrospectionType h compareOptions
         schema).

Lemma sorted_types_same_names (arr : list ref) :
  forallb (ref_ok (schema_types schema)) arr = true ->
  Permutation (List.map (ref_name h) arr)
    (List.map (ref_name h')
       (sorted_types localeCompare h compareOptions typeMap arr)).
Proof.
  intros Hok. unfold h', typeMap.
  rewrite (sorted_types_names localeCompare isIntrospectionType
             compareOptions h schema wf arr Hok).
  apply stable_sort_Permutation.
Qed.

Lemma sorted_fields_same_names (fields : ObjMap GraphQLFieldConfig) :
  fields_ok (ref_ok (schema_types schema)) fields = true ->
  same_field_names fields
    (sorted_fields localeCompare h compareOptions typeMap fields).
Proof.
  intros Hok. unfold fields_ok in Hok. apply andb_true_iff in Hok.
  destruct Hok as [Hkeys _]. apply keys_ok_spec in Hkeys.
  split; [apply sorted_map_same_keys|].
  intros name field Hget.
  exists (sorted_field localeCompare h compareOptions typeMap field).
  split; [now apply sorted_map_get|]. apply sorted_map_same_keys.
Qed.

Lemma sorted_copy_same_names (type : GraphQLNamedType) :
  members_ok (ref_ok (schema_types schema)) type = true ->
  same_names h h' type
    (sorted_copy localeCompare h compareOptions typeMap type).
Proof.
  destruct type; simpl; intros Hok; try discriminate; try reflexivity.
  - apply andb_true_iff in Hok. destruct Hok as [Hi Hf].
    split; [reflexivity|].
    split; [now apply sorted_types_same_names
           |now apply sorted_fields_same_names].
  - apply andb_true_iff in Hok. destruct Hok as [Hi Hf].
    split; [reflexivity|].
    split; [now apply sorted_types_same_names
           |now apply sorted_fields_same_names].
  - split; [reflexivity|now apply sorted_types_same_names].
  - split; [reflexivity|apply sorted_map_same_keys].
  - split; [reflexivity|apply sorted_map_same_keys].
Qed.

Lemma sorted_directive_same_names (directive : GraphQLDirective) :
  directive_same_names directive
    (sorted_directive localeCompare h compareOptions typeMap directive).
Proof.
  split; [reflexivity|].
  split; [apply stable_sort_Permutation|apply sorted_map_same_keys].
Qed.

End Names.

(** C4. On a well-formed schema the output has the names of the input:
    the names of its types and of its directives are those of the input
    in another order; a type that passes through is the type it was, and
    a rebuilt type has, under the name it had, the fields, arguments,
    interfaces, members and values of the names it had; and a directive
    has the locations and argument names it had. *)
Theorem output_has_the_names_of_the_input
  (localeCompare : LocaleCompare)
  (isIntrospectionType : GraphQLNamedType -> bool)
  (compareOptions : option CompareOptions) (h : Heap)
  (schema schema' : GraphQLSchema) (h' : Heap) :
  well_formed isIntrospectionType h schema = true ->
  lexicographicSortSchema localeCompare isIntrospectionType schema
    compareOptions h
  = Ok (schema', h') ->
  Permutation (List.map (name_at h) (schema_types schema))
    (List.map (name_at h') (schema_types schema'))
  /\ (forall a,
        In a (schema_types schema) ->
        exists a',
          In a' (schema_types schema')
          /\ name_at h' a' = name_at h a
          /\ if passes_through isIntrospectionType (type_at h a)
             then type_at h' a' = type_at h a
             else same_names h h' (type_at h a) (type_at h' a'))
  /\ (forall a',
        In a' (schema_types schema') ->
        exists a,
          In a (schema_types schema) /\ name_at h' a' = name_at h a)
  /\ exists sortedDirectives,
       Permutation (schema_directives schema) sortedDirectives
       /\ Forall2 directive_same_names sortedDirectives
            (schema_directives schema').
Proof.
  intros wf Hrun.
  destruct (sorted_schema_eq _ _ _ _ _ _ _ wf Hrun) as [-> ->].
  split.
  { rewrite (output_type_names localeCompare isIntrospectionType
               compareOptions h schema
               (well_formed_references isIntrospectionType h schema wf)).
    apply Permutation_map, stable_sort_Permutation. }
  split.
  { intros a Ha.
    destruct (input_type_stands localeCompare isIntrospectionType
                compareOptions h schema
                (well_formed_references isIntrospectionType h schema wf) a Ha)
      as [a' [_ [Hin [Hat [Hname _]]]]].
    exists a'. split; [exact Hin|]. split; [exact Hname|].
    rewrite (proj1 (nth_error_name_at _ _ _ Hat)). unfold replacement_of.
    destruct (passes_through isIntrospectionType (type_at h a)) eqn:Hp;
      [reflexivity|].
    apply sorted_copy_same_names; [exact wf|].
    destruct (well_formed_types isIntrospectionType h schema wf a Ha)
      as [_ [_ [Hi|Hm]]]; [|exact Hm].
    unfold passes_through in Hp. rewrite Hi, orb_true_r in Hp. discriminate. }
  split.
  { intros a' Ha'.
    destruct (output_type_stands localeCompare isIntrospectionType
                compareOptions h schema
                (well_formed_references isIntrospectionType h schema wf) a' Ha')
      as [a [Ha [_ [_ [_ [Hname _]]]]]].
    exists a. split; [exact Ha|exact Hname]. }
  exists (stable_sort (by_directive_name localeCompare compareOptions)
            (schema_directives schema)).
  split; [apply stable_sort_Permutation|].
  unfold sorted_schema. cbn [fst schema_directives].
  induction (stable_sort (by_directive_name localeCompare compareOptions)
               (schema_directives schema)) as [|d l IH];
    constructor; [apply sorted_directive_same_names|exact IH].
Qed.

(** ** The output is well formed *)

Section OutputWellFormed.

Variable localeCompare : LocaleCompare.
Variable isIntrospectionType : GraphQLNamedType -> bool.
Variable compareOptions : option CompareOptions.
Variable h : Heap.
Variable schema : GraphQLSchema.
Hypothesis wf : well_formed isIntrospectionType h schema = true.

Let typeMap : ObjMap addr :=
  sorted_index localeCompare isIntrospectionType h compareOptions schema.
Let schema' : GraphQLSchema :=
  fst (sorted_schema localeCompare isIntrospectionType h compareOptions
         schema).
Let h' : Heap :=
  snd (sorted_schema localeCompare isIntrospectionType h compareOptions
         schema).

Lemma ref_ok_intro (types : list addr) (a : addr) :
  In a types -> ref_ok types (Some a) = true.
Proof.
  intros Hin. simpl. apply existsb_exists. exists a.
  split; [exact Hin|apply Nat.eqb_refl].
Qed.

Lemma replaced_ref_ok (type : ref) :
  ref_ok (schema_types schema) type = true ->
  ref_ok (schema_types schema') (replaced_ref h typeMap type) = true.
Proof.
  intros Hok.
  destruct (replaced_ref_stands localeCompare isIntrospectionType
              compareOptions h schema
              (well_formed_references isIntrospectionType h schema wf) type Hok)
    as [a [a' [_ [_ [Hr Hs]]]]].
  fold typeMap in Hr. rewrite Hr. apply ref_ok_intro, Hs.
Qed.

Lemma replaced_type_ok (type : GraphQLType) :
  type_ok (ref_ok (schema_types schema)) type = true ->
  type_ok (ref_ok (schema_types schema')) (replaced_type h typeMap type) = true.
Proof. induction type; simpl; auto using replaced_ref_ok. Qed.

Lemma sorted_map_keys_ok {V W : Type} (f : V -> W) (map : ObjMap V) :
  keys_ok map = true ->
  keys_ok (sorted_map localeCompare compareOptions f map) = true.
Proof.
  intros Hok. destruct (keys_ok_spec map Hok) as [Hnd Hidx].
  unfold keys_ok. apply andb_true_iff. split.
  - apply distinct_NoDup.
    eapply Permutation_NoDup; [apply sorted_map_same_keys|exact Hnd].
  - apply forallb_forall. intros key Hin. apply Hidx.
    rewrite sorted_map_keys in Hin. now apply stable_sort_In in Hin.
Qed.

Lemma sorted_map_forallb {V W : Type} (f : V -> W) (map : ObjMap V)
  (p : string * V -> bool) (q : string * W -> bool) :
  (forall e, In e map -> p e = true -> q (fst e, f (snd e)) = true) ->
  forallb p map = true ->
  forallb q (sorted_map localeCompare compareOptions f map) = true.
Proof.
  intros Hpq Hp. rewrite forallb_forall in Hp. apply forallb_forall.
  intros e' Hin.
  apply (Permutation_in _ (sorted_map_Permutation localeCompare
                             compareOptions f map)) in Hin.
  unfold map_values in Hin. apply in_map_iff in Hin.
  destruct Hin as [e [<- He]]. apply Hpq; [exact He|now apply Hp].
Qed.

Lemma sorted_args_ok (args : ObjMap GraphQLArgumentConfig) :
  args_ok (ref_ok (schema_types schema)) args = true ->
  args_ok (ref_ok (schema_types schema'))
    (sorted_args localeCompare h compareOptions typeMap args)
  = true.
Proof.
  unfold args_ok. rewrite !andb_true_iff. intros [Hk Ht]. split.
  - now apply sorted_map_keys_ok.
  - revert Ht. apply sorted_map_forallb.
    intros e _ He. simpl. now apply replaced_type_ok.
Qed.

Lemma sorted_fields_ok (fields : ObjMap GraphQLFieldConfig) :
  fields_ok (ref_ok (schema_types schema)) fields = true ->
  fields_ok (ref_ok (schema_types schema'))
    (sorted_fields localeCompare h compareOptions typeMap fields)
  = true.
Proof.
  unfold fields_ok. rewrite !andb_true_iff. intros [Hk Ht]. split.
  - now apply sorted_map_keys_ok.
  - revert Ht. apply sorted_map_forallb.
    intros e _ He. simpl. apply andb_true_iff in He. destruct He as [He Ha].
    apply andb_true_iff.
    split; [now apply replaced_type_ok|now apply sorted_args_ok].
Qed.

Lemma sorted_input_fields_ok (fields : ObjMap GraphQLInputFieldConfig) :
  input_fields_ok (ref_ok (schema_types schema)) fields = true ->
  input_fields_ok (ref_ok (schema_types schema'))
    (sorted_input_fields localeCompare h compareOptions typeMap fields)
  = true.
Proof.
  unfold input_fields_ok. rewrite !andb_true_iff. intros [Hk Ht]. split.
  - now apply sorted_map_keys_ok.
  - revert Ht. apply sorted_map_forallb.
    intros e _ He. simpl. now apply replaced_type_ok.
Qed.

Lemma sorted_types_ok (arr : list ref) :
  forallb (ref_ok (schema_types schema)) arr = true ->
  forallb (ref_ok (schema_types schema'))
    (sorted_types localeCompare h compareOptions typeMap arr)
  = true.
Proof.
  rewrite !forallb_forall. intros Hok r' Hin. unfold sorted_types in Hin.
  apply in_map_iff in Hin. destruct Hin as [r [<- Hr]].
  apply replaced_ref_ok, Hok. now apply stable_sort_In in Hr.
Qed.

Lemma sorted_copy_members_ok (type : GraphQLNamedType) :
  members_ok (ref_ok (schema_types schema)) type = true ->
  members_ok (ref_ok (schema_types schema'))
    (sorted_copy localeCompare h compareOptions typeMap type)
  = true.
Proof.
  destruct type; simpl; intros Hok; try exact Hok.
  - apply andb_true_iff in Hok. destruct Hok as [Hi Hf].
    apply andb_true_iff.
    split; [now apply sorted_types_ok|now apply sorted_fields_ok].
  - apply andb_true_iff in Hok. destruct Hok as [Hi Hf].
    apply andb_true_iff.
    split; [now apply sorted_types_ok|now apply sorted_fields_ok].
  - now apply sorted_types_ok.
  - now apply sorted_map_keys_ok.
  - now apply sorted_input_fields_ok.
Qed.

(** What an output type is, according to whether the type it stands for
    passes through. *)
Lemma output_type_cases (a' : addr) :
  In a' (schema_types schema') ->
  (a' < List.length h')%nat
  /\ not_index (name_at h' a') = true
  /\ ((passes_through isIntrospectionType (type_at h' a') = true
       /\ (a' < List.length h)%nat
       /\ type_at h' a' = type_at h a')
      \/ (exists t,
            members_ok (ref_ok (schema_types schema)) t = true
            /\ type_at h' a'
               = sorted_copy localeCompare h compareOptions typeMap t)).
Proof.
  intros Hin.
  destruct (output_type_stands localeCompare isIntrospectionType
              compareOptions h schema
              (well_formed_references isIntrospectionType h schema wf) a' Hin)
    as [a [Ha [_ [_ [Hat [Hname [Hp _]]]]]]].
  fold h' in Hat, Hname. fold typeMap in Hat.
  destruct (well_formed_types isIntrospectionType h schema wf a Ha)
    as [Hlt [Hidx Hmem]].
  split; [apply nth_error_Some; congruence|].
  split; [now rewrite Hname|].
  apply nth_error_name_at in Hat. destruct Hat as [Hat _].
  unfold replacement_of in Hat.
  destruct (passes_through isIntrospectionType (type_at h a)) eqn:Hpass.
  - left. subst a'. rewrite Hat. now repeat split.
  - right. exists (type_at h a). split; [|exact Hat].
    destruct Hmem as [Hi|Hm]; [|exact Hm].
    unfold passes_through in Hpass. rewrite Hi, orb_true_r in Hpass.
    discriminate.
Qed.

Lemma sorted_schema_well_formed :
  well_formed isIntrospectionType h' schema' = true.
Proof.
  unfold well_formed, schema_ok. rewrite !andb_true_iff.
  destruct (well_formed_roots isIntrospectionType h schema wf)
    as [Hq [Hm Hs]].
  assert (Hroot : forall root,
             root_ok (ref_ok (schema_types schema)) root = true ->
             root_ok (ref_ok (schema_types schema'))
               (replaced_ref h typeMap root)
             = true).
  { intros [a|] Hr; [|reflexivity].
    assert (H := replaced_ref_ok (Some a) Hr).
    destruct (replaced_ref h typeMap (Some a)); [exact H|discriminate]. }
  repeat split.
  - apply forallb_forall. intros a' Hin.
    destruct (output_type_cases a' Hin) as [Hlt [Hidx Hcases]].
    rewrite !andb_true_iff. split; [split|].
    + now apply Nat.ltb_lt.
    + exact Hidx.
    + apply orb_true_iff.
      destruct Hcases as [[Hp [_ Hat]]|[t [Hm' Hat]]].
      * unfold passes_through in Hp. apply orb_true_iff in Hp.
        destruct Hp as [Hp|Hp]; [right|now left].
        now destruct (type_at h' a').
      * right. rewrite Hat. now apply sorted_copy_members_ok.
  - apply distinct_NoDup.
    apply (output_names_NoDup localeCompare isIntrospectionType
             compareOptions h schema
             (well_formed_references isIntrospectionType h schema wf)).
  - apply forallb_forall. intros d' Hin.
    unfold schema', sorted_schema in Hin. cbn [fst schema_directives] in Hin.
    apply in_map_iff in Hin. destruct Hin as [d [<- Hd]].
    apply stable_sort_In in Hd. unfold directive_ok. cbn [sorted_directive
                                                          directive_args].
    apply sorted_args_ok.
    now apply (well_formed_directives isIntrospectionType h schema wf).
  - now apply Hroot.
  - now apply Hroot.
  - now apply Hroot.
Qed.

End OutputWellFormed.

(** ** Sorting what is sorted *)

Lemma Sorted_map_inv {A B : Type} (f : A -> B) (R : B -> B -> Prop)
  (l : list A) :
  Sorted R (List.map f l) -> Sorted (fun x y => R (f x) (f y)) l.
Proof.
  induction l as [|x l IH]; intros H; [constructor|].
  simpl in H. inversion H as [|y l' Hs Hd]; subst.
  constructor; [now apply IH|].
  destruct l as [|z l]; constructor. now inversion Hd.
Qed.

Section SortedAgain.

Variable localeCompare : LocaleCompare.
Variable compareOptions : option CompareOptions.
Hypothesis total : total_comparator localeCompare compareOptions.

Lemma stable_sort_twice (names : list string) :
  stable_sort (compare_names localeCompare compareOptions)
    (stable_sort (compare_names localeCompare compareOptions) names)
  = stable_sort (compare_names localeCompare compareOptions) names.
Proof.
  apply stable_sort_Sorted_id. now apply stable_sort_non_decreasing.
Qed.

Lemma stable_sort_by_sorted_key {T : Type} (key : T -> string)
  (l : list T) :
  non_decreasing localeCompare compareOptions (List.map key l) ->
  stable_sort
    (fun a b => compare_names localeCompare compareOptions (key a) (key b)) l
  = l.
Proof.
  intros H. apply stable_sort_Sorted_id.
  now apply (Sorted_map_inv key) in H.
Qed.

Lemma sorted_map_of_sorted {V W : Type} (f : V -> W) (map : ObjMap V) :
  non_decreasing localeCompare compareOptions (Object_keys map) ->
  sorted_map localeCompare compareOptions f map = map_values f map.
Proof.
  intros H. unfold sorted_map, by_key. apply stable_sort_by_sorted_key.
  unfold map_values. rewrite map_map. exact H.
Qed.

Lemma sorted_map_twice_keys {U V W : Type} (f : U -> V) (g : V -> W)
  (map : ObjMap U) :
  Object_keys
    (sorted_map localeCompare compareOptions g
       (sorted_map localeCompare compareOptions f map))
  = Object_keys (sorted_map localeCompare compareOptions f map).
Proof. now rewrite !sorted_map_keys, stable_sort_twice. Qed.

End SortedAgain.

Lemma Forall2_map_r_impl {A B C : Type} (R : A -> B -> Prop)
  (Q : A -> C -> Prop) (f : B -> C) (l : list A) (l' : list B) :
  (forall a b, In a l -> R a b -> Q a (f b)) ->
  Forall2 R l l' -> Forall2 Q l (List.map f l').
Proof.
  intros H HR. induction HR as [|a b l l' Hab _ IH]; [constructor|].
  cbn [List.map]. constructor.
  - apply H; [now left|exact Hab].
  - apply IH. intros x y Hx. apply H. now right.
Qed.

Section Again.

Variable localeCompare : LocaleCompare.
Variable isIntrospectionType : GraphQLNamedType -> bool.
Variable compareOptions : option CompareOptions.
Hypothesis total : total_comparator localeCompare compareOptions.
Variable h : Heap.
Variable schema : GraphQLSchema.
Hypothesis wf : well_formed isIntrospectionType h schema = true.

Let typeMap1 : ObjMap addr :=
  sorted_index localeCompare isIntrospectionType h compareOptions schema.
Let schema1 : GraphQLSchema :=
  fst (sorted_schema localeCompare isIntrospectionType h compareOptions
         schema).
Let h1 : Heap :=
  snd (sorted_schema localeCompare isIntrospectionType h compareOptions
         schema).
Let typeMap2 : ObjMap addr :=
  sorted_index localeCompare isIntrospectionType h1 compareOptions schema1.
Let schema2 : GraphQLSchema :=
  fst (sorted_schema localeCompare isIntrospectionType h1 compareOptions
         schema1).
Let h2 : Heap :=
  snd (sorted_schema localeCompare isIntrospectionType h1 compareOptions
         schema1).

Let wf1 : well_formed isIntrospectionType h1 schema1 = true :=
  sorted_schema_well_formed localeCompare isIntrospectionType compareOptions
    h schema wf.

Lemma sorted_types_again (arr : list ref) :
  forallb (ref_ok (schema_types schema)) arr = true ->
  List.map (ref_name h2)
    (sorted_types localeCompare h1 compareOptions typeMap2
       (sorted_types localeCompare h compareOptions typeMap1 arr))
  = List.map (ref_name h1)
      (sorted_types localeCompare h compareOptions typeMap1 arr).
Proof.
  intros Hok. unfold h2, typeMap2.
  rewrite (sorted_types_names localeCompare isIntrospectionType
             compareOptions h1 schema1 wf1)
    by now apply sorted_types_ok.
  unfold h1, typeMap1.
  rewrite (sorted_types_names localeCompare isIntrospectionType
             compareOptions h schema wf arr Hok).
  now apply stable_sort_twice.
Qed.

Lemma sorted_fields_again (fields : ObjMap GraphQLFieldConfig) :
  same_field_order
    (sorted_fields localeCompare h compareOptions typeMap1 fields)
    (sorted_fields localeCompare h1 compareOptions typeMap2
       (sorted_fields localeCompare h compareOptions typeMap1 fields)).
Proof.
  unfold sorted_fields at 2.
  rewrite sorted_map_of_sorted by now apply sorted_map_non_decreasing.
  assert (Hargs : forall e,
             In e (sorted_fields localeCompare h compareOptions typeMap1
                     fields) ->
             Object_keys
               (sorted_args localeCompare h1 compareOptions typeMap2
                  (field_args (snd e)))
             = Object_keys (field_args (snd e))).
  { intros e He. unfold sorted_fields in He.
    apply (Permutation_in _ (sorted_map_Permutation localeCompare
                               compareOptions _ fields)) in He.
    unfold map_values in He. apply in_map_iff in He.
    destruct He as [e0 [<- _]]. cbn [snd sorted_field field_args].
    unfold sorted_args. now apply sorted_map_twice_keys. }
  revert Hargs.
  generalize (sorted_fields localeCompare h compareOptions typeMap1 fields).
  intros l. induction l as [|e l IH]; intros Hargs; [constructor|].
  cbn [map_values List.map]. constructor.
  - cbn [fst snd sorted_field field_args]. split; [reflexivity|].
    apply Hargs. now left.
  - apply IH. intros e' He'. apply Hargs. now right.
Qed.

Lemma sorted_copy_again (type : GraphQLNamedType) :
  members_ok (ref_ok (schema_types schema)) type = true ->
  same_order h1 h2
    (sorted_copy localeCompare h compareOptions typeMap1 type)
    (sorted_copy localeCompare h1 compareOptions typeMap2
       (sorted_copy localeCompare h compareOptions typeMap1 type)).
Proof.
  destruct type; simpl; intros Hok; try discriminate; try reflexivity.
  - apply andb_true_iff in Hok. destruct Hok as [Hi _].
    split; [reflexivity|].
    split; [now apply sorted_types_again|apply sorted_fields_again].
  - apply andb_true_iff in Hok. destruct Hok as [Hi _].
    split; [reflexivity|].
    split; [now apply sorted_types_again|apply sorted_fields_again].
  - split; [reflexivity|now apply sorted_types_again].
  - split; [reflexivity|now apply sorted_map_twice_keys].
  - split; [reflexivity|].
    unfold sorted_input_fields. now apply sorted_map_twice_keys.
Qed.

Lemma sorted_types_of_sorted_schema :
  stable_sort (by_name localeCompare h1 compareOptions)
    (schema_types schema1)
  = schema_types schema1.
Proof.
  unfold by_name. apply stable_sort_by_sorted_key.
  now apply output_types_non_decreasing.
Qed.

Lemma sorted_directives_of_sorted_schema :
  stable_sort (by_directive_name localeCompare compareOptions)
    (schema_directives schema1)
  = schema_directives schema1.
Proof.
  unfold by_directive_name. apply stable_sort_by_sorted_key.
  now apply output_directives_non_decreasing.
Qed.

Lemma types_again :
  Forall2 (type_same_order isIntrospectionType h1 h2)
    (schema_types schema1) (schema_types schema2).
Proof.
  assert (H := sorted_index_types localeCompare isIntrospectionType
                 compareOptions h1 schema1
                 (well_formed_references isIntrospectionType h1 schema1 wf1)).
  cbv zeta in H. rewrite sorted_types_of_sorted_schema in H.
  fold typeMap2 in H. fold h2 in H.
  assert (Hcases := output_type_cases localeCompare isIntrospectionType
                      compareOptions h schema wf).
  fold schema1 in Hcases. fold h1 in Hcases. fold typeMap1 in Hcases.
  unfold schema2, sorted_schema. cbn [fst schema_types]. fold typeMap2.
  unfold objectValues.
  refine (Forall2_map_r_impl _ _ snd _ _ _ H).
  intros a e Ha [_ [Hat Hp]].
  set (a' := snd e) in *. clearbody a'.
  assert (Hname : name_at h2 a' = name_at h1 a).
  { etransitivity; [exact (proj2 (nth_error_name_at h2 a' _ Hat))|].
    unfold replacement_of.
    destruct (passes_through isIntrospectionType (type_at h1 a));
      [reflexivity|apply type_name_sorted_copy]. }
  split; [exact Hname|].
  apply nth_error_name_at in Hat. destruct Hat as [Hat _].
  unfold replacement_of in Hat.
  destruct (passes_through isIntrospectionType (type_at h1 a)) eqn:Hpass.
  - split; [exact Hp|exact Hat].
  - destruct (Hcases a Ha) as [_ [_ [[Hpass' _]|[t [Hm Ht]]]]];
      [congruence|].
    rewrite Hat, Ht. now apply sorted_copy_again.
Qed.

Lemma directives_again :
  Forall2 directive_same_order (schema_directives schema1)
    (schema_directives schema2).
Proof.
  unfold schema2, sorted_schema. cbn [fst schema_directives].
  fold typeMap2. rewrite sorted_directives_of_sorted_schema.
  assert (H : forall d1,
             In d1 (schema_directives schema1) ->
             directive_same_order d1
               (sorted_directive localeCompare h1 compareOptions typeMap2
                  d1)).
  { unfold schema1, sorted_schema. cbn [fst schema_directives].
    intros d1 Hin. apply in_map_iff in Hin. destruct Hin as [d [<- _]].
    split; [reflexivity|].
    cbn [sorted_directive locations directive_args].
    split; [now apply stable_sort_twice|].
    unfold sorted_args. now apply sorted_map_twice_keys. }
  revert H. generalize (schema_directives schema1).
  intros l. induction l as [|d l IH]; intros H; [constructor|].
  cbn [List.map]. constructor; [apply H; now left|].
  apply IH. intros d' Hd'. apply H. now right.
Qed.

Lemma root_again (root : ref) :
  root_ok (ref_ok (schema_types schema1)) root = true ->
  ref_name h2 (replaced_ref h1 typeMap2 root) = ref_name h1 root.
Proof.
  destruct root as [a|]; [|reflexivity]. intros Hok.
  now apply (replaced_ref_name localeCompare isIntrospectionType
               compareOptions h1 schema1 wf1).
Qed.

End Again.

(** C5. Sorting the sorted copy of a well-formed schema again, with the
    same [compareOptions] and a total comparator, returns a schema with
    the same names in the same order in every collection: its types, and
    in each type its interfaces, members, fields, arguments and values;
    its directives, and in each directive its locations and arguments;
    and its roots.  A type that passes through is the same instance; the
    other types are new instances. *)
Theorem sorting_again_keeps_every_order
  (localeCompare : LocaleCompare)
  (isIntrospectionType : GraphQLNamedType -> bool)
  (compareOptions : option CompareOptions) (h : Heap)
  (schema schema1 : GraphQLSchema) (h1 : Heap) :
  well_formed isIntrospectionType h schema = true ->
  total_comparator localeCompare compareOptions ->
  lexicographicSortSchema localeCompare isIntrospectionType schema
    compareOptions h
  = Ok (schema1, h1) ->
  exists schema2 h2,
    lexicographicSortSchema localeCompare isIntrospectionType schema1
      compareOptions h1
    = Ok (schema2, h2)
    /\ List.map (name_at h2) (schema_types schema2)
       = List.map (name_at h1) (schema_types schema1)
    /\ Forall2 (type_same_order isIntrospectionType h1 h2)
         (schema_types schema1) (schema_types schema2)
    /\ Forall2 directive_same_order (schema_directives schema1)
         (schema_directives schema2)
    /\ ref_name h2 (query schema2) = ref_name h1 (query schema1)
    /\ ref_name h2 (mutation schema2) = ref_name h1 (mutation schema1)
    /\ ref_name h2 (subscription schema2)
       = ref_name h1 (subscription schema1).
Proof.
  intros wf total Hrun.
  destruct (sorted_schema_eq _ _ _ _ _ _ _ wf Hrun) as [-> ->].
  assert (wf1 := sorted_schema_well_formed localeCompare
                   isIntrospectionType compareOptions h schema wf).
  eexists. eexists. split.
  { rewrite (lexicographicSortSchema_sorted_schema localeCompare
               isIntrospectionType compareOptions _ _ wf1
               (total_comparator_accepts _ _ total)).
    apply f_equal, surjective_pairing. }
  assert (Htypes := types_again localeCompare isIntrospectionType
                      compareOptions total h schema wf).
  split.
  { clear - Htypes. induction Htypes as [|a a' l l' [Hn _] _ IH];
      [reflexivity|]. cbn [List.map]. now rewrite Hn, IH. }
  split; [exact Htypes|].
  split; [now apply directives_again|].
  destruct (well_formed_roots isIntrospectionType _ _ wf1)
    as [Hq [Hm Hs]].
  repeat split; now apply root_again.
Qed.

(** ** Ties *)

Lemma filter_map_swap {A B : Type} (f : A -> B) (p : B -> bool)
  (l : list A) :
  filter p (List.map f l) = List.map f (filter (fun x => p (f x)) l).
Proof.
  induction l as [|x l IH]; [reflexivity|].
  simpl. destruct (p (f x)); simpl; now rewrite IH.
Qed.

Lemma sortObjMap_loop_keys {T R : Type} (map : ObjMap T)
  (sortValueFn : T -> result R) (keys : list string)
  (sortedMap out : ObjMap R) :
  sortObjMap_loop map sortValueFn keys sortedMap = Ok out ->
  NoDup (Object_keys sortedMap ++ keys) ->
  (forall key, In key keys -> not_index key = true) ->
  Object_keys out = Object_keys sortedMap ++ keys.
Proof.
  revert sortedMap. induction keys as [|key keys IH];
    intros sortedMap Hloop Hnd Hidx.
  - simpl in Hloop. injection Hloop as <-. now rewrite app_nil_r.
  - simpl in Hloop. destruct (obj_get map key) as [value|]; [|discriminate].
    apply bind_Ok in Hloop. destruct Hloop as [v [_ Hloop]].
    rewrite obj_set_new in Hloop.
    + apply IH in Hloop.
      * rewrite Hloop. unfold Object_keys. rewrite map_app, <- app_assoc.
        reflexivity.
      * unfold Object_keys in *. rewrite map_app, <- app_assoc. exact Hnd.
      * intros k Hk. apply Hidx. now right.
    + apply NoDup_remove_2 in Hnd. intros Hin. apply Hnd.
      apply in_or_app. now left.
    + apply Hidx. now left.
Qed.

Section Ties.

Variable localeCompare : LocaleCompare.
Variable compareOptions : option CompareOptions.

Lemma sortObjMap_keys {T R : Type} (map : ObjMap T)
  (sortValueFn : T -> result R) (out : ObjMap R) :
  keys_ok map = true ->
  sortObjMap localeCompare map sortValueFn compareOptions = Ok out ->
  Object_keys out
  = stable_sort (compare_names localeCompare compareOptions)
      (Object_keys map).
Proof.
  intros Hok Hsort. destruct (keys_ok_spec map Hok) as [Hnd Hidx].
  unfold sortObjMap in Hsort.
  destruct (sortBy localeCompare (Object_keys map) (fun x => Ok x)
              compareOptions) as [keys|e] eqn:E; [|discriminate].
  apply sortBy_keys_returned in E. subst keys.
  cbn [bind] in Hsort. apply sortObjMap_loop_keys in Hsort.
  - exact Hsort.
  - simpl.
    eapply Permutation_NoDup; [apply stable_sort_Permutation|exact Hnd].
  - intros key Hin. apply stable_sort_In in Hin. now apply Hidx.
Qed.

Hypothesis transitive : transitive_comparator localeCompare compareOptions.

Lemma name_tie_le (name x y : string) :
  name_tie localeCompare compareOptions name x = true ->
  name_tie localeCompare compareOptions name y = true ->
  (compare_names localeCompare compareOptions x y <= 0)%Z.
Proof.
  unfold name_tie. rewrite !andb_true_iff, !Z.leb_le.
  intros [_ Hx] [Hy _]. exact (transitive x name y Hx Hy).
Qed.

Lemma stable_sort_ties {T : Type} (key : T -> string) (name : string)
  (l : list T) :
  filter (fun x => name_tie localeCompare compareOptions name (key x))
    (stable_sort
       (fun a b =>
          compare_names localeCompare compareOptions (key a) (key b))
       l)
  = filter (fun x => name_tie localeCompare compareOptions name (key x)) l.
Proof.
  apply stable_sort_filter. intros x y Hx Hy.
  now apply (name_tie_le name).
Qed.

End Ties.

(** C10. With a transitive comparator, names that compare equal keep the
    order of the input: among the elements [sortBy] returns, among the
    keys of the map [sortObjMap] returns, and among the types and the
    directives of the output of a well-formed schema, those whose name
    ties with a given name are in the order they had before.  [sortBy]
    returns when the platform accepts the locales and the options and
    every element has a key. *)
Theorem ties_keep_the_order_of_the_input
  (localeCompare : LocaleCompare)
  (isIntrospectionType : GraphQLNamedType -> bool)
  (compareOptions : option CompareOptions) :
  transitive_comparator localeCompare compareOptions ->
  (forall (T : Type) (array : list T) (mapToKey : T -> result string)
     (key : T -> string) (name : string),
     (forall x, In x array -> mapToKey x = Ok (key x)) ->
     (accepts localeCompare compareOptions ->
      exists sorted,
        sortBy localeCompare array mapToKey compareOptions = Ok sorted)
     /\ forall sorted,
          sortBy localeCompare array mapToKey compareOptions = Ok sorted ->
          filter
            (fun x => name_tie localeCompare compareOptions name (key x))
            sorted
          = filter
              (fun x => name_tie localeCompare compareOptions name (key x))
              array)
  /\ (forall (T R : Type) (map : ObjMap T) (sortValueFn : T -> result R)
        (sortedMap : ObjMap R) (name : string),
        keys_ok map = true ->
        sortObjMap localeCompare map sortValueFn compareOptions
        = Ok sortedMap ->
        filter (name_tie localeCompare compareOptions name)
          (Object_keys sortedMap)
        = filter (name_tie localeCompare compareOptions name)
            (Object_keys map))
  /\ (forall (h : Heap) (schema schema' : GraphQLSchema) (h' : Heap)
        (name : string),
        well_formed isIntrospectionType h schema = true ->
        lexicographicSortSchema localeCompare isIntrospectionType schema
          compareOptions h
        = Ok (schema', h') ->
        filter (name_tie localeCompare compareOptions name)
          (List.map (name_at h') (schema_types schema'))
        = filter (name_tie localeCompare compareOptions name)
            (List.map (name_at h) (schema_types schema))
        /\ filter (name_tie localeCompare compareOptions name)
             (List.map directive_name (schema_directives schema'))
           = filter (name_tie localeCompare compareOptions name)
               (List.map directive_name (schema_directives schema))).
Proof.
  intros transitive. split; [|split].
  - intros T array mapToKey key name Hkey. split.
    + intros accepted. eexists.
      exact (sortBy_stable localeCompare compareOptions accepted array
               mapToKey key Hkey).
    + intros sorted Hsort.
      rewrite (sortBy_returned localeCompare compareOptions array sorted
                 mapToKey key); [now apply stable_sort_ties| |exact Hsort].
      intros x k Hx Hk. rewrite (Hkey x Hx) in Hk. now injection Hk.
  - intros T R map sortValueFn sortedMap name Hok Hsort.
    rewrite (sortObjMap_keys localeCompare compareOptions map sortValueFn
               sortedMap Hok Hsort).
    now apply (stable_sort_ties localeCompare compareOptions transitive
                 (fun x => x)).
  - intros h schema schema' h' name wf Hrun.
    destruct (sorted_schema_eq _ _ _ _ _ _ _ wf Hrun) as [-> ->]. split.
    + rewrite (output_type_names localeCompare isIntrospectionType
                 compareOptions h schema
                 (well_formed_references isIntrospectionType h schema wf)).
      rewrite !filter_map_swap. f_equal. unfold by_name.
      now apply (stable_sort_ties localeCompare compareOptions transitive
                   (name_at h)).
    + unfold sorted_schema. cbn [fst schema_directives].
      rewrite map_map. cbn [sorted_directive directive_name].
      rewrite !filter_map_swap. f_equal. unfold by_directive_name.
      now apply (stable_sort_ties localeCompare compareOptions transitive
                   directive_name).
Qed.

(** ** The theorems at work on the examples *)

Lemma absent_type_reference_becomes_undefined_witness :
  (exists schema' h',
     lexicographicSortSchema example_localeCompare
       example_isIntrospectionType dangling_schema None dangling_heap
     = Ok (schema', h')
     /\ exists a',
          In a' (schema_types schema')
          /\ (List.length dangling_heap <= a')%nat
          /\ type_at h' a'
             = GraphQLObjectType "Query" []
                 [("ghost", field_of (Named None))] "")
  /\ lexicographicSortSchema example_localeCompare
       example_isIntrospectionType dangling_schema None dangling_list_heap
     = Throw (Error "Expected undefined to be a GraphQL type.").
Proof.
  split.
  - destruct (absent_type_reference_becomes_undefined example_localeCompare
                example_isIntrospectionType None dangling_heap
                dangling_schema eq_refl
                (example_localeCompare_accepts None eq_refl))
      as [_ [Hreturns _]].
    destruct (Hreturns eq_refl)
      as [schema' [h' [Hrun [_ [_ [_ [_ Htypes]]]]]]].
    exists schema', h'. split; [exact Hrun|].
    destruct (Htypes 0%nat (or_introl eq_refl) eq_refl)
      as [a' [_ [Hin [Hnew Hat]]]].
    exists a'. split; [exact Hin|]. split; [exact Hnew|exact Hat].
  - destruct (absent_type_reference_becomes_undefined example_localeCompare
                example_isIntrospectionType None dangling_list_heap
                dangling_schema eq_refl
                (example_localeCompare_accepts None eq_refl))
      as [_ [_ Hthrows]].
    destruct (Hthrows eq_refl) as [Hlist|Hnonnull]; [exact Hlist|].
    vm_compute in Hnonnull. discriminate Hnonnull.
Defined.


Lemma output_is_sorted_by_name_witness :
  non_decreasing example_localeCompare None
    (List.map (name_at (snd cyclic_sorted))
       (schema_types (fst cyclic_sorted)))
  /\ non_decreasing example_localeCompare None
       (List.map directive_name (schema_directives (fst cyclic_sorted))).
Proof.
  destruct (output_is_sorted_by_name example_localeCompare
              example_isIntrospectionType None cyclic_heap cyclic_schema
              (fst cyclic_sorted) (snd cyclic_sorted) eq_refl
              (example_localeCompare_total None eq_refl) eq_refl)
    as [Htypes [Hdirectives _]].
  split; [exact Htypes|exact Hdirectives].
Defined.

Lemma output_has_the_names_of_the_input_witness :
  Permutation (List.map (name_at cyclic_heap) (schema_types cyclic_schema))
    (List.map (name_at (snd cyclic_sorted))
       (schema_types (fst cyclic_sorted))).
Proof.
  apply (output_has_the_names_of_the_input example_localeCompare
           example_isIntrospectionType None cyclic_heap cyclic_schema
           (fst cyclic_sorted) (snd cyclic_sorted) eq_refl eq_refl).
Defined.

Lemma sorting_again_keeps_every_order_witness :
  exists schema2 h2,
    lexicographicSortSchema example_localeCompare
      example_isIntrospectionType (fst cyclic_sorted) None
      (snd cyclic_sorted)
    = Ok (schema2, h2)
    /\ List.map (name_at h2) (schema_types schema2)
       = List.map (name_at (snd cyclic_sorted))
           (schema_types (fst cyclic_sorted)).
Proof.
  destruct (sorting_again_keeps_every_order example_localeCompare
              example_isIntrospectionType None cyclic_heap cyclic_schema
              (fst cyclic_sorted) (snd cyclic_sorted) eq_refl
              (example_localeCompare_total None eq_refl) eq_refl)
    as [schema2 [h2 [Hrun [Hnames _]]]].
  exists schema2, h2. split; [exact Hrun|exact Hnames].
Defined.

Lemma lexicographicSortSchema_leaves_input_witness :
  (exists instances, snd cyclic_sorted = cyclic_heap ++ instances)
  /\ nth_error
       (snd (sortBy_cells example_localeCompare 0 (fun x => Ok x) None
               [["b"; "a"]; ["d"; "c"]]))
       0
     = Some ["b"; "a"].
Proof.
  destruct (lexicographicSortSchema_leaves_input example_localeCompare
              example_isIntrospectionType cyclic_schema None cyclic_heap)
    as [Hheap [Hcells _]].
  split.
  - apply (Hheap (fst cyclic_sorted) (snd cyclic_sorted) eq_refl).
  - apply (Hcells string 0%nat (fun x => Ok x) [["b"; "a"]; ["d"; "c"]] 0%nat
             ["b"; "a"] eq_refl).
Defined.

Lemma scalars_and_introspection_types_pass_through_witness :
  (In 3 (schema_types (fst cyclic_sorted))
   /\ nth_error cyclic_heap 3 = Some (type_at cyclic_heap 3)
   /\ nth_error (snd cyclic_sorted) 3 = Some (type_at cyclic_heap 3))
  /\ exists a',
       In a' (schema_types (fst cyclic_sorted))
       /\ (List.length cyclic_heap <= a')%nat
       /\ name_at (snd cyclic_sorted) a' = "B".
Proof.
  split.
  - apply (scalars_and_introspection_types_pass_through
             example_localeCompare example_isIntrospectionType None
             cyclic_heap cyclic_schema (fst cyclic_sorted)
             (snd cyclic_sorted) 3 eq_refl
             (example_localeCompare_total None eq_refl) eq_refl).
    + simpl. tauto.
    + reflexivity.
  - destruct (scalars_and_introspection_types_pass_through
                example_localeCompare example_isIntrospectionType None
                cyclic_heap cyclic_schema (fst cyclic_sorted)
                (snd cyclic_sorted) 0 eq_refl
                (example_localeCompare_total None eq_refl) eq_refl
                (or_introl eq_refl))
      as [_ Hrebuilt].
    destruct (Hrebuilt eq_refl) as [_ [a' [Hin [Hnew [Hname _]]]]].
    exists a'. split; [exact Hin|]. split; [exact Hnew|exact Hname].
Defined.

Lemma roots_are_replaced_witness :
  root_replaced
    (stands_for example_localeCompare example_isIntrospectionType
       cyclic_heap None
       (sorted_index example_localeCompare example_isIntrospectionType
          cyclic_heap None cyclic_schema)
       (schema_types (fst cyclic_sorted)) (snd cyclic_sorted))
    (query cyclic_schema) (query (fst cyclic_sorted))
  /\ subscription (fst cyclic_sorted) = None.
Proof.
  destruct (roots_are_replaced example_localeCompare
              example_isIntrospectionType None cyclic_heap cyclic_schema
              (fst cyclic_sorted) (snd cyclic_sorted) eq_refl eq_refl)
    as [Hquery [_ Hsubscription]].
  split; [exact Hquery|exact Hsubscription].
Defined.

Lemma sortNamedType_total_dispatch_witness :
  (exists replacement pending',
     sortNamedType example_localeCompare example_isIntrospectionType
       cyclic_heap None 4 []
     = Ok (replacement, pending'))
  /\ sortNamedType example_localeCompare example_isIntrospectionType
       unknown_heap None 0 []
     = Throw (InvariantViolation "Unexpected type: Mystery").
Proof.
  split.
  - destruct (sortNamedType_total_dispatch example_localeCompare
                example_isIntrospectionType cyclic_heap None 4
                (GraphQLEnumType "Color"
                   [("RED", "r"); ("GREEN", "g"); ("BLUE", "b")] "")
                [] eq_refl)
      as [Hknown _].
    destruct (Hknown eq_refl) as [_ [_ Hreturns]].
    exact (Hreturns (example_localeCompare_accepts None eq_refl)).
  - apply (sortNamedType_total_dispatch example_localeCompare
             example_isIntrospectionType unknown_heap None 0
             (OtherType "Mystery" "") [] eq_refl).
    reflexivity.
Defined.

Lemma ties_keep_the_order_of_the_input_witness :
  exists sorted,
    sortBy example_localeCompare ["b"; "a"; "B"; "A"] (fun x => Ok x)
      base_sensitivity
    = Ok sorted
    /\ filter (name_tie example_localeCompare base_sensitivity "a") sorted
       = ["a"; "A"].
Proof.
  destruct (ties_keep_the_order_of_the_input example_localeCompare
              example_isIntrospectionType base_sensitivity
              (example_localeCompare_transitive base_sensitivity eq_refl))
    as [HsortBy _].
  destruct (HsortBy string ["b"; "a"; "B"; "A"] (fun x => Ok x)
              (fun x => x) "a" (fun x _ => eq_refl))
    as [Hreturns Hties].
  destruct (Hreturns (example_localeCompare_accepts base_sensitivity eq_refl))
    as [sorted Hsorted].
  exists sorted. split; [exact Hsorted|exact (Hties sorted Hsorted)].
Defined.

(** * The functions of the sorter on any input *)

(** ** Assignment and lookup *)

Lemma obj_get_overwrite {V : Type} (map : ObjMap V) (key key' : string)
  (value : V) :
  In key (Object_keys map) ->
  obj_get (obj_overwrite map key value) key'
  = if String.eqb key key' then Some value else obj_get map key'.
Proof.
  induction map as [|[k v] map IH]; simpl; [tauto|]. intros Hin.
  destruct (String.eqb_spec k key) as [->|Hne].
  - simpl. destruct (String.eqb_spec key key'); reflexivity.
  - destruct Hin as [Hk|Hin]; [congruence|]. simpl.
    destruct (String.eqb_spec k key') as [->|Hne'].
    + destruct (String.eqb_spec key key'); [congruence|reflexivity].
    + now apply IH.
Qed.

Lemma obj_get_add_index {V : Type} (map : ObjMap V) (n : N)
  (key key' : string) (value : V) :
  ~ In key (Object_keys map) ->
  obj_get (obj_add_index map n key value) key'
  = if String.eqb key key' then Some value else obj_get map key'.
Proof.
  induction map as [|[k v] map IH]; simpl; intros Hnew.
  - reflexivity.
  - assert (Hk : k <> key) by tauto.
    assert (Hhere :
              obj_get ((key, value) :: (k, v) :: map) key'
              = if String.eqb key key' then Some value
                else if String.eqb k key' then Some v else obj_get map key')
      by reflexivity.
    destruct (array_index k) as [m|]; [|exact Hhere].
    destruct (m <? n)%N; [|exact Hhere].
    simpl. destruct (String.eqb_spec k key') as [->|Hne].
    + destruct (String.eqb_spec key key'); [congruence|reflexivity].
    + apply IH. tauto.
Qed.

Lemma obj_get_app {V : Type} (map : ObjMap V) (key key' : string)
  (value : V) :
  ~ In key (Object_keys map) ->
  obj_get (map ++ [(key, value)]) key'
  = if String.eqb key key' then Some value else obj_get map key'.
Proof.
  induction map as [|[k v] map IH]; simpl; intros Hnew.
  - reflexivity.
  - destruct (String.eqb_spec k key') as [->|Hne].
    + destruct (String.eqb_spec key key'); [subst; tauto|reflexivity].
    + apply IH. tauto.
Qed.

(** Reading after [map[key] = value]. *)
Lemma obj_get_set {V : Type} (map : ObjMap V) (key key' : string)
  (value : V) :
  obj_get (obj_set map key value) key'
  = if String.eqb key key' then Some value else obj_get map key'.
Proof.
  unfold obj_set. destruct (obj_has map key) eqn:Hhas.
  - apply obj_get_overwrite. now apply obj_has_In.
  - assert (Hnew : ~ In key (Object_keys map)).
    { intros Hin. apply obj_has_In in Hin. congruence. }
    destruct (array_index key);
      [now apply obj_get_add_index|now apply obj_get_app].
Qed.

Lemma obj_get_keys {V : Type} (map : ObjMap V) (key : string) :
  In key (Object_keys map) <-> exists value, obj_get map key = Some value.
Proof.
  split.
  - intros Hin. destruct (obj_get map key) as [v|] eqn:Hget; [now exists v|].
    apply obj_get_None in Hget. contradiction.
  - intros [v Hv]. apply obj_get_Some_In in Hv.
    apply in_map_iff. now exists (key, v).
Qed.

(** ** [sortBy] on any array *)

Section SortBy.

Variable localeCompare : LocaleCompare.
Variable compareOptions : option CompareOptions.

Variable T : Type.
Variable mapToKey : T -> result string.

Let comparefn (obj1 obj2 : T) : result Z :=
  key1 <- mapToKey obj1 ;;
  key2 <- mapToKey obj2 ;;
  String_localeCompare localeCompare key1 key2
    (optional_locales compareOptions) (optional_options compareOptions).

Let has_key (x : T) : Prop := exists key, mapToKey x = Ok key.

Lemma comparefn_keys (x y : T) (c : Z) :
  comparefn x y = Ok c ->
  has_key x /\ has_key y /\ accepts localeCompare compareOptions.
Proof.
  unfold comparefn, has_key. intros H.
  apply bind_Ok in H. destruct H as [k1 [H1 H]].
  apply bind_Ok in H. destruct H as [k2 [H2 H]].
  split; [now exists k1|]. split; [now exists k2|].
  unfold String_localeCompare in H. unfold accepts.
  destruct (localeCompare (optional_locales compareOptions)
              (optional_options compareOptions)) as [compare|];
    [now exists compare|discriminate].
Qed.

Lemma sort_insert_keys (x : T) (sorted out : list T) :
  sort_insert comparefn x sorted = Ok out ->
  sorted <> [] ->
  has_key x /\ (exists y, In y sorted /\ has_key y)
  /\ accepts localeCompare compareOptions.
Proof.
  destruct sorted as [|y rest]; [congruence|]. intros H _.
  simpl in H. apply bind_Ok in H. destruct H as [c [Hc _]].
  apply comparefn_keys in Hc. split; [tauto|].
  split; [|tauto]. exists y. split; [now left|tauto].
Qed.

Lemma Array_sort_keys (array out : list T) :
  Array_sort comparefn array = Ok out ->
  (List.length array <= 1)%nat
  \/ ((forall x, In x array -> has_key x)
      /\ accepts localeCompare compareOptions).
Proof.
  revert out. induction array as [|x rest IH]; intros out H.
  - left. simpl. lia.
  - simpl in H. apply bind_Ok in H. destruct H as [sorted [Hrest H]].
    destruct rest as [|y rest']; [left; simpl; lia|right].
    pose proof (Array_sort_Permutation _ _ _ Hrest) as Hperm.
    assert (Hne : sorted <> []).
    { intros ->. now apply Permutation_sym, Permutation_nil in Hperm. }
    destruct (sort_insert_keys _ _ _ H Hne) as [Hx [[z [Hz Hkz]] Hacc]].
    split; [|exact Hacc].
    intros w [<-|Hw]; [exact Hx|].
    destruct (IH _ Hrest) as [Hlen|[Hall _]]; [|now apply Hall].
    destruct rest' as [|? ?]; [|simpl in Hlen; lia].
    destruct Hw as [<-|[]].
    apply Permutation_sym in Hperm.
    apply (Permutation_in _ Hperm) in Hz. now destruct Hz as [<-|[]].
Qed.

Let key_of (x : T) : string :=
  match mapToKey x with
  | Ok key => key
  | Throw _ => ""
  end.

Lemma key_of_has_key (array : list T) :
  (forall x, In x array -> has_key x) ->
  forall x, In x array -> mapToKey x = Ok (key_of x).
Proof.
  intros H x Hx. destruct (H x Hx) as [key Hkey]. unfold key_of.
  now rewrite Hkey.
Qed.

Lemma key_of_key (x : T) (key : string) :
  mapToKey x = Ok key -> key_of x = key.
Proof. intros H. unfold key_of. now rewrite H. Qed.

Lemma Array_map_key_of (array : list T) (keys : list string) :
  Array_map mapToKey array = Ok keys -> keys = List.map key_of array.
Proof.
  revert keys. induction array as [|x rest IH]; intros keys H.
  - simpl in H. now injection H as <-.
  - simpl in H. apply bind_Ok in H. destruct H as [k [Hk H]].
    apply bind_Ok in H. destruct H as [ks [Hks H]]. injection H as <-.
    simpl. now rewrite (key_of_key x k Hk), (IH ks Hks).
Qed.

Lemma sortBy_short (array : list T) :
  (List.length array <= 1)%nat ->
  sortBy localeCompare array mapToKey compareOptions = Ok array.
Proof.
  intros Hlen. destruct array as [|x [|y rest]]; [reflexivity|reflexivity|].
  simpl in Hlen. lia.
Qed.

Lemma sortBy_returns (array : list T) :
  ((exists out, sortBy localeCompare array mapToKey compareOptions = Ok out)
   <-> (List.length array <= 1)%nat
       \/ (accepts localeCompare compareOptions
           /\ forall x, In x array -> exists key, mapToKey x = Ok key))
  /\ ((List.length array <= 1)%nat ->
      sortBy localeCompare array mapToKey compareOptions = Ok array).
Proof.
  split; [split|apply sortBy_short].
  - intros [out H].
    destruct (Array_sort_keys array out H) as [Hlen|[Hall Hacc]];
      [now left|right; now split].
  - intros [Hlen|[Hacc Hall]]; [exists array; now apply sortBy_short|].
    eexists.
    apply (sortBy_stable localeCompare compareOptions Hacc array mapToKey
             key_of).
    now apply key_of_has_key.
Qed.

Lemma sortBy_sorted (array out : list T) :
  sortBy localeCompare array mapToKey compareOptions = Ok out ->
  Permutation array out
  /\ (total_comparator localeCompare compareOptions ->
      forall keys,
        Array_map mapToKey out = Ok keys ->
        non_decreasing localeCompare compareOptions keys).
Proof.
  intros H. split; [now apply (Array_sort_Permutation _ _ _ H)|].
  intros total keys Hkeys.
  apply (sortBy_returned localeCompare compareOptions array out mapToKey
           key_of) in H;
    [|intros x k _; apply key_of_key].
  subst out. apply Array_map_key_of in Hkeys. subst keys.
  rewrite stable_sort_map. now apply stable_sort_non_decreasing.
Qed.

End SortBy.

Lemma sortBy_rejected
  (localeCompare : LocaleCompare)
  (compareOptions : option CompareOptions) (T : Type)
  (mapToKey : T -> result string) (array : list T) :
  ~ accepts localeCompare compareOptions ->
  (2 <= List.length array)%nat ->
  (forall x, In x array -> exists key, mapToKey x = Ok key) ->
  sortBy localeCompare array mapToKey compareOptions = Throw RangeError.
Proof.
  intros rejected Hlen Hkeys.
  destruct (sortBy localeCompare array mapToKey compareOptions) as [out|e]
    eqn:E.
  - exfalso.
    assert (H : exists out,
               sortBy localeCompare array mapToKey compareOptions = Ok out)
      by now exists out.
    apply (proj1 (sortBy_returns localeCompare compareOptions T mapToKey
                    array)) in H.
    destruct H as [H|[H _]]; [lia|contradiction].
  - apply sortBy_throws in E.
    destruct E as [[x [Hx Hthrow]]|[-> _]]; [|reflexivity].
    destruct (Hkeys x Hx) as [key Hkey]. congruence.
Qed.

Lemma sortBy_keys_returns
  (localeCompare : LocaleCompare)
  (compareOptions : option CompareOptions) (keys : list string) :
  (exists out,
     sortBy localeCompare keys (fun x => Ok x) compareOptions = Ok out)
  <-> (List.length keys <= 1)%nat \/ accepts localeCompare compareOptions.
Proof.
  rewrite (proj1 (sortBy_returns localeCompare compareOptions string
                    (fun x => Ok x) keys)).
  split; intros [H|H]; [now left|right; tauto|now left|right].
  split; [exact H|]. intros x _. now exists x.
Qed.

(** ** [sortObjMap] on any map *)

Lemma sortObjMap_loop_lookup {T R : Type} (map : ObjMap T)
  (sortValueFn : T -> result R) (keys : list string)
  (sortedMap out : ObjMap R) :
  sortObjMap_loop map sortValueFn keys sortedMap = Ok out ->
  forall key,
    (In key keys ->
     exists value value',
       obj_get map key = Some value /\ sortValueFn value = Ok value'
       /\ obj_get out key = Some value')
    /\ (~ In key keys -> obj_get out key = obj_get sortedMap key).
Proof.
  revert sortedMap. induction keys as [|k keys IH]; intros sortedMap Hrun key.
  - simpl in Hrun. injection Hrun as <-. split; [intros []|reflexivity].
  - simpl in Hrun. destruct (obj_get map k) as [value|] eqn:Hget;
      [|discriminate].
    apply bind_Ok in Hrun. destruct Hrun as [v [Hv Hrun]].
    destruct (IH _ Hrun key) as [Hin Hout].
    destruct (in_dec string_dec key keys) as [Hk|Hk].
    + split; [intros _; now apply Hin|]. simpl. tauto.
    + split.
      * intros [->|Hin']; [|contradiction]. exists value, v.
        split; [exact Hget|]. split; [exact Hv|].
        rewrite (Hout Hk), obj_get_set. now rewrite String.eqb_refl.
      * intros Hnot. rewrite (Hout Hk), obj_get_set.
        destruct (String.eqb_spec k key) as [->|Hne]; [|reflexivity].
        exfalso. apply Hnot. now left.
Qed.

Section SortObjMap.

Variable localeCompare : LocaleCompare.
Variable compareOptions : option CompareOptions.

Lemma sortObjMap_get {T R : Type} (map : ObjMap T)
  (sortValueFn : T -> result R) (out : ObjMap R) :
  sortObjMap localeCompare map sortValueFn compareOptions = Ok out ->
  forall key,
    match obj_get map key with
    | Some value =>
        exists value',
          sortValueFn value = Ok value' /\ obj_get out key = Some value'
    | None => obj_get out key = None
    end.
Proof.
  unfold sortObjMap. intros Hrun key.
  destruct (sortBy localeCompare (Object_keys map) (fun x => Ok x)
              compareOptions) as [keys|e] eqn:E; [|discriminate].
  apply sortBy_keys_returned in E. subst keys. cbn [bind] in Hrun.
  destruct (sortObjMap_loop_lookup _ _ _ _ _ Hrun key) as [Hin Hout].
  destruct (obj_get map key) as [value|] eqn:Hget.
  - destruct Hin as [v [v' [Hv [Hf Ho]]]].
    + apply stable_sort_In. apply obj_get_keys. now exists value.
    + exists v'. split; [congruence|exact Ho].
  - apply Hout. intros Hin'. apply stable_sort_In in Hin'.
    apply obj_get_keys in Hin'. destruct Hin' as [v Hv]. congruence.
Qed.

End SortObjMap.

Lemma sortObjMap_loop_throws {T R : Type} (map : ObjMap T)
  (sortValueFn : T -> result R) (keys : list string) (sortedMap : ObjMap R)
  (e : error) :
  (forall key, In key keys -> In key (Object_keys map)) ->
  sortObjMap_loop map sortValueFn keys sortedMap = Throw e ->
  exists key value,
    obj_get map key = Some value /\ sortValueFn value = Throw e.
Proof.
  revert sortedMap. induction keys as [|k keys IH]; intros sortedMap Hin Hrun;
    [discriminate|].
  simpl in Hrun. destruct (obj_get map k) as [value|] eqn:Hget.
  - destruct (sortValueFn value) as [v|e'] eqn:Hv.
    + apply (IH (obj_set sortedMap k v)); [|exact Hrun].
      intros key Hk. apply Hin. now right.
    + simpl in Hrun. injection Hrun as ->. now exists k, value.
  - exfalso. apply obj_get_None in Hget. apply Hget, Hin. now left.
Qed.

Lemma sortObjMap_loop_returns_when {T R : Type} (map : ObjMap T)
  (sortValueFn : T -> result R) (keys : list string) (sortedMap : ObjMap R) :
  (forall key, In key keys -> In key (Object_keys map)) ->
  (forall key value,
     obj_get map key = Some value -> exists r, sortValueFn value = Ok r) ->
  exists out, sortObjMap_loop map sortValueFn keys sortedMap = Ok out.
Proof.
  intros Hin Hf.
  destruct (sortObjMap_loop map sortValueFn keys sortedMap) as [out|e] eqn:Hrun;
    [now exists out|].
  destruct (sortObjMap_loop_throws _ _ _ _ _ Hin Hrun) as [key [value [Hg Ht]]].
  destruct (Hf key value Hg) as [r Hr]. congruence.
Qed.

Lemma obj_set_keys_overwrite {V : Type} (map : ObjMap V) (key : string)
  (value : V) :
  Object_keys (obj_overwrite map key value) = Object_keys map.
Proof.
  induction map as [|[k v] map IH]; [reflexivity|]. simpl.
  destruct (String.eqb_spec k key) as [->|Hne]; simpl; [reflexivity|].
  now rewrite IH.
Qed.

Lemma in_enumeration_order_cons (key : string) (keys : list string) :
  in_enumeration_order (key :: keys) = true ->
  in_enumeration_order keys = true.
Proof. simpl. intros H. apply andb_true_iff in H. tauto. Qed.

Lemma in_enumeration_order_app (keys : list string) (key : string) :
  array_index key = None ->
  in_enumeration_order keys = true ->
  in_enumeration_order (keys ++ [key]) = true.
Proof.
  intros Hkey. induction keys as [|k keys IH]; [reflexivity|].
  intros H. pose proof (in_enumeration_order_cons _ _ H) as Hrest.
  specialize (IH Hrest). cbn [app in_enumeration_order].
  cbn [in_enumeration_order] in H. apply andb_true_iff in H.
  destruct H as [Hhead _]. apply andb_true_iff. split; [|exact IH].
  destruct keys as [|k' keys]; [|exact Hhead]. simpl.
  unfold enumerated_before. rewrite Hkey. now destruct (array_index k).
Qed.

Lemma in_enumeration_order_add_index {V : Type} (map : ObjMap V) (n : N)
  (key : string) (value : V) :
  array_index key = Some n ->
  in_enumeration_order (Object_keys map) = true ->
  in_enumeration_order (Object_keys (obj_add_index map n key value)) = true
  /\ match obj_add_index map n key value with
     | [] => False
     | (k, _) :: _ =>
         k = key \/ (exists m rest, map = (k, m) :: rest
                                     /\ exists i, array_index k = Some i
                                                  /\ (i < n)%N)
     end.
Proof.
  intros Hkey. induction map as [|[k v] map IH]; intros Hord.
  - simpl. split; [reflexivity|now left].
  - assert (Hfront :
              array_index k = None
              \/ (exists m, array_index k = Some m /\ (n <= m)%N) ->
              in_enumeration_order
                (Object_keys ((key, value) :: (k, v) :: map)) = true).
    { intros Hk. change (Object_keys ((key, value) :: (k, v) :: map))
        with (key :: Object_keys ((k, v) :: map)).
      cbn [in_enumeration_order]. rewrite Hord, andb_true_r.
      cbn [Object_keys List.map fst]. unfold enumerated_before. rewrite Hkey.
      destruct Hk as [->|[m [-> Hm]]]; [reflexivity|].
      now apply N.leb_le. }
    cbn [obj_add_index]. destruct (array_index k) as [m|] eqn:Hk.
    + destruct (m <? n)%N eqn:Hlt.
      * apply N.ltb_lt in Hlt.
        pose proof (in_enumeration_order_cons _ _ Hord) as Hrest.
        destruct (IH Hrest) as [IH1 IH2]. split.
        -- change (Object_keys ((k, v) :: obj_add_index map n key value))
             with (k :: Object_keys (obj_add_index map n key value)).
           cbn [in_enumeration_order]. rewrite IH1, andb_true_r.
           destruct (obj_add_index map n key value) as [|[k' v'] rest'];
             [reflexivity|].
           cbn [Object_keys List.map fst]. unfold enumerated_before.
           rewrite Hk. destruct IH2 as [->|[m' [rest [-> _]]]].
           ++ rewrite Hkey. apply N.leb_le. lia.
           ++ cbn [Object_keys List.map fst in_enumeration_order] in Hord.
              apply andb_true_iff in Hord. destruct Hord as [Hord _].
              unfold enumerated_before in Hord. now rewrite Hk in Hord.
        -- right. exists v, map. split; [reflexivity|]. now exists m.
      * apply N.ltb_ge in Hlt. split; [|now left].
        apply Hfront. right. now exists m.
    + split; [|now left]. apply Hfront. now left.
Qed.

Lemma obj_set_in_enumeration_order {V : Type} (map : ObjMap V)
  (key : string) (value : V) :
  in_enumeration_order (Object_keys map) = true ->
  in_enumeration_order (Object_keys (obj_set map key value)) = true.
Proof.
  intros Hord. unfold obj_set. destruct (obj_has map key).
  - now rewrite obj_set_keys_overwrite.
  - destruct (array_index key) as [n|] eqn:Hkey.
    + now apply in_enumeration_order_add_index.
    + unfold Object_keys. rewrite map_app. now apply in_enumeration_order_app.
Qed.

Lemma sortObjMap_loop_in_enumeration_order {T R : Type} (map : ObjMap T)
  (sortValueFn : T -> result R) (keys : list string)
  (sortedMap out : ObjMap R) :
  sortObjMap_loop map sortValueFn keys sortedMap = Ok out ->
  in_enumeration_order (Object_keys sortedMap) = true ->
  in_enumeration_order (Object_keys out) = true.
Proof.
  revert sortedMap. induction keys as [|k keys IH]; intros sortedMap Hrun Hord.
  - simpl in Hrun. now injection Hrun as <-.
  - simpl in Hrun. destruct (obj_get map k) as [value|]; [|discriminate].
    apply bind_Ok in Hrun. destruct Hrun as [v [_ Hrun]].
    apply (IH _ Hrun). now apply obj_set_in_enumeration_order.
Qed.

Section SortObjMap2.

Variable localeCompare : LocaleCompare.
Variable compareOptions : option CompareOptions.

Lemma sorted_keys_of_map {T : Type} (map : ObjMap T) (key : string) :
  In key
    (stable_sort (compare_names localeCompare compareOptions)
       (Object_keys map)) ->
  In key (Object_keys map).
Proof. apply stable_sort_In. Qed.

Lemma sortObjMap_returns {T R : Type} (map : ObjMap T)
  (sortValueFn : T -> result R) :
  (exists out, sortObjMap localeCompare map sortValueFn compareOptions = Ok out)
  <-> ((List.length (Object_keys map) <= 1)%nat
       \/ accepts localeCompare compareOptions)
      /\ (forall key value,
            obj_get map key = Some value ->
            exists r, sortValueFn value = Ok r).
Proof.
  split.
  - intros [out Hrun]. split.
    + unfold sortObjMap in Hrun. apply bind_Ok in Hrun.
      destruct Hrun as [keys [Hkeys _]].
      apply (sortBy_keys_returns localeCompare compareOptions). now exists keys.
    + intros key value Hget.
      pose proof (sortObjMap_get localeCompare compareOptions map sortValueFn
                    out Hrun key) as H.
      rewrite Hget in H. destruct H as [r [Hr _]]. now exists r.
  - intros [Hkeys Hf]. unfold sortObjMap.
    apply (sortBy_keys_returns localeCompare compareOptions) in Hkeys.
    destruct Hkeys as [keys Hkeys]. rewrite Hkeys.
    apply sortBy_keys_returned in Hkeys. subst keys. cbn [bind].
    apply sortObjMap_loop_returns_when; [apply sorted_keys_of_map|exact Hf].
Qed.

Lemma sortObjMap_thrown {T R : Type}
  (map : ObjMap T) (sortValueFn : T -> result R) (e : error) :
  sortObjMap localeCompare map sortValueFn compareOptions = Throw e ->
  (exists key value,
     obj_get map key = Some value /\ sortValueFn value = Throw e)
  \/ (e = RangeError /\ ~ accepts localeCompare compareOptions).
Proof.
  unfold sortObjMap.
  destruct (sortBy localeCompare (Object_keys map) (fun x => Ok x)
              compareOptions) as [keys|e'] eqn:E; cbn [bind].
  - apply sortBy_keys_returned in E. subst keys. intros H. left.
    revert H. apply sortObjMap_loop_throws, sorted_keys_of_map.
  - intros H. injection H as ->. right. now apply sortBy_keys_throws in E.
Qed.

Lemma sortObjMap_key_order {T R : Type} (map : ObjMap T)
  (sortValueFn : T -> result R) (out : ObjMap R) :
  sortObjMap localeCompare map sortValueFn compareOptions = Ok out ->
  in_enumeration_order (Object_keys out) = true.
Proof.
  unfold sortObjMap. intros Hrun. apply bind_Ok in Hrun.
  destruct Hrun as [keys [_ Hrun]].
  now apply (sortObjMap_loop_in_enumeration_order _ _ _ _ _ Hrun).
Qed.

End SortObjMap2.

(** ** Loops that may throw *)

Lemma Array_map_In {A B : Type} (f : A -> result B) (array : list A)
  (out : list B) :
  Array_map f array = Ok out -> Forall2 (fun x y => f x = Ok y) array out.
Proof.
  revert out. induction array as [|x rest IH]; intros out H.
  - simpl in H. injection H as <-. constructor.
  - simpl in H. apply bind_Ok in H. destruct H as [y [Hy H]].
    apply bind_Ok in H. destruct H as [ys [Hys H]]. injection H as <-.
    constructor; [exact Hy|now apply IH].
Qed.

Lemma Array_map_throws {A B : Type} (f : A -> result B) (array : list A)
  (e : error) :
  Array_map f array = Throw e -> exists x, In x array /\ f x = Throw e.
Proof.
  induction array as [|x rest IH]; [discriminate|]. simpl.
  destruct (f x) as [y|e'] eqn:Hx.
  - simpl. destruct (Array_map f rest) as [ys|e''] eqn:Hrest; [discriminate|].
    simpl. intros H. injection H as ->.
    destruct (IH eq_refl) as [z [Hz Hf]]. exists z. split; [now right|exact Hf].
  - simpl. intros H. injection H as ->. exists x. split; [now left|exact Hx].
Qed.

Lemma Array_map_returns {A B : Type} (f : A -> result B) (array : list A) :
  (forall x, In x array -> exists y, f x = Ok y) ->
  exists out, Array_map f array = Ok out.
Proof.
  intros H. destruct (Array_map f array) as [out|e] eqn:Hrun;
    [now exists out|].
  apply Array_map_throws in Hrun. destruct Hrun as [x [Hx Hf]].
  destruct (H x Hx) as [y Hy]. congruence.
Qed.

(** ** The inner functions on any input *)

Section Inner.

Variable localeCompare : LocaleCompare.
Variable compareOptions : option CompareOptions.
Variable h : Heap.
Variable typeMap : ObjMap addr.

Lemma name_of_ref_cases (type : ref) :
  name_of h type
  = if ref_in_heap h type then Ok (ref_name h type) else Throw TypeError.
Proof.
  destruct (ref_in_heap h type) eqn:Hin; [now apply name_of_ref|].
  destruct type as [a|]; [|reflexivity]. simpl in Hin.
  apply Nat.ltb_ge in Hin. apply nth_error_None in Hin.
  unfold name_of, ref_HasName, name_of, addr_HasName, instance_at.
  now rewrite Hin.
Qed.

Lemma replaceNamedType_cases (type : ref) :
  replaceNamedType h typeMap type
  = if ref_in_heap h type then Ok (replaced_ref h typeMap type)
    else Throw TypeError.
Proof.
  unfold replaceNamedType. rewrite name_of_ref_cases.
  destruct (ref_in_heap h type) eqn:Hin; [|reflexivity].
  destruct type as [a|]; [reflexivity|discriminate].
Qed.

Lemma type_ok_in_heap (type : GraphQLType) :
  type_ok (ref_in_heap h) type = type_in_heap h type.
Proof. unfold type_in_heap. induction type; simpl; auto. Qed.

Lemma replaceType_not_in_heap (type : GraphQLType) :
  type_in_heap h type = false ->
  replaceType h typeMap type = Throw TypeError.
Proof.
  unfold type_in_heap.
  induction type as [type|ofType IH|ofType IH]; simpl; intros H.
  - now rewrite replaceNamedType_cases, H.
  - now rewrite IH.
  - now rewrite IH.
Qed.

Lemma replaceType_cases (type : GraphQLType) :
  if type_in_heap h type
  then returns_if (rewrappable h typeMap type)
         (replaced_type h typeMap type) (replaceType h typeMap type)
  else replaceType h typeMap type = Throw TypeError.
Proof.
  destruct (type_in_heap h type) eqn:H;
    [|now apply replaceType_not_in_heap].
  apply replaceType_in_heap. now rewrite type_ok_in_heap.
Qed.

Lemma wrappers_replaced_type (type : GraphQLType) :
  wrappers (replaced_type h typeMap type) = wrappers type.
Proof. induction type; simpl; congruence. Qed.

Lemma replaceType_shape (type type' : GraphQLType) :
  replaceType h typeMap type = Ok type' ->
  wrappers type' = wrappers type
  /\ replaceNamedType h typeMap (named_type_of type)
     = Ok (named_type_of type').
Proof.
  intros H. pose proof (replaceType_cases type) as Hc.
  destruct (type_in_heap h type) eqn:Hin; [|congruence].
  rewrite H in Hc. apply returns_if_Ok in Hc. destruct Hc as [_ ->].
  split; [apply wrappers_replaced_type|].
  rewrite replaceNamedType_cases. unfold type_in_heap in Hin. rewrite Hin.
  now rewrite named_type_of_replaced.
Qed.

Lemma replaceType_throws (type : GraphQLType) (e : error) :
  replaceType h typeMap type = Throw e ->
  (e = TypeError /\ type_in_heap h type = false)
  \/ (wrapper_error e /\ type_in_heap h type = true
      /\ rewrappable h typeMap type = false).
Proof.
  intros H. pose proof (replaceType_cases type) as Hc.
  destruct (type_in_heap h type).
  - right. rewrite H in Hc.
    destruct (rewrappable h typeMap type); simpl in Hc; [discriminate|].
    destruct Hc as [e' [He' Heq]]. injection Heq as ->. now split.
  - left. split; [congruence|reflexivity].
Qed.

Lemma replaceType_returns_iff (type : GraphQLType) :
  (exists type', replaceType h typeMap type = Ok type')
  <-> type_in_heap h type = true /\ rewrappable h typeMap type = true.
Proof.
  pose proof (replaceType_cases type) as Hc.
  destruct (type_in_heap h type).
  - destruct (rewrappable h typeMap type); simpl in Hc.
    + split; [now split|]. intros _. eexists. exact Hc.
    + destruct Hc as [e [_ He]]. split; [|intros [_ H]; discriminate].
      intros [t H]. congruence.
  - split; [|intros [H _]; discriminate]. intros [t H]. congruence.
Qed.

Lemma replaceType_returns (type type' : GraphQLType) :
  replaceType h typeMap type = Ok type' -> type_in_heap h type = true.
Proof.
  intros H. apply (proj1 (replaceType_returns_iff type)). now exists type'.
Qed.

Lemma replaceType_member_error (type : GraphQLType) (e : error) :
  replaceType h typeMap type = Throw e ->
  member_error localeCompare compareOptions e.
Proof.
  intros H. apply replaceType_throws in H.
  destruct H as [[-> _]|[H _]]; [now left|right; now left].
Qed.

(** *** [sortTypes] *)

Lemma sortByName_refs_returns (arr sorted : list ref) :
  sortByName localeCompare h arr compareOptions = Ok sorted ->
  Permutation arr sorted.
Proof. apply Array_sort_Permutation. Qed.

Lemma sortTypes_in_heap (arr out : list ref) :
  sortTypes localeCompare h compareOptions typeMap arr = Ok out ->
  forallb (ref_in_heap h) arr = true.
Proof.
  intros H. unfold sortTypes in H. apply bind_Ok in H.
  destruct H as [sorted [Hsorted H]].
  apply sortByName_refs_returns in Hsorted. apply Array_map_In in H.
  apply forallb_forall. intros type Hin.
  apply (Permutation_in _ Hsorted) in Hin.
  destruct (Forall2_In_l _ _ _ type H Hin) as [type' [_ Hr]].
  rewrite replaceNamedType_cases in Hr.
  now destruct (ref_in_heap h type).
Qed.

Lemma sortTypes_returns (arr : list ref) :
  (exists out, sortTypes localeCompare h compareOptions typeMap arr = Ok out)
  <-> ((List.length arr <= 1)%nat \/ accepts localeCompare compareOptions)
      /\ forallb (ref_in_heap h) arr = true.
Proof.
  split.
  - intros [out H]. split; [|now apply (sortTypes_in_heap arr out)].
    unfold sortTypes, sortByName in H. apply bind_Ok in H.
    destruct H as [sorted [Hsorted _]].
    assert (Hex : exists out,
               sortBy localeCompare arr (fun obj => name_of h obj)
                 compareOptions
               = Ok out) by now exists sorted.
    apply (proj1 (sortBy_returns localeCompare compareOptions ref
                    (fun obj => name_of h obj) arr)) in Hex.
    tauto.
  - intros [[Hlen|Hacc] Hall].
    + unfold sortTypes, sortByName.
      rewrite (sortBy_short localeCompare compareOptions ref
                 (fun obj => name_of h obj) arr Hlen).
      cbn [bind]. apply Array_map_returns. intros type Hin.
      rewrite forallb_forall in Hall. rewrite replaceNamedType_cases.
      rewrite (Hall type Hin). now eexists.
    + eexists. now apply sortTypes_ok.
Qed.

Lemma sortTypes_result (arr out : list ref) :
  sortTypes localeCompare h compareOptions typeMap arr = Ok out ->
  exists sorted,
    Permutation arr sorted
    /\ Forall2
         (fun type type' =>
            exists a,
              type = Some a /\ (a < List.length h)%nat
              /\ type' = obj_get typeMap (name_at h a))
         sorted out
    /\ (total_comparator localeCompare compareOptions ->
        non_decreasing localeCompare compareOptions
          (List.map (ref_name h) sorted)).
Proof.
  intros H.
  assert (Hall : forallb (ref_in_heap h) arr = true)
    by now apply (sortTypes_in_heap arr out).
  unfold sortTypes, sortByName in H. apply bind_Ok in H.
  destruct H as [sorted [Hsorted H]].
  apply (sortBy_returned localeCompare compareOptions arr sorted
           (fun obj => name_of h obj) (ref_name h)) in Hsorted.
  2:{ intros type k _ Hk. rewrite name_of_ref_cases in Hk.
      destruct (ref_in_heap h type); [now injection Hk|discriminate]. }
  subst sorted.
  exists (stable_sort (by_ref_name localeCompare h compareOptions) arr).
  split; [apply stable_sort_Permutation|]. split.
  - apply Array_map_In in H.
    assert (Hs : forall type,
               In type (stable_sort
                          (by_ref_name localeCompare h compareOptions) arr) ->
               ref_in_heap h type = true).
    { intros type Hin. apply stable_sort_In in Hin.
      rewrite forallb_forall in Hall. now apply Hall. }
    fold (by_ref_name localeCompare h compareOptions) in H.
    induction H as [|type type' l l' Hr _ IH]; [constructor|].
    constructor.
    + specialize (Hs type (or_introl eq_refl)).
      rewrite replaceNamedType_cases, Hs in Hr. injection Hr as <-.
      destruct type as [a|]; [|discriminate]. exists a.
      split; [reflexivity|]. split; [|reflexivity].
      now apply Nat.ltb_lt.
    + apply IH. intros t Ht. apply Hs. now right.
  - intros total. unfold by_ref_name.
    rewrite (stable_sort_map (ref_name h)
               (compare_names localeCompare compareOptions)).
    now apply stable_sort_non_decreasing.
Qed.

(** *** [sortArgs], [sortFields], [sortInputFields] *)

Lemma sortArgs_get (args out : ObjMap GraphQLArgumentConfig) :
  sortArgs localeCompare h compareOptions typeMap args = Ok out ->
  forall name,
    match obj_get args name with
    | Some arg =>
        exists arg',
          obj_get out name = Some arg'
          /\ arg_rest arg' = arg_rest arg
          /\ replaceType h typeMap (arg_type arg) = Ok (arg_type arg')
    | None => obj_get out name = None
    end.
Proof.
  intros H name.
  pose proof (sortObjMap_get _ _ _ _ _ H name) as Hl.
  destruct (obj_get args name) as [arg|]; [|exact Hl].
  destruct Hl as [arg' [Hf Hget]]. exists arg'. split; [exact Hget|].
  apply bind_Ok in Hf. destruct Hf as [type [Ht Hf]]. injection Hf as <-.
  now split.
Qed.

Lemma sortArgs_returns (args : ObjMap GraphQLArgumentConfig) :
  (exists out, sortArgs localeCompare h compareOptions typeMap args = Ok out)
  -> args_resolvable h args.
Proof.
  intros [out H] name arg Hget.
  pose proof (sortArgs_get args out H name) as Hl. rewrite Hget in Hl.
  destruct Hl as [arg' [_ [_ Ht]]]. now apply replaceType_returns in Ht.
Qed.

Lemma sortArgs_throws (args : ObjMap GraphQLArgumentConfig) (e : error) :
  sortArgs localeCompare h compareOptions typeMap args = Throw e ->
  member_error localeCompare compareOptions e.
Proof.
  intros H. apply sortObjMap_thrown in H.
  destruct H as [[name [arg [_ H]]]|H]; [|right; now right].
  destruct (replaceType h typeMap (arg_type arg)) as [type|e'] eqn:Ht;
    [discriminate|].
  simpl in H. injection H as ->. now apply replaceType_member_error in Ht.
Qed.

Lemma sortFields_get (fields out : ObjMap GraphQLFieldConfig) :
  sortFields localeCompare h compareOptions typeMap fields = Ok out ->
  forall name,
    match obj_get fields name with
    | Some field =>
        exists field',
          obj_get out name = Some field'
          /\ field_rest field' = field_rest field
          /\ replaceType h typeMap (field_type field)
             = Ok (field_type field')
          /\ sortArgs localeCompare h compareOptions typeMap
               (field_args field)
             = Ok (field_args field')
    | None => obj_get out name = None
    end.
Proof.
  intros H name.
  pose proof (sortObjMap_get _ _ _ _ _ H name) as Hl.
  destruct (obj_get fields name) as [field|]; [|exact Hl].
  destruct Hl as [field' [Hf Hget]]. exists field'. split; [exact Hget|].
  apply bind_Ok in Hf. destruct Hf as [type [Ht Hf]].
  apply bind_Ok in Hf. destruct Hf as [args [Ha Hf]]. injection Hf as <-.
  now repeat split.
Qed.

Lemma sortFields_returns (fields : ObjMap GraphQLFieldConfig) :
  (exists out,
     sortFields localeCompare h compareOptions typeMap fields = Ok out)
  -> fields_resolvable h fields.
Proof.
  intros [out H] name field Hget.
  pose proof (sortFields_get fields out H name) as Hl. rewrite Hget in Hl.
  destruct Hl as [field' [_ [_ [Ht Ha]]]]. split.
  - now apply replaceType_returns in Ht.
  - apply sortArgs_returns. now exists (field_args field').
Qed.

Lemma sortFields_throws (fields : ObjMap GraphQLFieldConfig) (e : error) :
  sortFields localeCompare h compareOptions typeMap fields = Throw e ->
  member_error localeCompare compareOptions e.
Proof.
  intros H. apply sortObjMap_thrown in H.
  destruct H as [[name [field [_ H]]]|H]; [|right; now right].
  destruct (replaceType h typeMap (field_type field)) as [type|e'] eqn:Ht.
  - simpl in H.
    destruct (sortArgs localeCompare h compareOptions typeMap
                (field_args field)) as [args|e'] eqn:Ha; [discriminate|].
    simpl in H. injection H as ->. now apply sortArgs_throws in Ha.
  - simpl in H. injection H as ->. now apply replaceType_member_error in Ht.
Qed.

Lemma sortInputFields_get
  (fields out : ObjMap GraphQLInputFieldConfig) :
  sortInputFields localeCompare h compareOptions typeMap fields = Ok out ->
  forall name,
    match obj_get fields name with
    | Some field =>
        exists field',
          obj_get out name = Some field'
          /\ input_field_rest field' = input_field_rest field
          /\ replaceType h typeMap (input_field_type field)
             = Ok (input_field_type field')
    | None => obj_get out name = None
    end.
Proof.
  intros H name.
  pose proof (sortObjMap_get _ _ _ _ _ H name) as Hl.
  destruct (obj_get fields name) as [field|]; [|exact Hl].
  destruct Hl as [field' [Hf Hget]]. exists field'. split; [exact Hget|].
  apply bind_Ok in Hf. destruct Hf as [type [Ht Hf]]. injection Hf as <-.
  now split.
Qed.

Lemma sortInputFields_returns (fields : ObjMap GraphQLInputFieldConfig) :
  (exists out,
     sortInputFields localeCompare h compareOptions typeMap fields = Ok out)
  -> input_fields_resolvable h fields.
Proof.
  intros [out H] name field Hget.
  pose proof (sortInputFields_get fields out H name) as Hl.
  rewrite Hget in Hl.
  destruct Hl as [field' [_ [_ Ht]]]. now apply replaceType_returns in Ht.
Qed.

Lemma sortInputFields_throws (fields : ObjMap GraphQLInputFieldConfig)
  (e : error) :
  sortInputFields localeCompare h compareOptions typeMap fields = Throw e ->
  member_error localeCompare compareOptions e.
Proof.
  intros H. apply sortObjMap_thrown in H.
  destruct H as [[name [field [_ H]]]|H]; [|right; now right].
  destruct (replaceType h typeMap (input_field_type field)) as [type|e']
    eqn:Ht; [discriminate|].
  simpl in H. injection H as ->. now apply replaceType_member_error in Ht.
Qed.

Lemma sortTypes_throws (arr : list ref) (e : error) :
  sortTypes localeCompare h compareOptions typeMap arr = Throw e ->
  member_error localeCompare compareOptions e.
Proof.
  unfold sortTypes, sortByName. intros H.
  destruct (sortBy localeCompare arr (fun obj => name_of h obj)
              compareOptions) as [sorted|e'] eqn:Hs.
  - simpl in H. apply Array_map_throws in H. destruct H as [type [_ H]].
    rewrite replaceNamedType_cases in H.
    destruct (ref_in_heap h type); [discriminate|]. left. congruence.
  - simpl in H. injection H as ->. apply sortBy_throws in Hs.
    destruct Hs as [[type [_ H]]|H]; [|right; now right].
    rewrite name_of_ref_cases in H.
    destruct (ref_in_heap h type); [discriminate|]. left. congruence.
Qed.

(** *** [sortDirective] *)

Lemma sortDirective_result (directive directive' : GraphQLDirective) :
  sortDirective localeCompare h compareOptions typeMap directive
  = Ok directive' ->
  directive_name directive' = directive_name directive
  /\ directive_rest directive' = directive_rest directive
  /\ Permutation (locations directive) (locations directive')
  /\ (total_comparator localeCompare compareOptions ->
      non_decreasing localeCompare compareOptions (locations directive'))
  /\ sortArgs localeCompare h compareOptions typeMap
       (directive_args directive)
     = Ok (directive_args directive').
Proof.
  unfold sortDirective. intros H.
  apply bind_Ok in H. destruct H as [sorted [Hsorted H]].
  apply sortBy_keys_returned in Hsorted. subst sorted.
  apply bind_Ok in H. destruct H as [args [Ha H]]. injection H as <-.
  cbn. split; [reflexivity|]. split; [reflexivity|].
  split; [apply stable_sort_Permutation|].
  split; [|exact Ha]. intros total. now apply stable_sort_non_decreasing.
Qed.

Lemma sortDirective_returns (directive : GraphQLDirective) :
  (exists directive',
     sortDirective localeCompare h compareOptions typeMap directive
     = Ok directive')
  -> args_resolvable h (directive_args directive).
Proof.
  intros [d H]. apply sortDirective_result in H.
  apply sortArgs_returns. now exists (directive_args d).
Qed.

Lemma sortDirective_throws (directive : GraphQLDirective) (e : error) :
  sortDirective localeCompare h compareOptions typeMap directive = Throw e ->
  member_error localeCompare compareOptions e.
Proof.
  unfold sortDirective. intros H.
  destruct (sortBy localeCompare (locations directive) (fun x => Ok x)
              compareOptions) as [sorted|e'] eqn:Hs.
  - cbn [bind] in H.
    destruct (sortArgs localeCompare h compareOptions typeMap
                (directive_args directive)) as [args|e'] eqn:Ha;
      [discriminate|].
    simpl in H. injection H as ->. now apply sortArgs_throws in Ha.
  - simpl in H. injection H as ->. apply sortBy_keys_throws in Hs.
    right. now right.
Qed.

(** *** The thunks *)

Lemma resolve_thunks_throws (config : TypeConfig) (e : error) :
  resolve_thunks localeCompare h compareOptions typeMap config = Throw e ->
  member_error localeCompare compareOptions e.
Proof.
  destruct config as [name interfaces fields rest|name interfaces fields rest
                     |name types rest|name values rest|name fields rest];
    simpl; try discriminate.
  - destruct (sortTypes localeCompare h compareOptions typeMap
                (captured interfaces)) as [i|e'] eqn:Hi; simpl.
    + destruct (sortFields localeCompare h compareOptions typeMap
                  (captured fields)) as [f|e'] eqn:Hf; simpl;
        [discriminate|].
      intros H. injection H as ->. now apply sortFields_throws in Hf.
    + intros H. injection H as ->. now apply sortTypes_throws in Hi.
  - destruct (sortTypes localeCompare h compareOptions typeMap
                (captured interfaces)) as [i|e'] eqn:Hi; simpl.
    + destruct (sortFields localeCompare h compareOptions typeMap
                  (captured fields)) as [f|e'] eqn:Hf; simpl;
        [discriminate|].
      intros H. injection H as ->. now apply sortFields_throws in Hf.
    + intros H. injection H as ->. now apply sortTypes_throws in Hi.
  - destruct (sortTypes localeCompare h compareOptions typeMap
                (captured types)) as [i|e'] eqn:Hi; simpl; [discriminate|].
    intros H. injection H as ->. now apply sortTypes_throws in Hi.
  - destruct (sortInputFields localeCompare h compareOptions typeMap
                (captured fields)) as [f|e'] eqn:Hf; simpl; [discriminate|].
    intros H. injection H as ->. now apply sortInputFields_throws in Hf.
Qed.

Lemma resolve_thunks_returns (type : GraphQLNamedType)
  (config : TypeConfig) :
  handed_config localeCompare compareOptions type = Some config ->
  (exists type',
     resolve_thunks localeCompare h compareOptions typeMap config = Ok type')
  -> members_resolvable h type.
Proof.
  destruct type as [name rest|name interfaces fields rest
                   |name interfaces fields rest|name members rest
                   |name values rest|name fields rest|name rest];
    simpl; intros Hc; try discriminate.
  - injection Hc as <-. simpl.
    intros [t H]. apply bind_Ok in H. destruct H as [i [Hi H]].
    apply bind_Ok in H. destruct H as [f [Hf _]].
    split; [now apply (sortTypes_in_heap _ i)|].
    apply sortFields_returns. now exists f.
  - injection Hc as <-. simpl.
    intros [t H]. apply bind_Ok in H. destruct H as [i [Hi H]].
    apply bind_Ok in H. destruct H as [f [Hf _]].
    split; [now apply (sortTypes_in_heap _ i)|].
    apply sortFields_returns. now exists f.
  - injection Hc as <-. simpl.
    intros [t H]. apply bind_Ok in H. destruct H as [i [Hi _]].
    now apply (sortTypes_in_heap _ i).
  - trivial.
  - injection Hc as <-. simpl.
    intros [t H]. apply bind_Ok in H. destruct H as [f [Hf _]].
    apply sortInputFields_returns. now exists f.
Qed.

Lemma replaceMaybeType_cases (root : ref) :
  replaceMaybeType h typeMap root
  = if root_ok (ref_in_heap h) root then Ok (replaced_ref h typeMap root)
    else Throw TypeError.
Proof.
  destruct root as [a|]; [|reflexivity].
  unfold replaceMaybeType. rewrite replaceNamedType_cases. reflexivity.
Qed.

End Inner.

(** ** The sorter on any schema *)

Section Top.

Variable localeCompare : LocaleCompare.
Variable isIntrospectionType : GraphQLNamedType -> bool.
Variable compareOptions : option CompareOptions.
Variable h : Heap.

Let unexpected (t : GraphQLNamedType) : error :=
  InvariantViolation ("Unexpected type: " ++ inspect t).

Lemma sortNamedType_cases (a : addr) (pending : list TypeConfig) :
  sortNamedType localeCompare isIntrospectionType h compareOptions a pending
  = match nth_error h a with
    | None => Throw TypeError
    | Some t =>
        if passes_through isIntrospectionType t then Ok (a, pending)
        else
          match handed_config localeCompare compareOptions t with
          | Some config =>
              Ok (List.length h + List.length pending, pending ++ [config])
          | None =>
              if recognized isIntrospectionType t then Throw RangeError
              else Throw (unexpected t)
          end
    end.
Proof.
  unfold sortNamedType, instance_at, passes_through, recognized.
  destruct (nth_error h a) as [t|]; [|reflexivity]. cbn [bind].
  destruct (isScalarType t || isIntrospectionType t) eqn:Hp; [reflexivity|].
  apply orb_false_iff in Hp. destruct Hp as [Hs Hi].
  destruct t; try discriminate; try reflexivity; cbn [handed_config].
  - destruct (sortObjMap localeCompare values no_sortValueFn compareOptions)
      as [out|e] eqn:E; [reflexivity|].
    apply sortObjMap_no_sortValueFn_throws in E. destruct E as [-> _].
    reflexivity.
Qed.

Lemma passes_through_recognized (t : GraphQLNamedType) :
  passes_through isIntrospectionType t = true ->
  recognized isIntrospectionType t = true.
Proof.
  unfold recognized, passes_through. intros ->. reflexivity.
Qed.

Lemma handed_config_recognized (t : GraphQLNamedType) (config : TypeConfig) :
  handed_config localeCompare compareOptions t = Some config ->
  recognized isIntrospectionType t = true.
Proof.
  unfold recognized. destruct t; simpl; try discriminate; intros _;
    now rewrite ?orb_true_r.
Qed.

(** A type of a class the sorter knows is handed no config only where
    the comparator does not accept the locales or the options. *)
Lemma handed_config_rejected (t : GraphQLNamedType) :
  passes_through isIntrospectionType t = false ->
  recognized isIntrospectionType t = true ->
  handed_config localeCompare compareOptions t = None ->
  ~ accepts localeCompare compareOptions.
Proof.
  unfold passes_through, recognized. intros Hp Hr.
  apply orb_false_iff in Hp. destruct Hp as [Hs Hi].
  destruct t; simpl in *; try discriminate.
  - destruct (sortObjMap localeCompare values no_sortValueFn compareOptions)
      as [out|e] eqn:E; [discriminate|].
    intros _. now apply sortObjMap_no_sortValueFn_throws in E.
  - rewrite Hi in Hr. discriminate.
Qed.

(** The index loop: what it returns, and what it throws. *)
Lemma keyValMap_reduce_cases (items : list addr) (map : ObjMap addr)
  (pending : list TypeConfig) :
  match keyValMap_reduce items (fun type => name_of h type)
          (sortNamedType localeCompare isIntrospectionType h compareOptions)
          map pending with
  | Ok (map', pending') =>
      (forall a,
         In a items ->
         (a < List.length h)%nat
         /\ recognized isIntrospectionType (type_at h a) = true)
      /\ exists configs,
           pending' = pending ++ configs
           /\ Forall2
                (fun a config =>
                   handed_config localeCompare compareOptions (type_at h a)
                   = Some config)
                (rebuilt isIntrospectionType h items) configs
  | Throw TypeError =>
      exists a, In a items /\ ~ (a < List.length h)%nat
  | Throw RangeError => ~ accepts localeCompare compareOptions
  | Throw (Error _) => False
  | Throw (InvariantViolation message) =>
      exists a,
        In a items /\ (a < List.length h)%nat
        /\ recognized isIntrospectionType (type_at h a) = false
        /\ InvariantViolation message = unexpected (type_at h a)
  end.
Proof.
  revert map pending. induction items as [|a items IH]; intros map pending.
  - simpl. split; [intros a []|]. exists []. split; [now rewrite app_nil_r|].
    constructor.
  - cbn [keyValMap_reduce].
    destruct (Nat.lt_ge_cases a (List.length h)) as [Hlt|Hge].
    + rewrite (name_of_addr h a Hlt). cbn [bind].
      rewrite sortNamedType_cases.
      assert (Hnth : nth_error h a = Some (type_at h a)).
      { pose proof (instance_at_type_at h a Hlt) as Hat.
        unfold instance_at in Hat.
        destruct (nth_error h a) as [t|]; [|discriminate]. congruence. }
      rewrite Hnth.
      cbn [rebuilt filter]. fold (rebuilt isIntrospectionType h items).
      destruct (passes_through isIntrospectionType (type_at h a)) eqn:Hp.
      * cbn [bind negb]. specialize (IH (obj_set map (name_at h a) a) pending).
        destruct (keyValMap_reduce items _ _ _ pending)
          as [[map' pending']|[| |message|message]]; try exact IH.
        -- destruct IH as [Hall Hconfigs]. split; [|exact Hconfigs].
           intros b [<-|Hb]; [|now apply Hall].
           split; [exact Hlt|now apply passes_through_recognized].
        -- destruct IH as [b [Hb Hout]]. exists b.
           split; [now right|exact Hout].
        -- destruct IH as [b [Hb Hout]]. exists b.
           split; [now right|exact Hout].
      * destruct (handed_config localeCompare compareOptions (type_at h a))
          as [config|] eqn:Hconfig.
        -- cbn [bind negb].
           specialize (IH (obj_set map (name_at h a)
                             (List.length h + List.length pending)%nat)
                         (pending ++ [config])).
           destruct (keyValMap_reduce items _ _ _ (pending ++ [config]))
             as [[map' pending']|[| |message|message]]; try exact IH.
           ++ destruct IH as [Hall [configs [-> Hconfigs]]]. split.
              ** intros b [<-|Hb]; [|now apply Hall].
                 split; [exact Hlt|].
                 now apply (handed_config_recognized _ config).
              ** exists (config :: configs).
                 split; [now rewrite <- app_assoc|].
                 constructor; assumption.
           ++ destruct IH as [b [Hb Hout]]. exists b.
              split; [now right|exact Hout].
           ++ destruct IH as [b [Hb Hout]]. exists b.
              split; [now right|exact Hout].
        -- destruct (recognized isIntrospectionType (type_at h a)) eqn:Hrec;
             cbn [bind].
           ++ now apply (handed_config_rejected (type_at h a)).
           ++ exists a. split; [now left|]. split; [exact Hlt|].
              now split.
    + assert (Hname : name_of h a = Throw TypeError).
      { apply nth_error_None in Hge.
        unfold name_of, addr_HasName, instance_at. now rewrite Hge. }
      rewrite Hname. cbn [bind]. exists a. split; [now left|lia].
Qed.

Variable schema : GraphQLSchema.

Lemma sortByName_types_throws (e : error) :
  sortByName localeCompare h (schema_types schema) compareOptions = Throw e ->
  member_error localeCompare compareOptions e.
Proof.
  intros H. apply sortBy_throws in H.
  destruct H as [[a [_ H]]|H]; [|right; now right].
  unfold name_of, addr_HasName, instance_at in H.
  destruct (nth_error h a); [discriminate|]. simpl in H. left. congruence.
Qed.

Lemma sortByName_directives_returned (sorted : list GraphQLDirective) :
  sortByName localeCompare h (schema_directives schema) compareOptions
  = Ok sorted ->
  sorted
  = stable_sort (by_directive_name localeCompare compareOptions)
      (schema_directives schema).
Proof.
  apply (sortBy_returned localeCompare compareOptions
           (schema_directives schema) sorted (fun obj => name_of h obj)
           directive_name).
  intros d k _ Hk. now injection Hk.
Qed.

Lemma sortByName_directives_throws (e : error) :
  sortByName localeCompare h (schema_directives schema) compareOptions
  = Throw e ->
  member_error localeCompare compareOptions e.
Proof.
  intros H. apply sortBy_throws in H.
  destruct H as [[d [_ H]]|H]; [discriminate|right; now right].
Qed.

Lemma member_error_no_invariant (e : error) (message : string) :
  member_error localeCompare compareOptions e ->
  e <> InvariantViolation message.
Proof. intros [->|[[->| ->]|[-> _]]]; discriminate. Qed.

(** What a run that returns has gone through. *)
Lemma lexicographicSortSchema_returned (schema' : GraphQLSchema) (h' : Heap) :
  lexicographicSortSchema localeCompare isIntrospectionType schema
    compareOptions h
  = Ok (schema', h') ->
  exists sortedTypes typeMap pending directives instances,
    Permutation (schema_types schema) sortedTypes
    /\ keyValMap sortedTypes (fun type => name_of h type)
         (sortNamedType localeCompare isIntrospectionType h compareOptions)
         []
       = Ok (typeMap, pending)
    /\ Array_map (sortDirective localeCompare h compareOptions typeMap)
         (stable_sort (by_directive_name localeCompare compareOptions)
            (schema_directives schema))
       = Ok directives
    /\ replaceMaybeType h typeMap (query schema) = Ok (query schema')
    /\ replaceMaybeType h typeMap (mutation schema) = Ok (mutation schema')
    /\ replaceMaybeType h typeMap (subscription schema)
       = Ok (subscription schema')
    /\ Array_map (resolve_thunks localeCompare h compareOptions typeMap)
         pending
       = Ok instances
    /\ schema_types schema' = objectValues typeMap
    /\ schema_directives schema' = directives
    /\ schema_rest schema' = schema_rest schema
    /\ h' = h ++ instances.
Proof.
  unfold lexicographicSortSchema. intros H.
  apply bind_Ok in H. destruct H as [sortedTypes [Hsorted H]].
  apply bind_Ok in H. destruct H as [[typeMap pending] [Hmap H]].
  apply bind_Ok in H. destruct H as [sortedDirectives [Hsd H]].
  apply sortByName_directives_returned in Hsd. subst sortedDirectives.
  apply bind_Ok in H. destruct H as [directives [Hd H]].
  apply bind_Ok in H. destruct H as [q [Hq H]].
  apply bind_Ok in H. destruct H as [m [Hm H]].
  apply bind_Ok in H. destruct H as [s' [Hs H]].
  unfold new_GraphQLSchema in H.
  apply bind_Ok in H. destruct H as [instances [Hi H]].
  injection H as <- <-.
  exists sortedTypes, typeMap, pending, directives, instances.
  cbn. repeat split; try assumption.
  now apply (Array_sort_Permutation _ _ _ Hsorted).
Qed.

Lemma lexicographicSortSchema_resolvable
  (schema' : GraphQLSchema) (h' : Heap) :
  lexicographicSortSchema localeCompare isIntrospectionType schema
    compareOptions h
  = Ok (schema', h') ->
  schema_resolvable isIntrospectionType h schema.
Proof.
  intros H. apply lexicographicSortSchema_returned in H.
  destruct H as [sortedTypes [typeMap [pending [directives [instances
    [Hperm [Hmap [Hd [Hq [Hm [Hs [Hi _]]]]]]]]]]]].
  pose proof (keyValMap_reduce_cases sortedTypes [] []) as Hcases.
  unfold keyValMap, Object_create_null in Hmap. rewrite Hmap in Hcases.
  destruct Hcases as [Hall [configs [-> Hconfigs]]].
  apply Array_map_In in Hi. apply Array_map_In in Hd.
  assert (Hroot : forall root root',
             replaceMaybeType h typeMap root = Ok root' ->
             root_ok (ref_in_heap h) root = true).
  { intros root root' Hr. rewrite replaceMaybeType_cases in Hr.
    now destruct (root_ok (ref_in_heap h) root). }
  split; [|split; [|split; [now apply (Hroot _ _ Hq)|split;
    [now apply (Hroot _ _ Hm)|now apply (Hroot _ _ Hs)]]]].
  - intros a Ha. apply (Permutation_in _ Hperm) in Ha.
    destruct (Hall a Ha) as [Hlt Hrec]. split; [exact Hlt|].
    split; [exact Hrec|]. intros Hp.
    assert (Hreb : In a (rebuilt isIntrospectionType h sortedTypes)).
    { apply filter_In. split; [exact Ha|]. now rewrite Hp. }
    destruct (Forall2_In_l _ _ _ a Hconfigs Hreb) as [config [Hin Hc]].
    destruct (Forall2_In_l _ _ _ config Hi Hin) as [t [_ Ht]].
    apply (resolve_thunks_returns localeCompare compareOptions h typeMap
             (type_at h a) config Hc).
    now exists t.
  - intros d Hin.
    assert (Hin' : In d (stable_sort
                           (by_directive_name localeCompare compareOptions)
                           (schema_directives schema)))
      by now apply stable_sort_In.
    destruct (Forall2_In_l _ _ _ d Hd Hin') as [d' [_ Hr]].
    apply (sortDirective_returns localeCompare compareOptions h typeMap).
    now exists d'.
Qed.

Lemma lexicographicSortSchema_invariant
  (message : string) :
  lexicographicSortSchema localeCompare isIntrospectionType schema
    compareOptions h
  = Throw (InvariantViolation message) ->
  exists a,
    In a (schema_types schema) /\ (a < List.length h)%nat
    /\ recognized isIntrospectionType (type_at h a) = false
    /\ message = ("Unexpected type: " ++ inspect (type_at h a))%string.
Proof.
  unfold lexicographicSortSchema. intros H.
  destruct (sortByName localeCompare h (schema_types schema) compareOptions)
    as [sortedTypes|e] eqn:Hsorted.
  2:{ apply sortByName_types_throws in Hsorted. simpl in H.
      injection H as ->.
      now apply (member_error_no_invariant _ message) in Hsorted. }
  cbn [bind] in H.
  pose proof (keyValMap_reduce_cases sortedTypes [] []) as Hcases.
  unfold keyValMap, Object_create_null in H.
  destruct (keyValMap_reduce sortedTypes _ _ [] [])
    as [[typeMap pending]|e].
  2:{ simpl in H. injection H as ->.
      destruct Hcases as [a [Ha [Hlt [Hrec Hm]]]]. exists a.
      split.
      - pose proof (Array_sort_Permutation _ _ _ Hsorted) as Hperm.
        apply Permutation_sym in Hperm. now apply (Permutation_in _ Hperm).
      - split; [exact Hlt|]. split; [exact Hrec|].
        unfold unexpected in Hm. congruence. }
  cbn [bind] in H.
  destruct (sortByName localeCompare h (schema_directives schema)
              compareOptions) as [sortedDirectives|e] eqn:Hsd.
  2:{ apply sortByName_directives_throws in Hsd. simpl in H.
      injection H as ->.
      now apply (member_error_no_invariant _ message) in Hsd. }
  cbn [bind] in H.
  destruct (Array_map (sortDirective localeCompare h compareOptions typeMap)
              _) as [directives|e] eqn:Hd.
  2:{ simpl in H. injection H as ->. apply Array_map_throws in Hd.
      destruct Hd as [d [_ Hd]]. apply sortDirective_throws in Hd.
      now apply (member_error_no_invariant _ message) in Hd. }
  cbn [bind] in H. rewrite !replaceMaybeType_cases in H.
  destruct (root_ok (ref_in_heap h) (query schema)); [|discriminate].
  destruct (root_ok (ref_in_heap h) (mutation schema)); [|discriminate].
  destruct (root_ok (ref_in_heap h) (subscription schema)); [|discriminate].
  cbn [bind] in H. unfold new_GraphQLSchema in H.
  destruct (Array_map (resolve_thunks localeCompare h compareOptions typeMap)
              pending) as [instances|e] eqn:Hi; [discriminate|].
  simpl in H. injection H as ->. apply Array_map_throws in Hi.
  destruct Hi as [config [_ Hi]]. apply resolve_thunks_throws in Hi.
  now apply (member_error_no_invariant _ message) in Hi.
Qed.

Lemma lexicographicSortSchema_unrecognized :
  accepts localeCompare compareOptions ->
  (forall a, In a (schema_types schema) -> (a < List.length h)%nat) ->
  (exists a,
     In a (schema_types schema)
     /\ recognized isIntrospectionType (type_at h a) = false) ->
  exists a,
    In a (schema_types schema)
    /\ recognized isIntrospectionType (type_at h a) = false
    /\ lexicographicSortSchema localeCompare isIntrospectionType schema
         compareOptions h
       = Throw
           (InvariantViolation
              ("Unexpected type: " ++ inspect (type_at h a))).
Proof.
  intros accepted Hheap [bad [Hbad Hrec]].
  unfold lexicographicSortSchema, sortByName.
  rewrite (sortBy_stable localeCompare compareOptions accepted
             (schema_types schema) (fun obj => name_of h obj) (name_at h))
    by (intros a Ha; apply name_of_addr; now apply Hheap).
  cbn [bind]. unfold keyValMap, Object_create_null.
  pose proof (keyValMap_reduce_cases
                (stable_sort
                   (fun a b =>
                      compare_names localeCompare compareOptions
                        (name_at h a) (name_at h b))
                   (schema_types schema)) [] []) as Hcases.
  destruct (keyValMap_reduce _ _ _ [] [])
    as [[typeMap pending]|[| |message|message]].
  - destruct Hcases as [Hall _].
    destruct (Hall bad) as [_ Hgood]; [now apply stable_sort_In|].
    congruence.
  - destruct Hcases as [a [Ha Hout]]. apply stable_sort_In in Ha.
    exfalso. apply Hout. now apply Hheap.
  - contradiction.
  - contradiction.
  - destruct Hcases as [a [Ha [_ [Hrec' Hm]]]]. apply stable_sort_In in Ha.
    exists a. split; [exact Ha|]. split; [exact Hrec'|].
    cbn [bind]. unfold unexpected in Hm. now rewrite Hm.
Qed.

Lemma lexicographicSortSchema_rest
  (schema' : GraphQLSchema) (h' : Heap) :
  lexicographicSortSchema localeCompare isIntrospectionType schema
    compareOptions h
  = Ok (schema', h') ->
  schema_rest schema' = schema_rest schema
  /\ exists sorted,
       Permutation (schema_directives schema) sorted
       /\ Forall2
            (fun directive directive' =>
               directive_name directive' = directive_name directive
               /\ directive_rest directive' = directive_rest directive
               /\ Permutation (locations directive) (locations directive'))
            sorted (schema_directives schema').
Proof.
  intros H. apply lexicographicSortSchema_returned in H.
  destruct H as [sortedTypes [typeMap [pending [directives [instances
    [_ [_ [Hd [_ [_ [_ [_ [_ [Hds [Hrest _]]]]]]]]]]]]]]].
  split; [exact Hrest|].
  exists (stable_sort (by_directive_name localeCompare compareOptions)
            (schema_directives schema)).
  split; [apply stable_sort_Permutation|]. rewrite Hds.
  apply Array_map_In in Hd.
  clear Hds. induction Hd as [|d d' l l' Hr _ IH]; [constructor|].
  constructor; [|exact IH].
  apply sortDirective_result in Hr. tauto.
Qed.

End Top.

(** ** What a rebuilt type keeps *)

Section Payload.

Variable localeCompare : LocaleCompare.
Variable compareOptions : option CompareOptions.
Variable h : Heap.
Variable typeMap : ObjMap addr.

Lemma sorted_map_lookup {V W : Type} (f : V -> W) (map : ObjMap V)
  (key : string) :
  NoDup (Object_keys map) ->
  obj_get (sorted_map localeCompare compareOptions f map) key
  = option_map f (obj_get map key).
Proof.
  intros Hnd. destruct (obj_get map key) as [value|] eqn:Hget.
  - now apply sorted_map_get.
  - simpl. apply obj_get_None. intros Hin. apply obj_get_None in Hget.
    apply Hget. rewrite sorted_map_keys in Hin.
    now apply stable_sort_In in Hin.
Qed.

Lemma sorted_args_kept (args : ObjMap GraphQLArgumentConfig) :
  keys_ok args = true ->
  args_kept args (sorted_args localeCompare h compareOptions typeMap args).
Proof.
  intros Hok name. destruct (keys_ok_spec args Hok) as [Hnd _].
  unfold sorted_args. rewrite sorted_map_lookup by exact Hnd.
  destruct (obj_get args name) as [arg|]; [|reflexivity].
  eexists. split; [reflexivity|]. split; [reflexivity|].
  apply wrappers_replaced_type.
Qed.

Lemma sorted_fields_kept (ok : ref -> bool)
  (fields : ObjMap GraphQLFieldConfig) :
  fields_ok ok fields = true ->
  fields_kept fields
    (sorted_fields localeCompare h compareOptions typeMap fields).
Proof.
  intros Hok name. unfold fields_ok in Hok. apply andb_true_iff in Hok.
  destruct Hok as [Hkeys Hall]. destruct (keys_ok_spec fields Hkeys) as [Hnd _].
  unfold sorted_fields. rewrite sorted_map_lookup by exact Hnd.
  destruct (obj_get fields name) as [field|] eqn:Hget; [|reflexivity].
  eexists. split; [reflexivity|]. split; [reflexivity|].
  split; [apply wrappers_replaced_type|].
  cbn [sorted_field field_args]. apply sorted_args_kept.
  apply obj_get_Some_In in Hget. rewrite forallb_forall in Hall.
  specialize (Hall _ Hget). cbn [snd] in Hall.
  apply andb_true_iff in Hall. destruct Hall as [_ Hargs].
  unfold args_ok in Hargs. apply andb_true_iff in Hargs. tauto.
Qed.

Lemma sorted_input_fields_kept (ok : ref -> bool)
  (fields : ObjMap GraphQLInputFieldConfig) :
  input_fields_ok ok fields = true ->
  input_fields_kept fields
    (sorted_input_fields localeCompare h compareOptions typeMap fields).
Proof.
  intros Hok name. unfold input_fields_ok in Hok.
  apply andb_true_iff in Hok. destruct Hok as [Hkeys _].
  destruct (keys_ok_spec fields Hkeys) as [Hnd _].
  unfold sorted_input_fields. rewrite sorted_map_lookup by exact Hnd.
  destruct (obj_get fields name) as [field|]; [|reflexivity].
  eexists. split; [reflexivity|]. split; [reflexivity|].
  apply wrappers_replaced_type.
Qed.

Lemma sorted_types_length (arr : list ref) :
  List.length (sorted_types localeCompare h compareOptions typeMap arr)
  = List.length arr.
Proof.
  unfold sorted_types. rewrite length_map. symmetry.
  apply Permutation_length, stable_sort_Permutation.
Qed.

Lemma sorted_copy_same_payload (ok : ref -> bool) (type : GraphQLNamedType) :
  isScalarType type = false ->
  members_ok ok type = true ->
  same_payload type (sorted_copy localeCompare h compareOptions typeMap type).
Proof.
  destruct type; simpl; intros Hs Hok; try discriminate.
  - apply andb_true_iff in Hok. destruct Hok as [_ Hf].
    repeat split; [apply sorted_types_length|].
    now apply (sorted_fields_kept ok).
  - apply andb_true_iff in Hok. destruct Hok as [_ Hf].
    repeat split; [apply sorted_types_length|].
    now apply (sorted_fields_kept ok).
  - repeat split. apply sorted_types_length.
  - repeat split. intros key. destruct (keys_ok_spec values Hok) as [Hnd _].
    rewrite sorted_map_lookup by exact Hnd.
    now destruct (obj_get values key).
  - repeat split. now apply (sorted_input_fields_kept ok).
Qed.

End Payload.

Lemma rebuilt_type_payload
  (localeCompare : LocaleCompare)
  (isIntrospectionType : GraphQLNamedType -> bool)
  (compareOptions : option CompareOptions) (h : Heap)
  (schema schema' : GraphQLSchema) (h' : Heap) :
  well_formed isIntrospectionType h schema = true ->
  lexicographicSortSchema localeCompare isIntrospectionType schema
    compareOptions h
  = Ok (schema', h') ->
  forall a,
    In a (schema_types schema) ->
    passes_through isIntrospectionType (type_at h a) = false ->
    exists a',
      In a' (schema_types schema')
      /\ (List.length h <= a')%nat
      /\ name_at h' a' = name_at h a
      /\ same_payload (type_at h a) (type_at h' a').
Proof.
  intros wf Hrun a Ha Hp.
  destruct (sorted_schema_eq _ _ _ _ _ _ _ wf Hrun) as [-> ->].
  destruct (input_type_stands localeCompare isIntrospectionType
              compareOptions h schema
              (well_formed_references isIntrospectionType h schema wf) a Ha)
    as [a' [_ [Hin [Hat [Hname [Hnew _]]]]]].
  rewrite Hp in Hnew. exists a'. split; [exact Hin|]. split; [exact Hnew|].
  split; [exact Hname|].
  apply nth_error_name_at in Hat. destruct Hat as [Hat _]. rewrite Hat.
  unfold replacement_of. rewrite Hp.
  destruct (well_formed_types isIntrospectionType h schema wf a Ha)
    as [_ [_ [Hi|Hm]]].
  - unfold passes_through in Hp. rewrite Hi, orb_true_r in Hp. discriminate.
  - apply (sorted_copy_same_payload localeCompare compareOptions h _
             (ref_ok (schema_types schema))); [|exact Hm].
    unfold passes_through in Hp. apply orb_false_iff in Hp. tauto.
Qed.

(** ** Sorting what is in order *)

Lemma map_values_id {V : Type} (map : ObjMap V) :
  map_values (fun value => value) map = map.
Proof.
  unfold map_values. induction map as [|[k v] map IH]; [reflexivity|].
  simpl. now rewrite IH.
Qed.

(** ** What the functions do, one by one *)


(** X2. What [sortBy] returns is a permutation of the array it is given
    and, for a total comparator, has the keys of its elements in
    non-decreasing order. *)
Theorem sortBy_returns_sorted_permutation
  (localeCompare : LocaleCompare)
  (compareOptions : option CompareOptions) (T : Type)
  (mapToKey : T -> result string) (array out : list T) :
  sortBy localeCompare array mapToKey compareOptions = Ok out ->
  Permutation array out
  /\ (total_comparator localeCompare compareOptions ->
      forall keys,
        Array_map mapToKey out = Ok keys ->
        non_decreasing localeCompare compareOptions keys).
Proof. apply sortBy_sorted. Qed.

(** X3. Reading the map [sortObjMap] returns: under a key of the input
    it holds what [sortValueFn] returns for the value of the input under
    that key, and it has no other key. *)
Theorem sortObjMap_lookup
  (localeCompare : LocaleCompare)
  (compareOptions : option CompareOptions) (T R : Type) (map : ObjMap T)
  (sortValueFn : T -> result R) (out : ObjMap R) :
  sortObjMap localeCompare map sortValueFn compareOptions = Ok out ->
  forall key,
    match obj_get map key with
    | Some value =>
        exists value',
          sortValueFn value = Ok value' /\ obj_get out key = Some value'
    | None => obj_get out key = None
    end.
Proof. apply sortObjMap_get. Qed.

(** X4. [sortObjMap] returns exactly when its keys can be sorted, there
    being at most one of them or the platform accepting the locales and
    the options, and [sortValueFn] returns for every value of the map;
    reading [map[key]] in its loop never fails. *)
Theorem sortObjMap_returns_iff
  (localeCompare : LocaleCompare)
  (compareOptions : option CompareOptions) (T R : Type) (map : ObjMap T)
  (sortValueFn : T -> result R) :
  (exists out, sortObjMap localeCompare map sortValueFn compareOptions = Ok out)
  <-> ((List.length (Object_keys map) <= 1)%nat
       \/ accepts localeCompare compareOptions)
      /\ (forall key value,
            obj_get map key = Some value ->
            exists r, sortValueFn value = Ok r).
Proof. apply sortObjMap_returns. Qed.

(** X5. [sortObjMap] throws nothing of its own: what it throws,
    [sortValueFn] has thrown for a value of the map, or it is the
    [RangeError] of a comparator that does not accept the locales or the
    options. *)
Theorem sortObjMap_throws_what_sortValueFn_throws
  (localeCompare : LocaleCompare)
  (compareOptions : option CompareOptions) (T R : Type) (map : ObjMap T)
  (sortValueFn : T -> result R) (e : error) :
  sortObjMap localeCompare map sortValueFn compareOptions = Throw e ->
  (exists key value,
     obj_get map key = Some value /\ sortValueFn value = Throw e)
  \/ (e = RangeError /\ ~ accepts localeCompare compareOptions).
Proof. apply sortObjMap_thrown. Qed.

(** X6. The keys of the map [sortObjMap] returns that are array indices
    come first and in ascending numeric order, whatever the comparator:
    the object it fills enumerates them so. *)
Theorem sortObjMap_enumerates_indices_first
  (localeCompare : LocaleCompare)
  (compareOptions : option CompareOptions) (T R : Type) (map : ObjMap T)
  (sortValueFn : T -> result R) (out : ObjMap R) :
  sortObjMap localeCompare map sortValueFn compareOptions = Ok out ->
  in_enumeration_order (Object_keys out) = true.
Proof. apply sortObjMap_key_order. Qed.

(** X7. What [replaceType] returns has the wrappers of its argument, in
    the same order, around what [replaceNamedType] returns for the named
    type under them. *)
Theorem replaceType_rewraps (h : Heap) (typeMap : ObjMap addr)
  (type type' : GraphQLType) :
  replaceType h typeMap type = Ok type' ->
  wrappers type' = wrappers type
  /\ replaceNamedType h typeMap (named_type_of type)
     = Ok (named_type_of type').
Proof. apply replaceType_shape. Qed.

(** X8. [replaceType] has no guard for a missing type: when the named
    type under the wrappers is [undefined], reading its name throws. *)
Theorem replaceType_throws_on_undefined (h : Heap) (typeMap : ObjMap addr)
  (type : GraphQLType) :
  type_in_heap h type = false ->
  replaceType h typeMap type = Throw TypeError.
Proof. apply replaceType_not_in_heap. Qed.

(** X9. [sortTypes] returns exactly when every element of the array is
    a named type, an [undefined] among them making it throw, and the
    array can be sorted, there being at most one element or the platform
    accepting the locales and the options. *)
Theorem sortTypes_returns_iff
  (localeCompare : LocaleCompare)
  (compareOptions : option CompareOptions) (h : Heap) (typeMap : ObjMap addr)
  (arr : list ref) :
  (exists out, sortTypes localeCompare h compareOptions typeMap arr = Ok out)
  <-> ((List.length arr <= 1)%nat \/ accepts localeCompare compareOptions)
      /\ forallb (ref_in_heap h) arr = true.
Proof. apply sortTypes_returns. Qed.

(** X10. What [sortTypes] returns: the types of the array, each of them
    once for every time it is there, ordered by name and then replaced,
    one by one, by what the index holds under their names. *)
Theorem sortTypes_replaces_each
  (localeCompare : LocaleCompare)
  (compareOptions : option CompareOptions) (h : Heap) (typeMap : ObjMap addr)
  (arr out : list ref) :
  sortTypes localeCompare h compareOptions typeMap arr = Ok out ->
  exists sorted,
    Permutation arr sorted
    /\ Forall2
         (fun type type' =>
            exists a,
              type = Some a /\ (a < List.length h)%nat
              /\ type' = obj_get typeMap (name_at h a))
         sorted out
    /\ (total_comparator localeCompare compareOptions ->
        non_decreasing localeCompare compareOptions
          (List.map (ref_name h) sorted)).
Proof. apply sortTypes_result. Qed.

(** X11. [sortArgs] keeps every argument under its name, and of each
    what its config holds besides the type; the type is what
    [replaceType] returns for the type of the input. *)
Theorem sortArgs_keeps_each_argument
  (localeCompare : LocaleCompare)
  (compareOptions : option CompareOptions) (h : Heap) (typeMap : ObjMap addr)
  (args out : ObjMap GraphQLArgumentConfig) :
  sortArgs localeCompare h compareOptions typeMap args = Ok out ->
  forall name,
    match obj_get args name with
    | Some arg =>
        exists arg',
          obj_get out name = Some arg'
          /\ arg_rest arg' = arg_rest arg
          /\ replaceType h typeMap (arg_type arg) = Ok (arg_type arg')
    | None => obj_get out name = None
    end.
Proof. apply sortArgs_get. Qed.

(** X12. [sortFields] keeps every field under its name, and of each what
    its config holds besides the type and the arguments; the type is
    what [replaceType] returns for the type of the input, and the
    arguments are what [sortArgs] returns for those of the input. *)
Theorem sortFields_keeps_each_field
  (localeCompare : LocaleCompare)
  (compareOptions : option CompareOptions) (h : Heap) (typeMap : ObjMap addr)
  (fields out : ObjMap GraphQLFieldConfig) :
  sortFields localeCompare h compareOptions typeMap fields = Ok out ->
  forall name,
    match obj_get fields name with
    | Some field =>
        exists field',
          obj_get out name = Some field'
          /\ field_rest field' = field_rest field
          /\ replaceType h typeMap (field_type field)
             = Ok (field_type field')
          /\ sortArgs localeCompare h compareOptions typeMap
               (field_args field)
             = Ok (field_args field')
    | None => obj_get out name = None
    end.
Proof. apply sortFields_get. Qed.

(** X13. [sortFields] returns only if the named type of every field and
    of every argument of every field is there: a field or an argument
    whose type is [undefined] makes it throw. *)
Theorem sortFields_needs_every_type
  (localeCompare : LocaleCompare)
  (compareOptions : option CompareOptions) (h : Heap) (typeMap : ObjMap addr)
  (fields : ObjMap GraphQLFieldConfig) :
  (exists out,
     sortFields localeCompare h compareOptions typeMap fields = Ok out) ->
  fields_resolvable h fields.
Proof. apply sortFields_returns. Qed.

(** X14. [sortInputFields] keeps every field under its name, and of each
    what its config holds besides the type; the type is what
    [replaceType] returns for the type of the input. *)
Theorem sortInputFields_keeps_each_field
  (localeCompare : LocaleCompare)
  (compareOptions : option CompareOptions) (h : Heap) (typeMap : ObjMap addr)
  (fields out : ObjMap GraphQLInputFieldConfig) :
  sortInputFields localeCompare h compareOptions typeMap fields = Ok out ->
  forall name,
    match obj_get fields name with
    | Some field =>
        exists field',
          obj_get out name = Some field'
          /\ input_field_rest field' = input_field_rest field
          /\ replaceType h typeMap (input_field_type field)
             = Ok (input_field_type field')
    | None => obj_get out name = None
    end.
Proof. apply sortInputFields_get. Qed.

(** X15. The directive [sortDirective] returns has the name of the input
    and what its config holds besides locations and arguments; its
    locations are those of the input, each as often as there, in
    non-decreasing order for a total comparator; its arguments are what
    [sortArgs] returns for those of the input. *)
Theorem sortDirective_keeps_directive
  (localeCompare : LocaleCompare)
  (compareOptions : option CompareOptions) (h : Heap) (typeMap : ObjMap addr)
  (directive directive' : GraphQLDirective) :
  sortDirective localeCompare h compareOptions typeMap directive
  = Ok directive' ->
  directive_name directive' = directive_name directive
  /\ directive_rest directive' = directive_rest directive
  /\ Permutation (locations directive) (locations directive')
  /\ (total_comparator localeCompare compareOptions ->
      non_decreasing localeCompare compareOptions (locations directive'))
  /\ sortArgs localeCompare h compareOptions typeMap
       (directive_args directive)
     = Ok (directive_args directive').
Proof. apply sortDirective_result. Qed.

(** X16. The sorter returns only if everything it reads is there: every
    type of the schema is an instance of a class it knows, the
    interfaces, members, field types and argument types of every type it
    rebuilds are named types, so are the argument types of every
    directive, and so is every root that is given. *)
Theorem lexicographicSortSchema_returns_only_if
  (localeCompare : LocaleCompare)
  (isIntrospectionType : GraphQLNamedType -> bool)
  (compareOptions : option CompareOptions) (h : Heap)
  (schema schema' : GraphQLSchema) (h' : Heap) :
  lexicographicSortSchema localeCompare isIntrospectionType schema
    compareOptions h
  = Ok (schema', h') ->
  schema_resolvable isIntrospectionType h schema.
Proof. apply lexicographicSortSchema_resolvable. Qed.

(** X17. The sorter throws the invariant violation only for a type of
    the schema that is an instance of no class it knows and no
    introspection type, and the message names that type. *)
Theorem invariant_violation_names_unrecognized_type
  (localeCompare : LocaleCompare)
  (isIntrospectionType : GraphQLNamedType -> bool)
  (compareOptions : option CompareOptions) (h : Heap)
  (schema : GraphQLSchema) (message : string) :
  lexicographicSortSchema localeCompare isIntrospectionType schema
    compareOptions h
  = Throw (InvariantViolation message) ->
  exists a,
    In a (schema_types schema) /\ (a < List.length h)%nat
    /\ recognized isIntrospectionType (type_at h a) = false
    /\ message = ("Unexpected type: " ++ inspect (type_at h a))%string.
Proof. apply lexicographicSortSchema_invariant. Qed.

(** X18. A schema whose types are all instances, one of them of no class
    the sorter knows, is not sorted: with locales and options the
    platform accepts, the sorter throws the invariant violation for such
    a type. *)
Theorem lexicographicSortSchema_rejects_unrecognized
  (localeCompare : LocaleCompare)
  (isIntrospectionType : GraphQLNamedType -> bool)
  (compareOptions : option CompareOptions) (h : Heap)
  (schema : GraphQLSchema) :
  accepts localeCompare compareOptions ->
  (forall a, In a (schema_types schema) -> (a < List.length h)%nat) ->
  (exists a,
     In a (schema_types schema)
     /\ recognized isIntrospectionType (type_at h a) = false) ->
  exists a,
    In a (schema_types schema)
    /\ recognized isIntrospectionType (type_at h a) = false
    /\ lexicographicSortSchema localeCompare isIntrospectionType schema
         compareOptions h
       = Throw
           (InvariantViolation
              ("Unexpected type: " ++ inspect (type_at h a))).
Proof. apply lexicographicSortSchema_unrecognized. Qed.

(** X19. Whatever the schema, the output has what the config of the
    input holds besides types, directives and roots, and it has the
    directives of the input, each as often as there, with their names,
    what their configs hold besides locations and arguments, and their
    locations. *)
Theorem lexicographicSortSchema_keeps_what_it_does_not_sort
  (localeCompare : LocaleCompare)
  (isIntrospectionType : GraphQLNamedType -> bool)
  (compareOptions : option CompareOptions) (h : Heap)
  (schema schema' : GraphQLSchema) (h' : Heap) :
  lexicographicSortSchema localeCompare isIntrospectionType schema
    compareOptions h
  = Ok (schema', h') ->
  schema_rest schema' = schema_rest schema
  /\ exists sorted,
       Permutation (schema_directives schema) sorted
       /\ Forall2
            (fun directive directive' =>
               directive_name directive' = directive_name directive
               /\ directive_rest directive' = directive_rest directive
               /\ Permutation (locations directive) (locations directive'))
            sorted (schema_directives schema').
Proof. apply lexicographicSortSchema_rest. Qed.

(** X20. On a well-formed schema every type the sorter rebuilds has in
    the output a new instance of the same class and name that holds
    what the type holds besides order and references: the rest of its
    config, as many interfaces or members, under every field name a
    field with the same rest and the same wrappers around its type,
    under every argument name an argument with the same rest and
    wrappers, and under every value name the same value. *)
Theorem rebuilt_types_keep_their_payload
  (localeCompare : LocaleCompare)
  (isIntrospectionType : GraphQLNamedType -> bool)
  (compareOptions : option CompareOptions) (h : Heap)
  (schema schema' : GraphQLSchema) (h' : Heap) :
  well_formed isIntrospectionType h schema = true ->
  lexicographicSortSchema localeCompare isIntrospectionType schema
    compareOptions h
  = Ok (schema', h') ->
  forall a,
    In a (schema_types schema) ->
    passes_through isIntrospectionType (type_at h a) = false ->
    exists a',
      In a' (schema_types schema')
      /\ (List.length h <= a')%nat
      /\ name_at h' a' = name_at h a
      /\ same_payload (type_at h a) (type_at h' a').
Proof. apply rebuilt_type_payload. Qed.

(** X21. The output of a well-formed schema is well formed: its types are
    instances of the heap the sorter returns, their names are distinct,
    and every reference in a type the sorter has rebuilt, in a directive
    or in a root is to a type of the output. *)
Theorem output_is_well_formed
  (localeCompare : LocaleCompare)
  (isIntrospectionType : GraphQLNamedType -> bool)
  (compareOptions : option CompareOptions) (h : Heap)
  (schema schema' : GraphQLSchema) (h' : Heap) :
  well_formed isIntrospectionType h schema = true ->
  lexicographicSortSchema localeCompare isIntrospectionType schema
    compareOptions h
  = Ok (schema', h') ->
  well_formed isIntrospectionType h' schema' = true.
Proof.
  intros wf Hrun.
  destruct (sorted_schema_eq _ _ _ _ _ _ _ wf Hrun) as [-> ->].
  now apply sorted_schema_well_formed.
Qed.

(** X22. An array whose keys are in non-decreasing order already is
    returned by [sortBy] as it is: no two elements change places, those
    with equal keys included. *)
Theorem sortBy_keeps_sorted_array
  (localeCompare : LocaleCompare)
  (compareOptions : option CompareOptions) (T : Type)
  (mapToKey : T -> result string) (key : T -> string) (array : list T) :
  (forall x, In x array -> mapToKey x = Ok (key x)) ->
  non_decreasing localeCompare compareOptions (List.map key array) ->
  sortBy localeCompare array mapToKey compareOptions = Ok array.
Proof.
  intros Hkey Hsorted.
  destruct (accepts_dec localeCompare compareOptions) as [accepted|rejected].
  - rewrite (sortBy_stable localeCompare compareOptions accepted array
               mapToKey key Hkey).
    f_equal. apply stable_sort_Sorted_id.
    now apply Sorted_map_inv in Hsorted.
  - destruct array as [|x [|y rest]]; [reflexivity|reflexivity|].
    exfalso. apply rejected. unfold non_decreasing in Hsorted.
    cbn [List.map] in Hsorted. apply Sorted_inv in Hsorted.
    destruct Hsorted as [_ Hhd]. apply HdRel_inv in Hhd.
    exact (name_le_accepts _ _ _ _ Hhd).
Qed.

(** X23. A map whose keys are in non-decreasing order already, none of
    them an array index, is returned by [sortObjMap] without a
    [sortValueFn] as an equal map: the same keys in the same order, with
    the same values. *)
Theorem sortObjMap_keeps_sorted_map
  (localeCompare : LocaleCompare)
  (compareOptions : option CompareOptions) (T : Type) (map : ObjMap T) :
  keys_ok map = true ->
  non_decreasing localeCompare compareOptions (Object_keys map) ->
  sortObjMap localeCompare map no_sortValueFn compareOptions = Ok map.
Proof.
  intros Hok Hsorted.
  destruct (accepts_dec localeCompare compareOptions) as [accepted|rejected].
  - rewrite (sortObjMap_sorted localeCompare compareOptions accepted map
               no_sortValueFn (fun value => value) Hok)
      by reflexivity.
    f_equal. unfold sorted_map. rewrite map_values_id.
    apply stable_sort_Sorted_id. unfold Object_keys in Hsorted.
    now apply Sorted_map_inv in Hsorted.
  - destruct map as [|[k v] [|[k' v'] rest]].
    + reflexivity.
    + unfold sortObjMap. cbn. rewrite String.eqb_refl. cbn.
      now destruct (array_index k).
    + exfalso. apply rejected. unfold non_decreasing in Hsorted.
      cbn [Object_keys List.map fst] in Hsorted.
      apply Sorted_inv in Hsorted. destruct Hsorted as [_ Hhd].
      apply HdRel_inv in Hhd. exact (name_le_accepts _ _ _ _ Hhd).
Qed.

(** X24. A comparator fault is propagated: with locales or options the
    platform does not accept, [sortBy] on an array of two or more
    elements, each with a key, throws the [RangeError] of the
    comparator. *)
Theorem sortBy_propagates_comparator_fault
  (localeCompare : LocaleCompare)
  (compareOptions : option CompareOptions) (T : Type)
  (mapToKey : T -> result string) (array : list T) :
  ~ accepts localeCompare compareOptions ->
  (2 <= List.length array)%nat ->
  (forall x, In x array -> exists key, mapToKey x = Ok key) ->
  sortBy localeCompare array mapToKey compareOptions = Throw RangeError.
Proof. apply sortBy_rejected. Qed.

(** X25. A comparator fault is propagated by the sorter: with locales or
    options the platform does not accept, on a schema of two or more types
    that are instances, the sorter throws the [RangeError] of the
    comparator, whatever else the schema holds. *)
Theorem lexicographicSortSchema_propagates_comparator_fault
  (localeCompare : LocaleCompare)
  (isIntrospectionType : GraphQLNamedType -> bool)
  (compareOptions : option CompareOptions) (h : Heap)
  (schema : GraphQLSchema) :
  ~ accepts localeCompare compareOptions ->
  (2 <= List.length (schema_types schema))%nat ->
  (forall a, In a (schema_types schema) -> (a < List.length h)%nat) ->
  lexicographicSortSchema localeCompare isIntrospectionType schema
    compareOptions h
  = Throw RangeError.
Proof.
  intros rejected Hlen Hheap. unfold lexicographicSortSchema, sortByName.
  rewrite (sortBy_rejected localeCompare compareOptions addr
             (fun obj => name_of h obj) (schema_types schema) rejected Hlen);
    [reflexivity|].
  intros a Ha. exists (name_at h a). apply name_of_addr. now apply Hheap.
Qed.

(** ** The properties at work on the examples *)


Lemma sortBy_returns_sorted_permutation_witness :
  Permutation ["INLINE_FRAGMENT"; "FIELD"; "QUERY"]
    ["FIELD"; "INLINE_FRAGMENT"; "QUERY"]
  /\ non_decreasing example_localeCompare None
       ["FIELD"; "INLINE_FRAGMENT"; "QUERY"].
Proof.
  destruct (sortBy_returns_sorted_permutation example_localeCompare None
              string (fun x => Ok x) ["INLINE_FRAGMENT"; "FIELD"; "QUERY"]
              ["FIELD"; "INLINE_FRAGMENT"; "QUERY"] eq_refl)
    as [Hperm Hsorted].
  split; [exact Hperm|].
  apply Hsorted; [now apply example_localeCompare_total|reflexivity].
Defined.

Lemma sortObjMap_lookup_witness :
  (exists value',
     no_sortValueFn "g" = Ok value'
     /\ obj_get [("BLUE", "b"); ("GREEN", "g"); ("RED", "r")] "GREEN"
        = Some value')
  /\ obj_get [("BLUE", "b"); ("GREEN", "g"); ("RED", "r")] "PINK" = None.
Proof.
  pose proof (sortObjMap_lookup example_localeCompare None string string
                [("RED", "r"); ("GREEN", "g"); ("BLUE", "b")] no_sortValueFn
                [("BLUE", "b"); ("GREEN", "g"); ("RED", "r")] eq_refl)
    as H.
  split; [exact (H "GREEN")|exact (H "PINK")].
Defined.

Lemma sortObjMap_returns_iff_witness :
  exists out,
    sortObjMap example_localeCompare
      [("RED", "r"); ("GREEN", "g"); ("BLUE", "b")] no_sortValueFn None
    = Ok out.
Proof.
  apply (sortObjMap_returns_iff example_localeCompare None string string
           [("RED", "r"); ("GREEN", "g"); ("BLUE", "b")] no_sortValueFn).
  split.
  - right. now apply example_localeCompare_accepts.
  - intros key value _. now exists value.
Defined.

Lemma sortObjMap_throws_what_sortValueFn_throws_witness :
  exists key value,
    obj_get [("id", arg_of (Named None))] key = Some value
    /\ replaceType cyclic_heap cyclic_index (arg_type value)
       = Throw TypeError.
Proof.
  destruct (sortObjMap_throws_what_sortValueFn_throws example_localeCompare
              None GraphQLArgumentConfig GraphQLType
              [("id", arg_of (Named None))]
              (fun arg => replaceType cyclic_heap cyclic_index (arg_type arg))
              TypeError eq_refl)
    as [H|[H _]]; [exact H|discriminate H].
Defined.

Lemma sortObjMap_enumerates_indices_first_witness :
  in_enumeration_order
    (Object_keys [("9", "w"); ("10", "y"); ("a", "z"); ("b", "x")])
  = true.
Proof.
  apply (sortObjMap_enumerates_indices_first example_localeCompare None
           string string [("b", "x"); ("10", "y"); ("a", "z"); ("9", "w")]
           no_sortValueFn).
  reflexivity.
Defined.

Lemma replaceType_rewraps_witness :
  wrappers (GraphQLNonNull (GraphQLList (Named (Some 12))))
  = wrappers (GraphQLNonNull (GraphQLList (Named (Some 6))))
  /\ replaceNamedType cyclic_heap cyclic_index
       (named_type_of (GraphQLNonNull (GraphQLList (Named (Some 6)))))
     = Ok (named_type_of (GraphQLNonNull (GraphQLList (Named (Some 12))))).
Proof.
  apply (replaceType_rewraps cyclic_heap cyclic_index
           (GraphQLNonNull (GraphQLList (Named (Some 6))))
           (GraphQLNonNull (GraphQLList (Named (Some 12))))).
  reflexivity.
Defined.

Lemma replaceType_throws_on_undefined_witness :
  replaceType cyclic_heap cyclic_index (GraphQLList (Named None))
  = Throw TypeError.
Proof.
  apply (replaceType_throws_on_undefined cyclic_heap cyclic_index
           (GraphQLList (Named None))).
  reflexivity.
Defined.

Lemma sortTypes_returns_iff_witness :
  (List.length [Some 0; Some 1] <= 1 \/ accepts example_localeCompare None)
  /\ forallb (ref_in_heap cyclic_heap) [Some 0; Some 1] = true.
Proof.
  apply (sortTypes_returns_iff example_localeCompare None cyclic_heap
           cyclic_index [Some 0; Some 1]).
  exists [Some 8; Some 10]. reflexivity.
Defined.

Lemma sortTypes_replaces_each_witness :
  exists sorted,
    Permutation [Some 0; Some 1] sorted
    /\ Forall2
         (fun type type' =>
            exists a,
              type = Some a /\ (a < List.length cyclic_heap)%nat
              /\ type' = obj_get cyclic_index (name_at cyclic_heap a))
         sorted [Some 8; Some 10]
    /\ (total_comparator example_localeCompare None ->
        non_decreasing example_localeCompare None
          (List.map (ref_name cyclic_heap) sorted)).
Proof.
  apply (sortTypes_replaces_each example_localeCompare None cyclic_heap
           cyclic_index [Some 0; Some 1] [Some 8; Some 10]).
  reflexivity.
Defined.

Lemma sortArgs_keeps_each_argument_witness :
  (exists arg',
     obj_get sorted_args_of_a "first" = Some arg'
     /\ arg_rest arg' = arg_rest (arg_of (GraphQLNonNull (Named (Some 6))))
     /\ replaceType cyclic_heap cyclic_index
          (arg_type (arg_of (GraphQLNonNull (Named (Some 6)))))
        = Ok (arg_type arg'))
  /\ obj_get sorted_args_of_a "limit" = None.
Proof.
  pose proof (sortArgs_keeps_each_argument example_localeCompare None
                cyclic_heap cyclic_index args_of_a sorted_args_of_a eq_refl)
    as H.
  split; [exact (H "first")|exact (H "limit")].
Defined.

Lemma sortFields_keeps_each_field_witness :
  (exists field',
     obj_get sorted_fields_of_B "z" = Some field'
     /\ field_rest field' = field_rest (field_of (Named (Some 1)))
     /\ replaceType cyclic_heap cyclic_index
          (field_type (field_of (Named (Some 1))))
        = Ok (field_type field')
     /\ sortArgs example_localeCompare cyclic_heap None cyclic_index
          (field_args (field_of (Named (Some 1))))
        = Ok (field_args field'))
  /\ obj_get sorted_fields_of_B "b" = None.
Proof.
  pose proof (sortFields_keeps_each_field example_localeCompare None
                cyclic_heap cyclic_index fields_of_B sorted_fields_of_B
                eq_refl)
    as H.
  split; [exact (H "z")|exact (H "b")].
Defined.

Lemma sortFields_needs_every_type_witness :
  fields_resolvable cyclic_heap fields_of_B.
Proof.
  apply (sortFields_needs_every_type example_localeCompare None cyclic_heap
           cyclic_index fields_of_B).
  exists sorted_fields_of_B. reflexivity.
Defined.

Lemma sortInputFields_keeps_each_field_witness :
  (exists field',
     obj_get sorted_fields_of_Filter "min" = Some field'
     /\ input_field_rest field' = ""
     /\ replaceType cyclic_heap cyclic_index (Named (Some 2))
        = Ok (input_field_type field'))
  /\ obj_get sorted_fields_of_Filter "mean" = None.
Proof.
  pose proof (sortInputFields_keeps_each_field example_localeCompare None
                cyclic_heap cyclic_index fields_of_Filter
                sorted_fields_of_Filter eq_refl)
    as H.
  split; [exact (H "min")|exact (H "mean")].
Defined.

Lemma sortDirective_keeps_directive_witness :
  directive_name sorted_skip_directive = directive_name skip_directive
  /\ directive_rest sorted_skip_directive = directive_rest skip_directive
  /\ Permutation (locations skip_directive) (locations sorted_skip_directive)
  /\ (total_comparator example_localeCompare None ->
      non_decreasing example_localeCompare None
        (locations sorted_skip_directive))
  /\ sortArgs example_localeCompare cyclic_heap None cyclic_index
       (directive_args skip_directive)
     = Ok (directive_args sorted_skip_directive).
Proof.
  apply (sortDirective_keeps_directive example_localeCompare None cyclic_heap
           cyclic_index skip_directive sorted_skip_directive).
  reflexivity.
Defined.

Lemma lexicographicSortSchema_returns_only_if_witness :
  schema_resolvable example_isIntrospectionType cyclic_heap cyclic_schema.
Proof.
  apply (lexicographicSortSchema_returns_only_if example_localeCompare
           example_isIntrospectionType None cyclic_heap cyclic_schema
           (fst cyclic_sorted) (snd cyclic_sorted)).
  reflexivity.
Defined.

Lemma invariant_violation_names_unrecognized_type_witness :
  exists a,
    In a (schema_types unknown_schema)
    /\ (a < List.length unknown_heap)%nat
    /\ recognized example_isIntrospectionType (type_at unknown_heap a) = false
    /\ "Unexpected type: Mystery"
       = ("Unexpected type: " ++ inspect (type_at unknown_heap a))%string.
Proof.
  apply (invariant_violation_names_unrecognized_type
           example_localeCompare example_isIntrospectionType None
           unknown_heap unknown_schema "Unexpected type: Mystery").
  reflexivity.
Defined.

Lemma lexicographicSortSchema_rejects_unrecognized_witness :
  exists a,
    In a (schema_types unknown_schema)
    /\ recognized example_isIntrospectionType (type_at unknown_heap a) = false
    /\ lexicographicSortSchema example_localeCompare
         example_isIntrospectionType unknown_schema None unknown_heap
       = Throw
           (InvariantViolation
              ("Unexpected type: " ++ inspect (type_at unknown_heap a))).
Proof.
  apply (lexicographicSortSchema_rejects_unrecognized example_localeCompare
           example_isIntrospectionType None unknown_heap unknown_schema).
  - now apply example_localeCompare_accepts.
  - intros a [<-|[]]. simpl. lia.
  - exists 0%nat. split; [now left|reflexivity].
Defined.

Lemma lexicographicSortSchema_keeps_what_it_does_not_sort_witness :
  schema_rest (fst cyclic_sorted) = schema_rest cyclic_schema
  /\ exists sorted,
       Permutation (schema_directives cyclic_schema) sorted
       /\ Forall2
            (fun directive directive' =>
               directive_name directive' = directive_name directive
               /\ directive_rest directive' = directive_rest directive
               /\ Permutation (locations directive) (locations directive'))
            sorted (schema_directives (fst cyclic_sorted)).
Proof.
  apply (lexicographicSortSchema_keeps_what_it_does_not_sort
           example_localeCompare example_isIntrospectionType None cyclic_heap
           cyclic_schema (fst cyclic_sorted) (snd cyclic_sorted)).
  reflexivity.
Defined.

Lemma rebuilt_types_keep_their_payload_witness :
  exists a',
    In a' (schema_types (fst cyclic_sorted))
    /\ (List.length cyclic_heap <= a')%nat
    /\ name_at (snd cyclic_sorted) a' = name_at cyclic_heap 0
    /\ same_payload (type_at cyclic_heap 0) (type_at (snd cyclic_sorted) a').
Proof.
  apply (rebuilt_types_keep_their_payload example_localeCompare
           example_isIntrospectionType None cyclic_heap cyclic_schema
           (fst cyclic_sorted) (snd cyclic_sorted));
    [reflexivity|reflexivity|now left|reflexivity].
Defined.

Lemma output_is_well_formed_witness :
  well_formed example_isIntrospectionType (snd cyclic_sorted)
    (fst cyclic_sorted)
  = true.
Proof.
  apply (output_is_well_formed example_localeCompare
           example_isIntrospectionType None cyclic_heap cyclic_schema
           (fst cyclic_sorted) (snd cyclic_sorted));
    reflexivity.
Defined.

Lemma sortBy_keeps_sorted_array_witness :
  sortBy example_localeCompare
    [("b", field_of (Named None)); ("B", field_of (Named (Some 2)))]
    (fun e => Ok (fst e)) base_sensitivity
  = Ok [("b", field_of (Named None)); ("B", field_of (Named (Some 2)))].
Proof.
  apply (sortBy_keeps_sorted_array example_localeCompare base_sensitivity
           (string * GraphQLFieldConfig) (fun e => Ok (fst e)) fst).
  - reflexivity.
  - repeat constructor. vm_compute. discriminate.
Defined.

Lemma sortObjMap_keeps_sorted_map_witness :
  sortObjMap example_localeCompare [("BLUE", "b"); ("GREEN", "g"); ("RED", "r")]
    no_sortValueFn None
  = Ok [("BLUE", "b"); ("GREEN", "g"); ("RED", "r")].
Proof.
  apply (sortObjMap_keeps_sorted_map example_localeCompare None string
           [("BLUE", "b"); ("GREEN", "g"); ("RED", "r")]).
  - reflexivity.
  - repeat constructor; vm_compute; discriminate.
Defined.

Lemma sortBy_propagates_comparator_fault_witness :
  sortBy example_localeCompare ["b"; "a"] (fun x => Ok x) not_a_locale
  = Throw RangeError.
Proof.
  apply (sortBy_propagates_comparator_fault example_localeCompare
           not_a_locale string (fun x => Ok x) ["b"; "a"]).
  - now apply example_localeCompare_rejects.
  - simpl. lia.
  - intros x _. now exists x.
Defined.

Lemma lexicographicSortSchema_propagates_comparator_fault_witness :
  lexicographicSortSchema example_localeCompare example_isIntrospectionType
    cyclic_schema not_a_locale cyclic_heap
  = Throw RangeError.
Proof.
  apply (lexicographicSortSchema_propagates_comparator_fault
           example_localeCompare example_isIntrospectionType not_a_locale
           cyclic_heap cyclic_schema).
  - now apply example_localeCompare_rejects.
  - simpl. lia.
  - intros a Ha. simpl in Ha. simpl. lia.
Defined.
